(** * Algo-visualizer: step generation, transport and structure invariants

    A shallow embedding of the algorithmic core of the visualizer:
    - the two array visualizers (bubble and selection sort step logs and the
      step transport of the sort animation),
    - the hash-table visualizer (hash function, insert, remove, search),
    - the linked-list visualizer (index-linked nodes),
    - the binary-tree visualizer (direct insertion and deletion).

    JavaScript objects that are shared between several arrays and mutated in
    place (array items, hash-table entries) live in an explicit object store;
    an array of objects is a list of references into that store.  Numbers are
    the integers the visualizers work on ([Z] for element values, [nat] for
    indices and character codes). *)

From stdpp Require Import base option list strings sorting.
From Stdlib Require Import ZArith Lia.

(** ** Results of code that may throw *)

Inductive Error := TypeError.

Inductive Res (A : Type) :=
  | Ok (a : A)
  | Throw (e : Error).
Arguments Ok {A} a.
Arguments Throw {A} e.

(** ** Array visualizer: data model and the sort step recorders *)

Module ArrayViz.

(** [ArrayItem.status] of [types/visualizer.ts]. *)
Inductive Status :=
  | SDefault | SActive | SComparing | SSorted | SHighlighted | SSwapping.

(** [ArrayItem]: [value], [status] and the optional [id]. *)
Record ArrayItem := mkItem {
  value : Z;
  status : Status;
  id : option string
}.

#[export] Instance ArrayItem_inhabited : Inhabited ArrayItem :=
  populate (mkItem 0 SDefault None).

Definition with_status (s : Status) (it : ArrayItem) : ArrayItem :=
  mkItem (value it) s (id it).

(** The state of one run of a sort: the object store, the local array
    [copy] (references), and the step log [steps] (arrays of references). *)
Record SortState := mkSort {
  objs : list ArrayItem;
  copy : list nat;
  steps : list (list nat)
}.

Definition M (A : Type) : Type := SortState -> Res (A * SortState).

Definition ret {A} (a : A) : M A := fun st => Ok (a, st).

Definition bind {A B} (m : M A) (f : A -> M B) : M B :=
  fun st => match m st with
            | Ok (a, st') => f a st'
            | Throw e => Throw e
            end.

Definition throw {A} (e : Error) : M A := fun _ => Throw e.

Notation "x <- m ;; k" := (bind m (fun x => k))
  (at level 100, m at next level, right associativity).
Notation "m ;;; k" := (bind m (fun _ => k))
  (at level 100, right associativity).

(** [copy[j]]: the reference stored at index [j]; reading a property of the
    [undefined] that an out-of-range index yields throws a [TypeError]. *)
Definition itemRef (j : nat) : M nat :=
  fun st => match copy st !! j with
            | Some r => Ok (r, st)
            | None => Throw TypeError
            end.

(** [copy[j].value] *)
Definition getValue (j : nat) : M Z :=
  r <- itemRef j ;;
  fun st => Ok (value (objs st !!! r), st).

(** [copy[j].status = s] *)
Definition setStatus (j : nat) (s : Status) : M unit :=
  r <- itemRef j ;;
  fun st => Ok (tt, mkSort (alter (with_status s) r (objs st)) (copy st) (steps st)).

(** [copy[z].status = s] for an index expression that may be negative. *)
Definition setStatusZ (z : Z) (s : Status) : M unit :=
  if (z <? 0)%Z then throw TypeError else setStatus (Z.to_nat z) s.

(** [copy[j].status] *)
Definition getStatus (j : nat) : M Status :=
  r <- itemRef j ;;
  fun st => Ok (status (objs st !!! r), st).

(** [steps.push([...copy])]: the new step shares its objects with [copy]. *)
Definition pushShallow : M unit :=
  fun st => Ok (tt, mkSort (objs st) (copy st) (steps st ++ [copy st])).

(** [steps.push(copy.map(item => ({...item})))] and
    [steps.push(JSON.parse(JSON.stringify(copy)))]: every item is copied into
    a fresh object. *)
Definition pushSnapshot : M unit :=
  fun st =>
    let fresh := seq (length (objs st)) (length (copy st)) in
    Ok (tt, mkSort (objs st ++ ((fun r => objs st !!! r) <$> copy st))
                   (copy st) (steps st ++ [fresh])).

(** [const temp = {...copy[j]}; copy[j] = {...copy[k]}; copy[k] = temp;] *)
Definition swapFresh (j k : nat) : M unit :=
  rj <- itemRef j ;;
  rk <- itemRef k ;;
  fun st =>
    let temp := length (objs st) in
    let o := objs st ++ [objs st !!! rj; objs st !!! rk] in
    Ok (tt, mkSort o (<[k := temp]> (<[j := S temp]> (copy st))) (steps st)).

(** [for (let i = ...; ...; i++) body] over the listed index values. *)
Fixpoint forEach (l : list nat) (body : nat -> M unit) : M unit :=
  match l with
  | [] => ret tt
  | i :: l' => body i ;;; forEach l' body
  end.

(** A loop that also updates a local variable. *)
Fixpoint forEachAcc {A} (l : list nat) (body : nat -> A -> M A) (a : A) : M A :=
  match l with
  | [] => ret a
  | i :: l' => a' <- body i a ;; forEachAcc l' body a'
  end.

Definition when (b : bool) (m : M unit) : M unit := if b then m else ret tt.

(** The step log as the caller sees it: every step read through the store. *)
Definition readStep (o : list ArrayItem) (refs : list nat) : list ArrayItem :=
  (fun r => o !!! r) <$> refs.

Definition readSteps (st : SortState) : list (list ArrayItem) :=
  readStep (objs st) <$> steps st.

Definition runSort (m : M unit) (init : SortState) : Res (list (list ArrayItem)) :=
  match m init with
  | Ok (_, st) => Ok (readSteps st)
  | Throw e => Throw e
  end.

(** *** The older array visualizer (first [bubbleSort] / [selectionSort]) *)

Module V1.

(** [array.map(item => ({ value: item.value, status: 'default' }))] *)
Definition initState (array : list ArrayItem) : SortState :=
  mkSort ((fun it => mkItem (value it) SDefault None) <$> array)
         (seq 0 (length array)) [].

Definition bubbleInner (j : nat) : M unit :=
  setStatus j SComparing ;;;
  setStatus (j + 1) SComparing ;;;
  pushSnapshot ;;;
  a <- getValue j ;;
  b <- getValue (j + 1) ;;
  when (a >? b)%Z
    (setStatus j SSwapping ;;;
     setStatus (j + 1) SSwapping ;;;
     pushSnapshot ;;;
     swapFresh j (j + 1) ;;;
     pushSnapshot) ;;;
  setStatus j SDefault ;;;
  setStatus (j + 1) SDefault.

Definition bubbleOuter (n i : nat) : M unit :=
  forEach (seq 0 (n - i - 1)) bubbleInner ;;;
  setStatus (n - i - 1) SSorted ;;;
  pushSnapshot.

Definition bubbleSortM (n : nat) : M unit :=
  pushShallow ;;;
  forEach (seq 0 n) (bubbleOuter n) ;;;
  forEach (seq 0 n) (fun i => setStatus i SSorted) ;;;
  pushSnapshot.

Definition bubbleSort (array : list ArrayItem) : Res (list (list ArrayItem)) :=
  runSort (bubbleSortM (length array)) (initState array).

Definition selectionInner (i j minIndex : nat) : M nat :=
  setStatus j SComparing ;;;
  pushSnapshot ;;;
  a <- getValue j ;;
  b <- getValue minIndex ;;
  m <- (if (a <? b)%Z
        then when (negb (minIndex =? i)) (setStatus minIndex SDefault) ;;; ret j
        else setStatus j SDefault ;;; ret minIndex) ;;
  pushSnapshot ;;;
  ret m.

Definition selectionOuter (n i : nat) : M unit :=
  setStatus i SComparing ;;;
  pushSnapshot ;;;
  minIndex <- forEachAcc (seq (i + 1) (n - (i + 1))) (selectionInner i) i ;;
  when (negb (minIndex =? i))
    (setStatus i SSwapping ;;;
     setStatus minIndex SSwapping ;;;
     pushSnapshot ;;;
     swapFresh i minIndex ;;;
     pushSnapshot) ;;;
  setStatus i SSorted ;;;
  when (negb (minIndex =? i)) (setStatus minIndex SDefault) ;;;
  pushSnapshot.

Definition selectionSortM (n : nat) : M unit :=
  pushShallow ;;;
  forEach (seq 0 (n - 1)) (selectionOuter n) ;;;
  setStatusZ (Z.of_nat n - 1) SSorted ;;;
  pushSnapshot.

Definition selectionSort (array : list ArrayItem) : Res (list (list ArrayItem)) :=
  runSort (selectionSortM (length array)) (initState array).

End V1.

(** *** The current array visualizer (second [bubbleSort]) *)

Module V2.

#[export] Instance Status_eq_dec : EqDecision Status.
Proof. solve_decision. Defined.

(** [array.map(item => ({ value: item.value, status: 'default', id: item.id }))] *)
Definition initState (array : list ArrayItem) : SortState :=
  mkSort ((fun it => mkItem (value it) SDefault (id it)) <$> array)
         (seq 0 (length array)) [].

Definition resetUnlessSorted (j : nat) : M unit :=
  s <- getStatus j ;;
  when (negb (bool_decide (s = SSorted))) (setStatus j SDefault).

Definition bubbleInner (n i j : nat) : M unit :=
  resetUnlessSorted j ;;;
  resetUnlessSorted (j + 1) ;;;
  setStatus j SComparing ;;;
  setStatus (j + 1) SComparing ;;;
  pushSnapshot ;;;
  a <- getValue j ;;
  b <- getValue (j + 1) ;;
  when (a >? b)%Z
    (setStatus j SSwapping ;;;
     setStatus (j + 1) SSwapping ;;;
     pushSnapshot ;;;
     swapFresh j (j + 1) ;;;
     pushSnapshot) ;;;
  setStatus j SDefault ;;;
  (if j + 1 =? n - i - 1
   then setStatus (j + 1) SSorted
   else setStatus (j + 1) SDefault).

Definition bubbleSortM (n : nat) : M unit :=
  pushSnapshot ;;;
  forEach (seq 0 n) (fun i => forEach (seq 0 (n - i - 1)) (bubbleInner n i)) ;;;
  forEach (seq 0 n) (fun i => setStatus i SSorted) ;;;
  pushSnapshot.

Definition bubbleSort (array : list ArrayItem) : Res (list (list ArrayItem)) :=
  runSort (bubbleSortM (length array)) (initState array).

(** The second [selectionSort]: no step is recorded at the end of an
    iteration of the inner loop. *)
Definition selectionInner (i j minIndex : nat) : M nat :=
  setStatus j SComparing ;;;
  pushSnapshot ;;;
  a <- getValue j ;;
  b <- getValue minIndex ;;
  (if (a <? b)%Z
   then when (negb (minIndex =? i)) (setStatus minIndex SDefault) ;;; ret j
   else setStatus j SDefault ;;; ret minIndex).

Definition selectionOuter (n i : nat) : M unit :=
  setStatus i SComparing ;;;
  pushSnapshot ;;;
  minIndex <- forEachAcc (seq (i + 1) (n - (i + 1))) (selectionInner i) i ;;
  when (negb (minIndex =? i))
    (setStatus i SSwapping ;;;
     setStatus minIndex SSwapping ;;;
     pushSnapshot ;;;
     swapFresh i minIndex ;;;
     pushSnapshot) ;;;
  setStatus i SSorted ;;;
  when (negb (minIndex =? i)) (setStatus minIndex SDefault) ;;;
  pushSnapshot.

Definition selectionSortM (n : nat) : M unit :=
  pushSnapshot ;;;
  forEach (seq 0 (n - 1)) (selectionOuter n) ;;;
  setStatusZ (Z.of_nat n - 1) SSorted ;;;
  pushSnapshot.

Definition selectionSort (array : list ArrayItem) : Res (list (list ArrayItem)) :=
  runSort (selectionSortM (length array)) (initState array).

End V2.

(** *** Step transport of the sort animation

    [playVisualization], [pauseVisualization], [stepVisualization] and the
    scheduled [animate] callback of the array visualizer, together with the
    buttons of [VisualizationControls] that invoke them. *)

Inductive Algorithm :=
  | BubbleSort | SelectionSort | InsertionSort | MergeSort | QuickSort.

Record Player := mkPlayer {
  array : list ArrayItem;
  selectedAlgorithm : Algorithm;
  stepsRef : list (list ArrayItem);
  currentStep : nat;
  totalSteps : nat;
  isPlaying : bool;
  isCompleted : bool
}.

(** The component right after mounting: [stepsRef] starts as [[]]. *)
Definition mount (initialArray : list Z) : Player :=
  mkPlayer ((fun v => mkItem v SDefault None) <$> initialArray)
           BubbleSort [] 0 0 false false.

Definition getCurrentSortAlgorithm (p : Player) : Res (list (list ArrayItem)) :=
  match selectedAlgorithm p with
  | SelectionSort => V1.selectionSort (array p)
  | InsertionSort | MergeSort | QuickSort => V1.bubbleSort (array p)
  | BubbleSort => V1.bubbleSort (array p)
  end.

(** [if (stepsRef.current.length <= 1) { stepsRef.current = sortAlgorithm();
    setTotalSteps(stepsRef.current.length - 1); }] *)
Definition generateSteps (p : Player) : Res Player :=
  if length (stepsRef p) <=? 1 then
    match getCurrentSortAlgorithm p with
    | Ok log => Ok (mkPlayer (array p) (selectedAlgorithm p) log (currentStep p)
                             (length log - 1) (isPlaying p) (isCompleted p))
    | Throw e => Throw e
    end
  else Ok p.

(** [setCurrentStep(step); setArray(stepsRef.current[step])]; both callers
    guard [step] to be an index of [stepsRef.current]. *)
Definition showStep (step : nat) (p : Player) : Player :=
  mkPlayer (default [] (stepsRef p !! step)) (selectedAlgorithm p) (stepsRef p)
           step (totalSteps p) (isPlaying p) (isCompleted p).

Definition setCompleted (b : bool) (p : Player) : Player :=
  mkPlayer (array p) (selectedAlgorithm p) (stepsRef p) (currentStep p)
           (totalSteps p) (isPlaying p) b.

Definition setPlaying (b : bool) (p : Player) : Player :=
  mkPlayer (array p) (selectedAlgorithm p) (stepsRef p) (currentStep p)
           (totalSteps p) b (isCompleted p).

(** [stepsRef.current.length - 1] may be [-1]; it is compared as an integer. *)
Definition lastIndex (p : Player) : Z := (Z.of_nat (length (stepsRef p)) - 1)%Z.

Definition stepVisualization (p : Player) : Res Player :=
  if isCompleted p || (lastIndex p <=? Z.of_nat (currentStep p))%Z then Ok p
  else
    match generateSteps p with
    | Throw e => Throw e
    | Ok p1 =>
        let nextStep := currentStep p + 1 in
        let p2 := showStep nextStep p1 in
        Ok (if (Z.of_nat nextStep =? lastIndex p2)%Z then setCompleted true p2 else p2)
    end.

Definition playVisualization (p : Player) : Res Player :=
  if isPlaying p || isCompleted p then Ok p
  else generateSteps (setPlaying true p).

(** One due firing of the scheduled [animate] callback while playing. *)
Definition animate (p : Player) : Player :=
  if negb (isPlaying p) then p
  else if (Z.of_nat (currentStep p) <? lastIndex p)%Z
       then showStep (currentStep p + 1) p
       else setPlaying false (setCompleted true p).

Definition pauseVisualization (p : Player) : Player :=
  if negb (isPlaying p) then p else setPlaying false p.

(** [onStep={stepVisualization}]: the handler takes no parameter, so the
    [forward] flag passed by the controls is dropped. *)
Definition onStep (forward : bool) (p : Player) : Res Player := stepVisualization p.

Definition handleStepBackward (p : Player) : Res Player := onStep false p.
Definition handleStepForward (p : Player) : Res Player := onStep true p.

(** The buttons of [VisualizationControls] with their [disabled] conditions. *)
Definition clickStepBackward (p : Player) : Res Player :=
  if isPlaying p || (currentStep p <=? 0) || (length (array p) =? 0) then Ok p
  else handleStepBackward p.

Definition clickStepForward (p : Player) : Res Player :=
  if isPlaying p || (totalSteps p <=? currentStep p) || (length (array p) =? 0) then Ok p
  else handleStepForward p.

Definition clickPlayPause (p : Player) : Res Player :=
  if length (array p) =? 0 then Ok p
  else if isPlaying p then Ok (pauseVisualization p) else playVisualization p.

Inductive Command := StepForward | StepBackward | PlayPause | Tick.

Definition command (c : Command) (p : Player) : Res Player :=
  match c with
  | StepForward => clickStepForward p
  | StepBackward => clickStepBackward p
  | PlayPause => clickPlayPause p
  | Tick => Ok (animate p)
  end.

Fixpoint commands (cs : list Command) (p : Player) : Res Player :=
  match cs with
  | [] => Ok p
  | c :: cs' => match command c p with
                | Ok p' => commands cs' p'
                | Throw e => Throw e
                end
  end.

(** [resetArray] and [resetVisualization]; [values] is the array that
    [generateRandomArray(arraySize)] returns. *)
Definition resetVisualization (values : list Z) (p : Player) : Player :=
  let newArray := (fun v => mkItem v SDefault None) <$> values in
  mkPlayer newArray (selectedAlgorithm p) [newArray] 0 0 false false.

End ArrayViz.

(** ** Hash-table visualizer *)

Module HashViz.

Inductive HStatus := HDefault | HActive | HCollision | HProcessing | HDeleted.

Inductive HValue :=
  | VString (s : string) | VNumber (z : Z) | VBool (b : bool) | VNull.

Record HashTableEntry := mkEntry {
  key : string;
  value : HValue;
  status : HStatus
}.

#[export] Instance HashTableEntry_inhabited : Inhabited HashTableEntry :=
  populate (mkEntry EmptyString VNull HDefault).

Inductive HashTableType := HMap | HSet.

Inductive Notice :=
  | DuplicateKey (k : string)
  | FoundIn (k : string) (bucketIndex : nat)
  | NotFound (k : string).

(** Component state.  Entry objects are shared between [entries] and
    [buckets]; both hold references into [store]. *)
Record HashState := mkHash {
  hashType : HashTableType;
  store : list HashTableEntry;
  entries : list nat;
  buckets : list (list nat);
  selectedEntry : option string;
  isAnimating : bool
}.

Definition with_status (s : HStatus) (e : HashTableEntry) : HashTableEntry :=
  mkEntry (key e) (value e) s.

(** [refs.forEach(item => { item.status = s })] *)
Definition markAll (s : HStatus) (refs : list nat) (st : list HashTableEntry)
  : list HashTableEntry :=
  foldl (fun st r => alter (with_status s) r st) st refs.

(** [refs.map(item => ({...item, status: f(idx)}))]: fresh objects. *)
Definition copyAll (f : nat -> HStatus) (refs : list nat) (st : list HashTableEntry)
  : list HashTableEntry * list nat :=
  (st ++ imap (fun idx r => with_status (f idx) (st !!! r)) refs,
   seq (length st) (length refs)).

(** [refs.findIndex(entry => entry.key === k)] *)
Fixpoint findIndex (st : list HashTableEntry) (k : string) (refs : list nat)
  : option nat :=
  match refs with
  | [] => None
  | r :: refs' =>
      if String.eqb (key (st !!! r)) k then Some 0
      else S <$> findIndex st k refs'
  end.

(** [refs.filter(entry => entry.key !== k)] *)
Definition dropKey (st : list HashTableEntry) (k : string) (refs : list nat)
  : list nat :=
  filter (fun r => key (st !!! r) <> k) refs.

Definition occupancy (n : nat) : HStatus :=
  if 1 <? n then HCollision else HDefault.

Section hash.
(** The [bucketSize] property of the component, a positive integer
    (default 8).  For [bucketSize = 0] JavaScript's [%] yields [NaN],
    which this model does not represent. *)
Variable bucketSize : nat.

(** [key.charCodeAt(i)]; keys are modelled as strings of 8-bit characters. *)
Definition charCodeAt (k : string) (i : nat) : nat :=
  match String.get i k with
  | Some c => Ascii.nat_of_ascii c
  | None => 0
  end.

Definition hashFunction (k : string) : nat :=
  foldl (fun hash i => (hash + charCodeAt k i * (i + 1)) `mod` bucketSize)
        0 (seq 0 (String.length k)).

Definition initialData : list (string * HValue) :=
  [("name", VString "John"); ("age", VNumber 25); ("city", VString "New York");
   ("country", VString "USA"); ("job", VString "Developer")]%string.

(** One iteration of [initialData.forEach] in [resetHashTable]. *)
Definition resetPush (acc : Res (list HashTableEntry * list nat * list (list nat)))
    (kv : string * HValue) : Res (list HashTableEntry * list nat * list (list nat)) :=
  match acc with
  | Throw e => Throw e
  | Ok (st, ents, bs) =>
      let entry := length st in
      let st1 := st ++ [mkEntry kv.1 kv.2 HDefault] in
      let bucketIndex := hashFunction kv.1 in
      match bs !! bucketIndex with
      | None => Throw TypeError
      | Some b =>
          let b' := b ++ [entry] in
          let st2 := if 1 <? length b' then markAll HCollision b' st1 else st1 in
          Ok (st2, ents ++ [entry], <[bucketIndex := b']> bs)
      end
  end.

Definition resetHashTable (ty : HashTableType) : Res HashState :=
  match foldl resetPush (Ok ([], [], replicate bucketSize [])) initialData with
  | Throw e => Throw e
  | Ok (st, ents, bs) => Ok (mkHash ty st ents bs None false)
  end.

(** [handleAddEntry], from the click to the end of the animation. *)
Definition handleAddEntry (newKey newValue : string) (h : HashState)
  : Res (HashState * list Notice) :=
  if String.eqb newKey "" ||
     (match hashType h with HMap => String.eqb newValue "" | HSet => false end) ||
     isAnimating h
  then Ok (h, [])
  else if existsb (fun r => String.eqb (key (store h !!! r)) newKey) (entries h)
  then Ok (h, [DuplicateKey newKey])
  else
    let newEntry := length (store h) in
    let st1 := store h ++
      [mkEntry newKey (match hashType h with HMap => VString newValue | HSet => VBool true end)
               HActive] in
    let bucketIndex := hashFunction newKey in
    match buckets h !! bucketIndex with
    | None => Throw TypeError
    | Some b =>
        let b' := b ++ [newEntry] in
        let st2 := if 1 <? length b' then markAll HCollision b' st1 else st1 in
        (* after the animation delay *)
        let '(st3, fresh) := copyAll (fun _ => occupancy (length b')) b' st2 in
        Ok (mkHash (hashType h) st3 (entries h ++ [newEntry])
                   (<[bucketIndex := fresh]> (buckets h)) (Some newKey) false, [])
    end.

(** [handleRemoveEntry], from the click to the end of the animation. *)
Definition handleRemoveEntry (keyToRemove : string) (h : HashState)
  : Res (HashState * list Notice) :=
  if isAnimating h then Ok (h, [])
  else
    match findIndex (store h) keyToRemove (entries h) with
    | None => Ok (h, [])
    | Some entryIndex =>
        let bucketIndex := hashFunction keyToRemove in
        match buckets h !! bucketIndex with
        | None => Throw TypeError
        | Some b =>
            let st1 :=
              match findIndex (store h) keyToRemove b with
              | Some entryInBucketIndex =>
                  let sta := alter (with_status HDeleted) (b !!! entryInBucketIndex) (store h) in
                  alter (with_status HDeleted) (entries h !!! entryIndex) sta
              | None => store h
              end in
            (* after the animation delay *)
            let b' := dropKey st1 keyToRemove b in
            let st2 := if length b' <=? 1 then markAll HDefault b' st1 else st1 in
            Ok (mkHash (hashType h) st2 (dropKey st2 keyToRemove (entries h))
                       (<[bucketIndex := b']> (buckets h)) None false, [])
        end
    end.

(** [handleSearch], from the click to the end of the animation. *)
Definition handleSearch (searchKey : string) (h : HashState)
  : Res (HashState * list Notice) :=
  if String.eqb searchKey "" || isAnimating h then Ok (h, [])
  else
    let bucketIndex := hashFunction searchKey in
    let st1 := foldl (fun st b => markAll (occupancy (length b)) b st)
                     (store h) (buckets h) in
    match buckets h !! bucketIndex with
    | None => Throw TypeError
    | Some b =>
        let '(st2, act) := copyAll (fun _ => HActive) b st1 in
        (* after the animation delay *)
        match findIndex st2 searchKey act with
        | Some foundEntryIndex =>
            let '(st3, fin) :=
              copyAll (fun idx => if idx =? foundEntryIndex then HActive
                                  else occupancy (length act)) act st2 in
            Ok (mkHash (hashType h) st3 (entries h)
                       (<[bucketIndex := fin]> (buckets h)) (Some searchKey) false,
                [FoundIn searchKey bucketIndex])
        | None =>
            let '(st3, fin) := copyAll (fun _ => occupancy (length act)) act st2 in
            Ok (mkHash (hashType h) st3 (entries h)
                       (<[bucketIndex := fin]> (buckets h)) (selectedEntry h) false,
                [NotFound searchKey])
        end
    end.

(** The buckets as the renderer sees them. *)
End hash.

(** The buckets as the renderer sees them. *)
Definition readBucket (st : list HashTableEntry) (b : list nat) : list HashTableEntry :=
  (fun r => st !!! r) <$> b.

Definition bucketView (h : HashState) : list (list HashTableEntry) :=
  readBucket (store h) <$> buckets h.

(** [ents.some(entry => buckets[hashFunction(entry.key)].length > 1)]:
    reading [length] of a missing bucket throws. *)
Fixpoint someCollides (bucketSize : nat) (st : list HashTableEntry)
    (bs : list (list nat)) (ents : list nat) : Res bool :=
  match ents with
  | [] => Ok false
  | e :: ents' =>
      match bs !! hashFunction bucketSize (key (st !!! e)) with
      | None => Throw TypeError
      | Some b => if 1 <? length b then Ok true
                  else someCollides bucketSize st bs ents'
      end
  end.

(** The condition under which the "Collisions detected" banner is rendered. *)
Definition collisionsDetected (bucketSize : nat) (h : HashState) : Res bool :=
  someCollides bucketSize (store h) (buckets h) (entries h).

End HashViz.

(** ** Linked-list visualizer *)

Module ListViz.

Inductive NodeStatus :=
  | NDefault | NActive | NSelected | NComparing | NInserted | NDeleted.

(** The [prev] field: absent on singly-linked nodes, otherwise [null] or the
    index of the previous node. *)
Inductive PrevField :=
  | NoPrev
  | Prev (p : option nat).

Record Node := mkNode {
  value : Z;
  status : NodeStatus;
  next : option nat;
  prev : PrevField
}.

#[export] Instance Node_inhabited : Inhabited Node :=
  populate (mkNode 0 NDefault None NoPrev).

Inductive LinkedListType := Singly | Doubly | Circular.

Record ListState := mkList {
  listType : LinkedListType;
  nodes : list Node;
  head : option nat;
  tail : option nat;
  isAnimating : bool
}.

Definition set_status (s : NodeStatus) (n : Node) : Node :=
  mkNode (value n) s (next n) (prev n).
Definition set_next (x : option nat) (n : Node) : Node :=
  mkNode (value n) (status n) x (prev n).
Definition set_prev (x : PrevField) (n : Node) : Node :=
  mkNode (value n) (status n) (next n) x.

(** [arr[i].field = ...]: a [TypeError] when [arr[i]] is [undefined]. *)
Definition update (f : Node -> Node) (i : nat) (l : list Node) : Res (list Node) :=
  match l !! i with
  | Some _ => Ok (alter f i l)
  | None => Throw TypeError
  end.

Definition resetList (ty : LinkedListType) : ListState :=
  let initialNodes :=
    match ty with
    | Singly =>
        [mkNode 10 NDefault (Some 1) NoPrev; mkNode 20 NDefault (Some 2) NoPrev;
         mkNode 30 NDefault (Some 3) NoPrev; mkNode 40 NDefault None NoPrev]
    | Doubly =>
        [mkNode 10 NDefault (Some 1) (Prev None);
         mkNode 20 NDefault (Some 2) (Prev (Some 0));
         mkNode 30 NDefault (Some 3) (Prev (Some 1));
         mkNode 40 NDefault None (Prev (Some 2))]
    | Circular =>
        [mkNode 10 NDefault (Some 1) NoPrev; mkNode 20 NDefault (Some 2) NoPrev;
         mkNode 30 NDefault (Some 3) NoPrev; mkNode 40 NDefault (Some 0) NoPrev]
    end in
  mkList ty initialNodes
         (if 0 <? length initialNodes then Some 0 else None)
         (if 0 <? length initialNodes then Some (length initialNodes - 1) else None)
         false.

(** The index shift applied to every node after a head insertion. *)
Definition shiftUp (n : Node) : Node :=
  mkNode (value n) (status n)
         (match next n with Some k => Some (k + 1) | None => None end)
         (match prev n with
          | Prev (Some k) => Prev (Some (k + 1))
          | other => other
          end).

(** [handleAddToHead]; [newNodeValue] is the parsed input, [None] when the
    input field is empty. *)
Definition handleAddToHead (newNodeValue : option Z) (st : ListState) : Res ListState :=
  match newNodeValue with
  | None => Ok st
  | Some v =>
    if isAnimating st then Ok st
    else
      let newNode :=
        match listType st with
        | Singly | Circular => mkNode v NInserted (head st) NoPrev
        | Doubly => mkNode v NInserted (head st) (Prev None)
        end in
      (* doubly: update the previous pointer of the old head *)
      let relinked :=
        match listType st, head st with
        | Doubly, Some h =>
            update (fun oldHead => match prev oldHead with
                                   | NoPrev => oldHead
                                   | Prev _ => set_prev (Prev (Some 0)) oldHead
                                   end) h (nodes st)
        | _, _ => Ok (nodes st)
        end in
      match relinked with
      | Throw e => Throw e
      | Ok nodes1 =>
          let updatedNodes := newNode :: nodes1 in
          let adjustedNodes := shiftUp <$> updatedNodes in
          let closed :=
            match listType st, tail st with
            | Circular, Some t => update (set_next (Some 0)) (t + 1) adjustedNodes
            | _, _ => Ok adjustedNodes
            end in
          match closed with
          | Throw e => Throw e
          | Ok adjusted =>
              (* after the animation delay *)
              match update (set_status NDefault) 0 adjusted with
              | Throw e => Throw e
              | Ok finalNodes =>
                  Ok (mkList (listType st) finalNodes (Some 0)
                             (match tail st with Some t => Some (t + 1) | None => Some 0 end)
                             false)
              end
          end
      end
  end.

(** [handleAddToTail] *)
Definition handleAddToTail (newNodeValue : option Z) (st : ListState) : Res ListState :=
  match newNodeValue with
  | None => Ok st
  | Some v =>
    if isAnimating st then Ok st
    else
      let newNode :=
        match listType st with
        | Singly => mkNode v NInserted None NoPrev
        | Doubly => mkNode v NInserted None (Prev (tail st))
        | Circular => mkNode v NInserted (head st) NoPrev
        end in
      let relinked :=
        match tail st with
        | Some t => update (set_next (Some (length (nodes st)))) t (nodes st)
        | None => Ok (nodes st)
        end in
      match relinked with
      | Throw e => Throw e
      | Ok nodes1 =>
          let updatedNodes := nodes1 ++ [newNode] in
          (* after the animation delay *)
          match update (set_status NDefault) (length updatedNodes - 1) updatedNodes with
          | Throw e => Throw e
          | Ok finalNodes =>
              Ok (mkList (listType st) finalNodes
                         (match head st with None => Some 0 | Some h => Some h end)
                         (Some (length updatedNodes - 1)) false)
          end
      end
  end.

(** [updatedNodes.filter((_, idx) => idx !== i)] *)
Definition removeAt (i : nat) (l : list Node) : list Node := delete i l.

(** The index shift applied to the remaining nodes after removing [removed]. *)
Definition shiftDown (removed : nat) (n : Node) : Node :=
  mkNode (value n) (status n)
         (match next n with
          | Some k => Some (if removed <? k then k - 1 else k)
          | None => None
          end)
         (match prev n with
          | Prev (Some k) => Prev (Some (if removed <? k then k - 1 else k))
          | other => other
          end).

(** [handleRemoveFromHead] *)
Definition handleRemoveFromHead (st : ListState) : Res ListState :=
  match head st with
  | None => Ok st
  | Some h =>
    if isAnimating st then Ok st
    else
      match update (set_status NDeleted) h (nodes st) with
      | Throw e => Throw e
      | Ok updatedNodes =>
          (* after the animation delay *)
          match next (updatedNodes !!! h) with
          | Some newHead =>
              let relinked :=
                match listType st with
                | Doubly =>
                    update (fun nextNode => match prev nextNode with
                                            | NoPrev => nextNode
                                            | Prev _ => set_prev (Prev None) nextNode
                                            end) newHead updatedNodes
                | _ => Ok updatedNodes
                end in
              match relinked with
              | Throw e => Throw e
              | Ok nodes1 =>
                  let remainingNodes := removeAt h nodes1 in
                  let adjustedNodes := shiftDown h <$> remainingNodes in
                  let closed :=
                    match listType st, tail st with
                    | Circular, Some t =>
                        update (set_next (Some 0)) (if h <? t then t - 1 else t) adjustedNodes
                    | _, _ => Ok adjustedNodes
                    end in
                  match closed with
                  | Throw e => Throw e
                  | Ok finalNodes =>
                      Ok (mkList (listType st) finalNodes (Some 0)
                            (match tail st with
                             | Some t => if h <? t then Some (t - 1)
                                         else if t =? h then None else Some t
                             | None => None
                             end) false)
                  end
              end
          | None => Ok (mkList (listType st) [] None None false)
          end
      end
  end.

(** The scan for the node whose [next] is the tail. *)
Fixpoint findNewTail (t : nat) (i : nat) (l : list Node) : option nat :=
  match l with
  | [] => None
  | n :: l' =>
      if negb (i =? t) && bool_decide (next n = Some t) then Some i
      else findNewTail t (S i) l'
  end.

(** [handleRemoveFromTail] *)
Definition handleRemoveFromTail (st : ListState) : Res ListState :=
  match tail st with
  | None => Ok st
  | Some t =>
    if isAnimating st then Ok st
    else
      match update (set_status NDeleted) t (nodes st) with
      | Throw e => Throw e
      | Ok updatedNodes =>
          (* after the animation delay *)
          if bool_decide (head st = Some t) then Ok (mkList (listType st) [] None None false)
          else
            let newTail := findNewTail t 0 updatedNodes in
            let remainingNodes := removeAt t updatedNodes in
            let relinked :=
              match newTail with
              | Some nt =>
                  match listType st with
                  | Singly | Doubly => update (set_next None) nt remainingNodes
                  | Circular => update (set_next (head st)) nt remainingNodes
                  end
              | None => Ok remainingNodes
              end in
            match relinked with
            | Throw e => Throw e
            | Ok finalNodes =>
                Ok (mkList (listType st) finalNodes (head st) newTail false)
            end
      end
  end.

(** Index-link consistency of a doubly linked list: the [prev] of the node
    at [next(i)] is [i]. *)
Definition links_consistent (l : list Node) : Prop :=
  forall i n j, l !! i = Some n -> next n = Some j ->
    exists m, l !! j = Some m /\ prev m = Prev (Some i).

End ListViz.

(** ** Binary-tree visualizer *)

Module TreeViz.

Inductive TStatus :=
  | TDefault | TVisiting | TVisited | TInserting | TFound | TRemoving | TCurrent.

(** [BinaryTreeNode]: a tree of owned children.  [value] is the integer that
    [parseInt(String(node.value))] yields.  The [parent] back-reference is
    written but never read by the functions below and is left out. *)
Inductive BinaryTreeNode :=
  | Null
  | TNode (id : string) (value : Z) (status : TStatus)
          (left right : BinaryTreeNode) (height : nat) (balanceFactor : Z).

Definition heightOr0 (n : BinaryTreeNode) : nat :=
  match n with
  | Null => 0
  | TNode _ _ _ _ _ h _ => h
  end.

(** [insertNodeDirectly]; [newId] is the id that [createNodeId()] returns for
    the new leaf. *)
Fixpoint insertNodeDirectly (newId : string) (node : BinaryTreeNode) (v : Z)
  : BinaryTreeNode :=
  match node with
  | Null => TNode newId v TDefault Null Null 1 0
  | TNode i nodeValue s l r h bf =>
      if (v <? nodeValue)%Z then
        let newLeft := insertNodeDirectly newId l v in
        TNode i nodeValue s newLeft r (Nat.max (heightOr0 r) (heightOr0 newLeft) + 1) bf
      else if (nodeValue <? v)%Z then
        let newRight := insertNodeDirectly newId r v in
        TNode i nodeValue s l newRight (Nat.max (heightOr0 l) (heightOr0 newRight) + 1) bf
      else node
  end.

(** The loop [while (successor.left) successor = successor.left] started at
    a node with value [v] and left child [l]: the value of the leftmost node. *)
Fixpoint leftmost (v : Z) (l : BinaryTreeNode) : Z :=
  match l with
  | Null => v
  | TNode _ v' _ l' _ _ _ => leftmost v' l'
  end.

(** [deleteNode] *)
Fixpoint deleteNode (n : BinaryTreeNode) (val : Z) : BinaryTreeNode :=
  match n with
  | Null => Null
  | TNode i nv s l r h bf =>
      if (val <? nv)%Z then TNode i nv s (deleteNode l val) r h bf
      else if (nv <? val)%Z then TNode i nv s l (deleteNode r val) h bf
      else
        match l, r with
        | Null, Null => Null
        | Null, _ => r
        | _, Null => l
        | _, TNode _ rv _ rl _ _ _ =>
            let successor := leftmost rv rl in
            TNode i successor s l (deleteNode r successor) h bf
        end
  end.

(** [resetStatus] *)
Fixpoint resetStatus (n : BinaryTreeNode) : BinaryTreeNode :=
  match n with
  | Null => Null
  | TNode i v _ l r h bf => TNode i v TDefault (resetStatus l) (resetStatus r) h bf
  end.

(** The state update at the end of the delete animation. *)
Definition deleteAndReset (root : BinaryTreeNode) (val : Z) : BinaryTreeNode :=
  resetStatus (deleteNode root val).

(** In-order traversal of the values. *)
Fixpoint inorder (n : BinaryTreeNode) : list Z :=
  match n with
  | Null => []
  | TNode _ v _ l r _ _ => inorder l ++ v :: inorder r
  end.

Definition rootValue (n : BinaryTreeNode) : option Z :=
  match n with
  | Null => None
  | TNode _ v _ _ _ _ _ => Some v
  end.

(** The ordering invariant: left values < node value < right values. *)
Fixpoint bst (n : BinaryTreeNode) : Prop :=
  match n with
  | Null => True
  | TNode _ v _ l r _ _ =>
      bst l /\ bst r /\
      Forall (fun x => (x < v)%Z) (inorder l) /\
      Forall (fun x => (v < x)%Z) (inorder r)
  end.

(** Building a tree by direct insertion of the listed values (ids in order). *)
Definition buildTree (vs : list (string * Z)) : BinaryTreeNode :=
  foldl (fun t iv => insertNodeDirectly iv.1 t iv.2) Null vs.

(** The tree of the delete scenario: 50, 30, 70, 20, 40, 60, 80 inserted in
    this order. *)
Definition scenarioTree : BinaryTreeNode :=
  buildTree [("n50", 50); ("n30", 30); ("n70", 70); ("n20", 20);
             ("n40", 40); ("n60", 60); ("n80", 80)]%Z%string.

(** [handleInsert(value, false)] as [createRandomTree] calls it.
    [createRandomTree] is a callback without dependencies, so the handler it
    refers to is the one of the first render, whose [root] is [null]: the
    duplicate check [root && valueExists(root, value)] does not fire, and the
    value goes to [insertNodeDirectly] if it lies in the range 1..999.
    [newId] is the id that [createNodeId()] returns. *)
Definition handleInsertDirect (newId : string) (value : Z) (prevRoot : BinaryTreeNode)
  : BinaryTreeNode :=
  if (value <? 1)%Z || (999 <? value)%Z then prevRoot
  else insertNodeDirectly newId prevRoot value.

(** [insertBalanced(arr, start, end)] of [createRandomTree], threading the
    root through the successive [setRoot] updates.  The recursion is on the
    width of the segment, which [fuel] bounds.  [ids v] is the id that
    [createNodeId()] returns when the node for [v] is created. *)
Fixpoint insertBalanced (fuel : nat) (ids : Z -> string) (arr : list Z)
    (start end_ : Z) (root : BinaryTreeNode) : BinaryTreeNode :=
  match fuel with
  | 0 => root
  | S fuel' =>
      if (end_ <? start)%Z then root
      else
        let mid := ((start + end_) / 2)%Z in
        let v := arr !!! Z.to_nat mid in
        let root1 := handleInsertDirect (ids v) v root in
        let root2 := insertBalanced fuel' ids arr start (mid - 1) root1 in
        insertBalanced fuel' ids arr (mid + 1) end_ root2
  end.

(** [createRandomTree] once the random values are drawn: [values] are the
    numbers the loop has collected, [values.sort((a, b) => a - b)] puts them
    in non-decreasing order, and the tree is built from [null]. *)
Definition createRandomTree (ids : Z -> string) (values : list Z) : BinaryTreeNode :=
  let arr := merge_sort Z.le values in
  insertBalanced (length arr) ids arr 0 (Z.of_nat (length arr) - 1) Null.

End TreeViz.

(** ** Specification vocabulary for the binary tree *)

Module TreeSpec.
Import TreeViz.

(** The number of nodes on the longest path from the root to a leaf. *)
Fixpoint depth (n : BinaryTreeNode) : nat :=
  match n with
  | Null => 0
  | TNode _ _ _ l r _ _ => Nat.max (depth l) (depth r) + 1
  end.

(** Every [height] field holds the depth of its subtree. *)
Fixpoint heights_ok (n : BinaryTreeNode) : Prop :=
  match n with
  | Null => True
  | TNode _ _ _ l r h _ =>
      heights_ok l /\ heights_ok r /\ h = Nat.max (depth l) (depth r) + 1
  end.

(** The tree without its [height] fields. *)
Fixpoint shape (n : BinaryTreeNode) : BinaryTreeNode :=
  match n with
  | Null => Null
  | TNode i v s l r _ bf => TNode i v s (shape l) (shape r) 0 bf
  end.

(** The values that [handleInsert] accepts. *)
Definition valid (x : Z) : Prop := (1 <= x <= 999)%Z.

(** The values in the order in which [insertBalanced] inserts them. *)
Fixpoint insertionOrder (fuel : nat) (arr : list Z) (start end_ : Z) : list Z :=
  match fuel with
  | 0 => []
  | S fuel' =>
      if (end_ <? start)%Z then []
      else
        let mid := ((start + end_) / 2)%Z in
        arr !!! Z.to_nat mid ::
          insertionOrder fuel' arr start (mid - 1) ++
          insertionOrder fuel' arr (mid + 1) end_
  end.

(** The tree over a segment of a sorted array whose root is the middle
    element, and so on in both halves. *)
Fixpoint middleTree (fuel : nat) (ids : Z -> string) (arr : list Z) (start end_ : Z)
  : BinaryTreeNode :=
  match fuel with
  | 0 => Null
  | S fuel' =>
      if (end_ <? start)%Z then Null
      else
        let mid := ((start + end_) / 2)%Z in
        let v := arr !!! Z.to_nat mid in
        let l := middleTree fuel' ids arr start (mid - 1) in
        let r := middleTree fuel' ids arr (mid + 1) end_ in
        TNode (ids v) v TDefault l r (Nat.max (depth l) (depth r) + 1) 0
  end.

End TreeSpec.

(** ** Specification vocabulary for the sort recorders *)

Module SortSpec.
Import ArrayViz.

(** The content of [copy], read through the store. *)
Definition live (st : SortState) : list ArrayItem := readStep (objs st) (copy st).

(** [copy] holds pairwise distinct references to allocated objects. *)
Definition wf (st : SortState) : Prop :=
  (forall p q r, copy st !! p = Some r -> copy st !! q = Some r -> p = q) /\
  (forall p r, copy st !! p = Some r -> r < length (objs st)).

(** Weakest precondition over the content of [copy]: from every well-formed
    state whose [copy] reads [l], the computation returns and establishes [Q]. *)
Definition wp {A} (m : M A) (Q : A -> list ArrayItem -> Prop) (l : list ArrayItem) : Prop :=
  forall st, wf st -> live st = l ->
    exists a st', m st = Ok (a, st') /\ wf st' /\ Q a (live st').

(** Exchange of the items at two positions. *)
Definition swapAt {A} `{Inhabited A} (j k : nat) (l : list A) : list A :=
  <[k := l !!! j]> (<[j := l !!! k]> l).

(** Effect of one compare-and-swap of bubble sort on the values. *)
Definition bstep (j : nat) (v : list Z) : list Z :=
  if Z.gtb (v !!! j) (v !!! (j + 1)) then swapAt j (j + 1) v else v.

(** All ordered index pairs whose right index is at least [lo] are in order. *)
Definition ordered_from (lo : nat) (v : list Z) : Prop :=
  forall p q a b, p < q -> lo <= q -> v !! p = Some a -> v !! q = Some b -> (a <= b)%Z.

(** All ordered index pairs whose left index is below [hi] are in order. *)
Definition ordered_upto (hi : nat) (v : list Z) : Prop :=
  forall p q a b, p < q -> p < hi -> v !! p = Some a -> v !! q = Some b -> (a <= b)%Z.

Definition all_sorted (l : list ArrayItem) : Prop :=
  Forall (fun it => status it = SSorted) l.

(** State of one bubble pass over [v0] after the compare-and-swaps at
    positions [0 .. k-1]: the running maximum sits at position [k]. *)
Definition pass_inv (v0 v : list Z) (k : nat) : Prop :=
  length v = length v0 /\ v ≡ₚ v0 /\
  (forall p a b, p < k -> v !! p = Some a -> v !! k = Some b -> (a <= b)%Z) /\
  (forall p, k < p -> v !! p = v0 !! p) /\
  (forall p a, p <= k -> v !! p = Some a -> exists p', p' <= k /\ v0 !! p' = Some a).

(** State of bubble sort on [v0] after [i] passes. *)
Definition outer_inv (v0 v : list Z) (i : nat) : Prop :=
  length v = length v0 /\ v ≡ₚ v0 /\ ordered_from (length v - i) v.

(** Effect of one pass of selection sort at position [i]. *)
Definition sel_step (v v' : list Z) (i : nat) : Prop :=
  length v' = length v /\ v' ≡ₚ v /\
  (forall p, p < i -> v' !! p = v !! p) /\
  (forall q a b, i <= q -> v' !! i = Some a -> v' !! q = Some b -> (a <= b)%Z) /\
  (forall q b, i <= q -> v' !! q = Some b -> exists q', i <= q' /\ v !! q' = Some b).

(** State of selection sort on [v0] after [i] passes. *)
Definition sel_inv (v0 v : list Z) (i : nat) : Prop :=
  length v = length v0 /\ v ≡ₚ v0 /\ ordered_upto i v.

(** The items below position [i] are the same in both lists. *)
Definition agree_below {A} (i : nat) (l l' : list A) : Prop :=
  forall p, p < i -> l' !! p = l !! p.

(** An item as the older visualizer creates it (no [id]). *)
Definition item (v : Z) (s : Status) : ArrayItem := mkItem v s None.

(** The array of the bubble-sort scenario. *)
Definition input312 : list ArrayItem :=
  [item 3 SDefault; item 1 SDefault; item 2 SDefault].

(** The transport position stays within the log and [totalSteps] is the
    last index of the log. *)
Definition transport_ok (p : Player) : Prop :=
  currentStep p <= totalSteps p /\ totalSteps p = length (stepsRef p) - 1.

(** Recorded steps are out of reach of the sort: they hold allocated
    objects that [copy] does not refer to. *)
Definition frozen (st : SortState) : Prop :=
  (forall r, r ∈ copy st -> r < length (objs st)) /\
  (forall step r, step ∈ steps st -> r ∈ step ->
     r < length (objs st) /\ r ∉ copy st).

(** A computation that only appends to the step log: whenever it returns,
    the steps recorded before read exactly as they did. *)
Definition stable {A} (m : M A) : Prop :=
  forall st a st', frozen st -> m st = Ok (a, st') ->
    frozen st' /\ readSteps st `prefix_of` readSteps st'.

(** The step log ends with a snapshot of [copy]. *)
Definition wpl (m : M unit) (Q : list ArrayItem -> Prop) (l : list ArrayItem) : Prop :=
  forall st, wf st -> live st = l ->
    exists st', m st = Ok (tt, st') /\ Q (live st') /\
                last (readSteps st') = Some (live st').




(** A computation that, whenever it returns, has recorded between [lo] and
    [hi] steps. *)
Definition records (lo hi : nat) {A} (m : M A) : Prop :=
  forall st a st', m st = Ok (a, st') ->
    length (steps st) + lo <= length (steps st') <= length (steps st) + hi.

(** The number of compare-and-swaps of a bubble sort of [n] items. *)
Definition comparisons (n : nat) : nat :=
  sum_list_with (fun i => n - i - 1) (seq 0 n).

End SortSpec.

(** ** Specification vocabulary for the hash table *)

Module HashSpec.
Import HashViz.

(** The hash as the specification words it, to be compared with the loop of
    [hashFunction]: [h(key) = (Σ charCode(key[i]) * (i+1)) mod bucketCount]. *)
Definition weightedSum (k : string) : nat :=
  sum_list_with (fun i => charCodeAt k i * (i + 1)) (seq 0 (String.length k)).

Definition hashSpec (bucketCount : nat) (k : string) : nat :=
  weightedSum k `mod` bucketCount.

(** The key occurs in the entry list of the table. *)
Definition present (k : string) (h : HashState) : Prop :=
  exists r, r ∈ entries h /\ key (store h !!! r) = k.

(** Placement: there are [bucketSize] buckets, and every bucket holds
    references to allocated entries whose keys hash to that bucket. *)
Definition table_ok (bucketSize : nat) (h : HashState) : Prop :=
  length (buckets h) = bucketSize /\
  forall i b r, buckets h !! i = Some b -> r ∈ b ->
    r < length (store h) /\ hashFunction bucketSize (key (store h !!! r)) = i.

(** The key occurs in some bucket of the table. *)
Definition in_bucket (k : string) (h : HashState) : Prop :=
  exists i b r, buckets h !! i = Some b /\ r ∈ b /\ key (store h !!! r) = k.

(** The entry list holds references to allocated entries and covers the
    buckets: every key that occurs in a bucket occurs in the entry list. *)
Definition entries_cover (h : HashState) : Prop :=
  (forall e, e ∈ entries h -> e < length (store h)) /\
  (forall k, in_bucket k h -> present k h).

(** Collision bookkeeping: the entries of a bucket with more than one entry
    are all [collision], those of a smaller bucket [default]. *)
Definition collision_ok (h : HashState) : Prop :=
  forall i b r, buckets h !! i = Some b -> r ∈ b ->
    status (store h !!! r) = occupancy (length b).

(** The part of the bookkeeping that concerns full buckets only: the entries
    of a bucket with more than one entry are all [collision]. *)
Definition collisions_marked (h : HashState) : Prop :=
  forall i b r, buckets h !! i = Some b -> r ∈ b -> 1 < length b ->
    status (store h !!! r) = HCollision.

(** Every bucket but bucket [i] is the same list of references in [h'] as in
    [h], and these references read the same entries. *)
Definition bucket_frame (i : nat) (h h' : HashState) : Prop :=
  forall j b, j <> i -> buckets h' !! j = Some b ->
    buckets h !! j = Some b /\ forall r, r ∈ b -> store h' !!! r = store h !!! r.

(** The statuses of one bucket, as rendered. *)
Definition bucketStatuses (h : HashState) (i : nat) : list (string * HStatus) :=
  (fun e => (key e, status e)) <$> default [] (bucketView h !! i).

(** The table right after [resetHashTable] with the default 8 buckets. *)
Definition defaultTable : HashState :=
  Eval vm_compute in
    match resetHashTable 8 HMap with
    | Ok h => h
    | Throw _ => mkHash HMap [] [] [] None false
    end.

(** The entry list as the renderer sees it. *)
Definition entryView (h : HashState) : list HashTableEntry :=
  readBucket (store h) (entries h).

(** What an entry holds besides its status. *)
Definition content (e : HashTableEntry) : string * HValue := (key e, value e).

(** The position of the first entry with key [k]. *)
Fixpoint keyIndex (k : string) (b : list HashTableEntry) : option nat :=
  match b with
  | [] => None
  | e :: b' => if String.eqb (key e) k then Some 0 else S <$> keyIndex k b'
  end.

(** A bucket with every entry marked after the bucket's size. *)
Definition normalise (b : list HashTableEntry) : list HashTableEntry :=
  with_status (occupancy (length b)) <$> b.

(** The rendered buckets after an accepted insert of [e] into bucket [i]. *)
Definition insertView (e : HashTableEntry) (i : nat)
    (view : list (list HashTableEntry)) : list (list HashTableEntry) :=
  alter (fun b => normalise (b ++ [e])) i view.

(** The rendered buckets after the removal of key [k] from bucket [i]. *)
Definition removeView (k : string) (i : nat)
    (view : list (list HashTableEntry)) : list (list HashTableEntry) :=
  alter (fun b => let b' := filter (fun e => key e <> k) b in
                  if length b' <=? 1 then with_status HDefault <$> b' else b') i view.

(** The rendered buckets after a search for [k] in bucket [i]: every bucket
    is marked after its size, and the first entry with key [k], if there is
    one, is [active]. *)
Definition searchView (k : string) (i : nat)
    (view : list (list HashTableEntry)) : list (list HashTableEntry) :=
  alter (fun b => match keyIndex k b with
                  | Some j => alter (with_status HActive) j b
                  | None => b
                  end) i (normalise <$> view).

(** The notice a search for [k] in bucket [i] raises. *)
Definition searchNotice (k : string) (i : nat) (view : list (list HashTableEntry))
  : Notice :=
  match keyIndex k (default [] (view !! i)) with
  | Some _ => FoundIn k i
  | None => NotFound k
  end.

(** The table is sound for [bucketSize] buckets: placement holds and the
    entry list refers to allocated entries. *)
Definition sound (bucketSize : nat) (h : HashState) : Prop :=
  0 < bucketSize /\ table_ok bucketSize h /\
  forall e, e ∈ entries h -> e < length (store h).

(** The entry list and the buckets hold the same keys, each once. *)
Definition keys_agree (h : HashState) : Prop :=
  key <$> entryView h ≡ₚ key <$> concat (bucketView h) /\
  NoDup (key <$> entryView h).

End HashSpec.

(** ** Linked lists as sequences of values *)

Module ListSpec.
Import ListViz.

(** The node at position [i] of a well-linked list of [n] nodes: [next] is
    the following index, and after the last node [null], or [0] in a circular
    list; [prev], on doubly linked nodes only, is the preceding index. *)
Definition chainNode (ty : LinkedListType) (n i : nat) (v : Z) : Node :=
  mkNode v NDefault
    (if S i <? n then Some (S i)
     else match ty with Circular => Some 0 | _ => None end)
    (match ty with
     | Doubly => Prev (match i with 0 => None | S j => Some j end)
     | _ => NoPrev
     end).

Definition chain (ty : LinkedListType) (vs : list Z) : list Node :=
  imap (chainNode ty (length vs)) vs.

(** The idle visualizer state that holds the values [vs] in order. *)
Definition listOf (ty : LinkedListType) (vs : list Z) : ListState :=
  mkList ty (chain ty vs)
         (match vs with [] => None | _ => Some 0 end)
         (match vs with [] => None | _ => Some (length vs - 1) end)
         false.

(** The four buttons of the visualizer; the two insertions read the value
    typed into the input field. *)
Inductive Press :=
  | AddHead (v : Z)
  | AddTail (v : Z)
  | RemoveHead
  | RemoveTail.

Definition press (b : Press) (st : ListState) : Res ListState :=
  match b with
  | AddHead v => handleAddToHead (Some v) st
  | AddTail v => handleAddToTail (Some v) st
  | RemoveHead => handleRemoveFromHead st
  | RemoveTail => handleRemoveFromTail st
  end.

(** A sequence of presses, each one made after the previous handler has
    returned; an exception ends the sequence. *)
Fixpoint presses (bs : list Press) (st : ListState) : Res ListState :=
  match bs with
  | [] => Ok st
  | b :: bs' =>
      match press b st with
      | Ok st' => presses bs' st'
      | Throw e => Throw e
      end
  end.

(** What a press does to a double-ended queue of values. *)
Definition dequeStep (vs : list Z) (b : Press) : list Z :=
  match b with
  | AddHead v => v :: vs
  | AddTail v => vs ++ [v]
  | RemoveHead => List.tl vs
  | RemoveTail => removelast vs
  end.

End ListSpec.

(** * Proofs *)

Section store_facts.
Import ArrayViz SortSpec.

Lemma live_lookup st p :
  live st !! p = (fun r => objs st !!! r) <$> (copy st !! p).
Proof. unfold live, readStep. apply list_lookup_fmap. Qed.

Lemma live_length st : length (live st) = length (copy st).
Proof. unfold live, readStep. apply length_fmap. Qed.

Lemma itemRef_ok st j :
  j < length (copy st) -> exists r, copy st !! j = Some r /\ itemRef j st = Ok (r, st).
Proof.
  intros Hj. destruct (lookup_lt_is_Some_2 _ _ Hj) as [r Hr].
  exists r. split; [done|]. unfold itemRef. by rewrite Hr.
Qed.

Lemma live_total st j r :
  copy st !! j = Some r -> live st !!! j = objs st !!! r.
Proof.
  intros Hr. apply list_lookup_total_correct. rewrite live_lookup, Hr. done.
Qed.

Lemma bind_ok {A B} (m : M A) (f : A -> M B) st a st' :
  m st = Ok (a, st') -> bind m f st = f a st'.
Proof. intros E. unfold bind. by rewrite E. Qed.

Lemma wp_ret {A} (a : A) Q l : Q a l -> wp (ret a) Q l.
Proof. intros HQ st Hwf <-. by exists a, st. Qed.

Lemma wp_bind {A B} (m : M A) (f : A -> M B) Q l :
  wp m (fun a l' => wp (f a) Q l') l -> wp (bind m f) Q l.
Proof.
  intros Hm st Hwf Hl.
  destruct (Hm st Hwf Hl) as (a & st1 & E1 & Hwf1 & Hf).
  destruct (Hf st1 Hwf1 eq_refl) as (b & st2 & E2 & Hwf2 & HQ).
  exists b, st2. by rewrite (bind_ok _ _ _ _ _ E1).
Qed.

Lemma wp_mono {A} (m : M A) (Q Q' : A -> list ArrayItem -> Prop) l :
  wp m Q l -> (forall a l', Q a l' -> Q' a l') -> wp m Q' l.
Proof.
  intros Hm HQ st Hwf Hl.
  destruct (Hm st Hwf Hl) as (a & st1 & E1 & Hwf1 & H1). eauto 10.
Qed.

Lemma wp_when (b : bool) m Q l :
  (b = true -> wp m Q l) -> (b = false -> Q tt l) -> wp (when b m) Q l.
Proof. destruct b; simpl; intros H1 H2; [auto | apply wp_ret; auto]. Qed.

Lemma wp_getValue j Q l :
  j < length l -> Q (value (l !!! j)) l -> wp (getValue j) Q l.
Proof.
  intros Hj HQ st Hwf <-. rewrite live_length in Hj.
  destruct (itemRef_ok st j Hj) as (r & Hr & E).
  exists (value (live st !!! j)), st. split_and!; [|done|done].
  unfold getValue. rewrite (bind_ok _ _ _ _ _ E). by rewrite (live_total _ _ _ Hr).
Qed.

Lemma wp_getStatus j Q l :
  j < length l -> Q (status (l !!! j)) l -> wp (getStatus j) Q l.
Proof.
  intros Hj HQ st Hwf <-. rewrite live_length in Hj.
  destruct (itemRef_ok st j Hj) as (r & Hr & E).
  exists (status (live st !!! j)), st. split_and!; [|done|done].
  unfold getStatus. rewrite (bind_ok _ _ _ _ _ E). by rewrite (live_total _ _ _ Hr).
Qed.

Lemma wp_setStatus j s (Q : unit -> list ArrayItem -> Prop) l :
  j < length l -> Q tt (alter (with_status s) j l) -> wp (setStatus j s) Q l.
Proof.
  intros Hj HQ st [Hinj Hval] <-. rewrite live_length in Hj.
  destruct (itemRef_ok st j Hj) as (r & Hr & E).
  eexists tt, _. split; [unfold setStatus; by rewrite (bind_ok _ _ _ _ _ E)|].
  split.
  - split; simpl; [done|]. intros p r' Hp. rewrite length_alter. eauto.
  - replace (live _) with (alter (with_status s) j (live st)); [done|].
    apply list_eq; intros p. rewrite live_lookup; simpl.
    destruct (decide (p = j)) as [->|Hne].
    + rewrite list_lookup_alter_eq, live_lookup, Hr; simpl.
      by rewrite list_lookup_total_alter_eq by eauto.
    + rewrite list_lookup_alter_ne, live_lookup by done.
      destruct (copy st !! p) as [r'|] eqn:Hp; simpl; [|done].
      rewrite list_lookup_total_alter_ne; [done|].
      intros ->. apply Hne. eauto.
Qed.

Lemma wp_pushShallow (Q : unit -> list ArrayItem -> Prop) l :
  Q tt l -> wp pushShallow Q l.
Proof. intros HQ st Hwf <-. eexists tt, _. split; [done|]. by split. Qed.

Lemma live_app_store st extra :
  wf st -> readStep (objs st ++ extra) (copy st) = live st.
Proof.
  intros [_ Hval]. apply list_eq; intros p.
  unfold live, readStep. rewrite !list_lookup_fmap.
  destruct (copy st !! p) as [r|] eqn:Hp; simpl; [|done].
  by rewrite lookup_total_app_l by eauto.
Qed.

Lemma wp_pushSnapshot (Q : unit -> list ArrayItem -> Prop) l :
  Q tt l -> wp pushSnapshot Q l.
Proof.
  intros HQ st Hwf <-. eexists tt, _. split; [done|].
  split.
  - destruct Hwf as [Hinj Hval]. split; simpl; [done|].
    intros p r Hp. rewrite length_app. specialize (Hval p r Hp). lia.
  - unfold live at 1; simpl. by rewrite live_app_store.
Qed.

Lemma wp_swapFresh j k (Q : unit -> list ArrayItem -> Prop) l :
  j < length l -> k < length l -> j <> k ->
  Q tt (swapAt j k l) -> wp (swapFresh j k) Q l.
Proof.
  intros Hj Hk Hjk HQ st [Hinj Hval] <-. rewrite live_length in Hj, Hk.
  destruct (itemRef_ok st j Hj) as (rj & Hrj & Ej).
  destruct (itemRef_ok st k Hk) as (rk & Hrk & Ek).
  eexists tt, _. split.
  { unfold swapFresh. rewrite (bind_ok _ _ _ _ _ Ej), (bind_ok _ _ _ _ _ Ek). done. }
  assert (Hlook : forall p r,
    <[k := length (objs st)]> (<[j := S (length (objs st))]> (copy st)) !! p = Some r ->
    (p = k /\ r = length (objs st)) \/ (p = j /\ r = S (length (objs st))) \/
    (p <> k /\ p <> j /\ copy st !! p = Some r)).
  { intros p r. rewrite !list_lookup_insert, !length_insert.
    destruct (decide (k = p /\ k < length (copy st))) as [[<- _]|Hnk].
    - intros [= <-]. by left.
    - destruct (decide (j = p /\ j < length (copy st))) as [[<- _]|Hnj].
      + intros [= <-]. right; left. done.
      + intros Hp. right; right. split_and!; [| |done]; intros ->; tauto. }
  split.
  - split; simpl.
    + intros p q r Hp Hq.
      apply Hlook in Hp as [[-> ->]|[[-> ->]|(?&?&Hp)]];
        apply Hlook in Hq as [[-> ?]|[[-> ?]|(?&?&Hq)]]; try done; try lia.
      * apply Hval in Hq. lia.
      * apply Hval in Hq. lia.
      * apply Hval in Hp. lia.
      * apply Hval in Hp. lia.
      * eauto.
    + intros p r Hp. rewrite length_app; simpl.
      apply Hlook in Hp as [[-> ->]|[[-> ->]|(?&?&Hp)]]; try lia.
      apply Hval in Hp. lia.
  - match goal with |- Q tt ?x => replace x with (swapAt j k (live st)); [done|] end.
    apply list_eq; intros p. unfold swapAt.
    rewrite live_lookup; simpl.
    rewrite !list_lookup_insert, !length_insert, !live_length.
    rewrite (live_total _ _ _ Hrj), (live_total _ _ _ Hrk).
    repeat case_decide; simpl; try lia.
    + destruct_and!; subst. by rewrite lookup_total_app_r, Nat.sub_diag by lia.
    + destruct_and!; subst.
      rewrite lookup_total_app_r by lia.
      by replace (S (length (objs st)) - length (objs st)) with 1 by lia.
    + rewrite live_lookup.
      destruct (copy st !! p) as [r|] eqn:Hp; simpl; [|done].
      by rewrite lookup_total_app_l by eauto.
Qed.

End store_facts.

Section loop_rules.
Import ArrayViz SortSpec.

Lemma wp_forEach (I : nat -> list ArrayItem -> Prop) xs body l :
  I 0 l ->
  (forall idx i l', xs !! idx = Some i -> I idx l' ->
     wp (body i) (fun _ l'' => I (S idx) l'') l') ->
  wp (forEach xs body) (fun _ l' => I (length xs) l') l.
Proof.
  revert I l. induction xs as [|x xs IH]; intros I l H0 Hbody; simpl.
  - by apply wp_ret.
  - apply wp_bind. eapply wp_mono; [apply (Hbody 0 x l); done|].
    intros [] l1 H1. apply (IH (fun idx => I (S idx))); [done|].
    intros idx i l' Hi. apply (Hbody (S idx)). done.
Qed.

Lemma wp_forEachAcc {A} (I : nat -> A -> list ArrayItem -> Prop) xs body (a : A) l :
  I 0 a l ->
  (forall idx i a' l', xs !! idx = Some i -> I idx a' l' ->
     wp (body i a') (fun a'' l'' => I (S idx) a'' l'') l') ->
  wp (forEachAcc xs body a) (fun a' l' => I (length xs) a' l') l.
Proof.
  revert I a l. induction xs as [|x xs IH]; intros I a l H0 Hbody; simpl.
  - by apply wp_ret.
  - apply wp_bind. eapply wp_mono; [apply (Hbody 0 x a l); done|].
    intros a1 l1 H1. apply (IH (fun idx => I (S idx))); [done|].
    intros idx i a' l' Hi. apply (Hbody (S idx)). done.
Qed.

End loop_rules.

Section value_facts.
Import ArrayViz SortSpec.

Lemma vals_alter s j (l : list ArrayItem) :
  value <$> alter (with_status s) j l = value <$> l.
Proof.
  revert j. induction l as [|x l IH]; intros [|j]; try done.
  change (value x :: (value <$> alter (with_status s) j l) = value x :: (value <$> l)).
  by rewrite IH.
Qed.

Lemma vals_total (l : list ArrayItem) j :
  j < length l -> value (l !!! j) = (value <$> l) !!! j.
Proof. intros Hj. by rewrite (list_lookup_total_fmap value). Qed.

Lemma vals_swapAt j k (l : list ArrayItem) :
  j < length l -> k < length l ->
  value <$> swapAt j k l = swapAt j k (value <$> l).
Proof.
  intros Hj Hk. unfold swapAt.
  by rewrite !list_fmap_insert, !vals_total.
Qed.

Lemma swapAt_length {A} `{Inhabited A} j k (l : list A) :
  length (swapAt j k l) = length l.
Proof. unfold swapAt. by rewrite !length_insert. Qed.

Lemma swapAt_perm {A} `{Inhabited A} j k (l : list A) :
  j < length l -> k < length l -> swapAt j k l ≡ₚ l.
Proof.
  intros Hj Hk. unfold swapAt. apply Permutation_insert_swap.
  - by apply list_lookup_lookup_total_lt.
  - by apply list_lookup_lookup_total_lt.
Qed.

Lemma swapAt_lookup {A} `{Inhabited A} j k (l : list A) p :
  j < length l -> k < length l ->
  swapAt j k l !! p =
    if decide (p = k) then l !! j else if decide (p = j) then l !! k else l !! p.
Proof.
  intros Hj Hk. unfold swapAt.
  rewrite !list_lookup_insert, !length_insert.
  repeat case_decide; try lia; subst; try done.
  all: by rewrite list_lookup_lookup_total_lt.
Qed.

Lemma status_alter_lookup s j (l : list ArrayItem) p it :
  alter (with_status s) j l !! p = Some it ->
  (p = j /\ status it = s) \/ (p <> j /\ l !! p = Some it).
Proof.
  destruct (decide (p = j)) as [->|Hne].
  - rewrite list_lookup_alter_eq. destruct (l !! j); simpl; [|done].
    intros [= <-]. by left.
  - rewrite list_lookup_alter_ne by done. by right.
Qed.

End value_facts.

Section bubble_values.
Import ArrayViz SortSpec.

Lemma pass_inv_0 v : pass_inv v v 0.
Proof.
  split_and!; try done.
  - intros; lia.
  - intros p a Hp Ha. exists p. done.
Qed.

Lemma pass_inv_step v0 v k :
  pass_inv v0 v k -> S k < length v -> pass_inv v0 (bstep k v) (S k).
Proof.
  intros (Hlen & Hperm & Hmax & Hrest & Hfrom) Hk.
  assert (Ha : v !! k = Some (v !!! k)) by (apply list_lookup_lookup_total_lt; lia).
  assert (Hb : v !! S k = Some (v !!! S k)) by (by apply list_lookup_lookup_total_lt).
  unfold bstep. replace (k + 1) with (S k) by lia.
  rewrite Z.gtb_ltb. destruct (Z.ltb_spec (v !!! S k) (v !!! k)) as [Hlt|Hge].
  - assert (Hlook := fun p => swapAt_lookup k (S k) v p ltac:(lia) Hk).
    split_and!.
    + by rewrite swapAt_length.
    + rewrite swapAt_perm by lia. done.
    + intros p a b Hp. rewrite !Hlook.
      repeat case_decide; try lia; subst.
      * rewrite Ha, Hb. intros [= <-] [= <-]. lia.
      * rewrite Ha. intros Hpa [= <-]. eapply Hmax; [|done..]. lia.
    + intros p Hp. rewrite Hlook. repeat case_decide; try lia.
      apply Hrest. lia.
    + intros p a Hp. rewrite Hlook. repeat case_decide; subst.
      * intros Hka. destruct (Hfrom k a) as (p' & ? & ?); [lia|done|].
        exists p'. split; [lia|done].
      * rewrite Hrest by lia. intros ?. exists (S k). done.
      * intros Hpa. destruct (Hfrom p a) as (p' & ? & ?); [lia|done|].
        exists p'. split; [lia|done].
  - split_and!; try done.
    + intros p a b Hp Hpa. rewrite Hb. intros [= <-].
      destruct (decide (p = k)) as [->|].
      * rewrite Ha in Hpa. injection Hpa as <-. lia.
      * assert (a <= v !!! k)%Z by (eapply Hmax; [|done..]; lia). lia.
    + intros p Hp. apply Hrest. lia.
    + intros p a Hp Hpa. destruct (decide (p = S k)) as [->|].
      * exists (S k). split; [done|]. rewrite <-Hrest by lia. done.
      * destruct (Hfrom p a) as (p' & ? & ?); [lia|done|].
        exists p'. split; [lia|done].
Qed.

Lemma outer_inv_0 v : outer_inv v v 0.
Proof.
  split_and!; try done. intros p q a b Hpq Hq Hp Hqb.
  apply lookup_lt_Some in Hqb. lia.
Qed.

Lemma outer_inv_step v0 v v' i :
  i < length v -> outer_inv v0 v i -> pass_inv v v' (length v - i - 1) ->
  outer_inv v0 v' (S i).
Proof.
  intros Hi (Hlen & Hperm & Hord) (Hlen' & Hperm' & Hmax & Hrest & Hfrom).
  split_and!.
  - congruence.
  - by rewrite Hperm'.
  - intros p q a b Hpq Hq Hpa Hqb. rewrite Hlen' in Hq.
    destruct (decide (q = length v - i - 1)) as [->|Hne].
    + eapply Hmax; [|done..]. lia.
    + rewrite Hrest in Hqb by lia.
      destruct (decide (p <= length v - i - 1)) as [Hple|Hpgt].
      * destruct (Hfrom p a Hple Hpa) as (p' & Hp' & Hp'a).
        eapply (Hord p' q); [lia|lia|done..].
      * rewrite Hrest in Hpa by lia.
        eapply (Hord p q); [lia|lia|done..].
Qed.

Lemma ordered_from_sorted v : ordered_from 0 v -> StronglySorted Z.le v.
Proof.
  induction v as [|x v IH]; intros Hord; constructor.
  - apply IH. intros p q a b Hpq _ Hp Hq.
    apply (Hord (S p) (S q)); [lia|lia|done..].
  - apply Forall_lookup. intros q b Hq.
    apply (Hord 0 (S q)); [lia|lia|done..].
Qed.

End bubble_values.

(** Side conditions on lengths after status writes and swaps. *)
Ltac len :=
  repeat first [rewrite length_alter | rewrite swapAt_length]; lia.

Section bubble_run.
Import ArrayViz SortSpec.

Lemma wp_bubbleInner j l :
  S j < length l ->
  wp (V1.bubbleInner j)
     (fun _ l' => length l' = length l /\ value <$> l' = bstep j (value <$> l)) l.
Proof.
  intros Hj. unfold V1.bubbleInner. replace (j + 1) with (S j) by lia.
  apply wp_bind, wp_setStatus; [lia|].
  apply wp_bind, wp_setStatus; [len|].
  apply wp_bind, wp_pushSnapshot.
  apply wp_bind, wp_getValue; [len|].
  apply wp_bind, wp_getValue; [len|].
  rewrite !vals_total, !vals_alter by len.
  unfold bstep. replace (j + 1) with (S j) by lia.
  destruct (Z.gtb _ _); simpl.
  - apply wp_bind, wp_bind, wp_setStatus; [len|].
    apply wp_bind, wp_setStatus; [len|].
    apply wp_bind, wp_pushSnapshot.
    apply wp_bind, wp_swapFresh; [len|len|lia|].
    apply wp_pushSnapshot.
    apply wp_bind, wp_setStatus; [len|].
    apply wp_setStatus; [len|].
    split; [len|].
    rewrite !vals_alter, vals_swapAt, !vals_alter by len. done.
  - apply wp_bind, wp_ret.
    apply wp_bind, wp_setStatus; [len|].
    apply wp_setStatus; [len|].
    split; [len|]. by rewrite !vals_alter.
Qed.

Lemma wp_bubbleOuter n i l :
  length l = n -> i < n ->
  wp (V1.bubbleOuter n i)
     (fun _ l' => length l' = n /\
                  pass_inv (value <$> l) (value <$> l') (n - i - 1)) l.
Proof.
  intros Hn Hi. unfold V1.bubbleOuter.
  apply wp_bind.
  eapply wp_mono.
  { apply (wp_forEach
      (fun k l' => length l' = n /\ pass_inv (value <$> l) (value <$> l') k)).
    - split; [done|]. apply pass_inv_0.
    - intros idx j l' Hidx [Hlen Hpass].
      apply lookup_seq in Hidx as [-> Hlt]. simpl.
      eapply wp_mono; [apply wp_bubbleInner; lia|].
      intros [] l'' [Hlen'' Hv]. split; [lia|].
      rewrite Hv. apply pass_inv_step; [done|]. rewrite length_fmap. lia. }
  intros [] l1 [Hlen1 Hpass]. rewrite length_seq in Hpass.
  apply wp_bind, wp_setStatus; [lia|].
  apply wp_pushSnapshot.
  split; [len|]. by rewrite vals_alter.
Qed.

Lemma wp_markAllSorted n l :
  length l = n ->
  wp (forEach (seq 0 n) (fun i => setStatus i SSorted))
     (fun _ l' => value <$> l' = value <$> l /\ all_sorted l') l.
Proof.
  intros Hn.
  eapply wp_mono.
  { apply (wp_forEach
      (fun k l' => length l' = n /\ value <$> l' = value <$> l /\
                   forall p it, p < k -> l' !! p = Some it -> status it = SSorted)).
    - split_and!; [done..|]. intros; lia.
    - intros idx j l' Hidx (Hlen & Hv & Hst).
      apply lookup_seq in Hidx as [-> Hlt]. simpl.
      apply wp_setStatus; [lia|].
      split_and!; [len|by rewrite vals_alter|].
      intros p it Hp [[_ ?]|[? Hit]]%status_alter_lookup; [done|].
      apply (Hst p); [lia|done]. }
  intros [] l' (Hlen & Hv & Hst). split; [done|].
  apply Forall_lookup. intros p it Hit. apply (Hst p); [|done].
  rewrite length_seq. apply lookup_lt_Some in Hit. lia.
Qed.

Lemma wp_bubblePasses n l :
  length l = n ->
  wp (forEach (seq 0 n) (V1.bubbleOuter n))
     (fun _ l' => length l' = n /\ outer_inv (value <$> l) (value <$> l') n) l.
Proof.
  intros Hn.
  eapply wp_mono.
  { apply (wp_forEach
      (fun i l' => length l' = n /\ outer_inv (value <$> l) (value <$> l') i)).
    - split; [done|]. apply outer_inv_0.
    - intros idx i l' Hidx [Hlen Hout].
      apply lookup_seq in Hidx as [-> Hlt]. simpl.
      eapply wp_mono; [by apply wp_bubbleOuter|].
      intros [] l'' [Hlen'' Hpass]. split; [done|].
      eapply outer_inv_step; [|done|].
      + rewrite length_fmap. lia.
      + by rewrite length_fmap, Hlen. }
  intros [] l' [Hlen Hout]. by rewrite length_seq in Hout.
Qed.

Lemma wpl_pushSnapshot (Q : list ArrayItem -> Prop) l :
  Q l -> wpl pushSnapshot Q l.
Proof.
  intros HQ st Hwf <-. eexists. split; [done|].
  assert (Hlive : live (mkSort (objs st ++ ((fun r => objs st !!! r) <$> copy st))
                    (copy st) (steps st ++ [seq (length (objs st)) (length (copy st))]))
                  = live st) by (unfold live at 1; simpl; by rewrite live_app_store).
  rewrite Hlive. split; [done|].
  unfold readSteps. cbn [objs steps]. rewrite fmap_app.
  change (readStep ?o <$> [?x]) with [readStep o x]. rewrite last_snoc. f_equal.
  apply list_eq; intros p. unfold readStep. rewrite list_lookup_fmap, live_lookup.
  destruct (decide (p < length (copy st))) as [Hp|Hp].
  - rewrite lookup_seq_lt by done. simpl.
    rewrite lookup_total_app_r by lia.
    replace (length (objs st) + p - length (objs st)) with p by lia.
    destruct (lookup_lt_is_Some_2 _ _ Hp) as [r Hr]. rewrite Hr. simpl.
    f_equal. apply list_lookup_total_correct. by rewrite list_lookup_fmap, Hr.
  - rewrite lookup_seq_ge by lia. by rewrite lookup_ge_None_2 by lia.
Qed.

Lemma wpl_bind {A} (m : M A) (k : A -> M unit) Q l :
  wp m (fun a l' => wpl (k a) Q l') l -> wpl (bind m k) Q l.
Proof.
  intros Hm st Hwf Hl.
  destruct (Hm st Hwf Hl) as (a & st1 & E1 & Hwf1 & Hk).
  destruct (Hk st1 Hwf1 eq_refl) as (st2 & E2 & HQ).
  exists st2. by rewrite (bind_ok _ _ _ _ _ E1).
Qed.

Lemma wpl_bubbleSortM n l :
  length l = n ->
  wpl (V1.bubbleSortM n)
      (fun l' => value <$> l' ≡ₚ value <$> l /\
                 StronglySorted Z.le (value <$> l') /\ all_sorted l') l.
Proof.
  intros Hn. unfold V1.bubbleSortM.
  apply wpl_bind, wp_pushShallow.
  apply wpl_bind. eapply wp_mono; [by apply wp_bubblePasses|].
  intros [] l1 [Hlen1 (Hlenv & Hperm & Hord)].
  apply wpl_bind. eapply wp_mono; [by apply wp_markAllSorted|].
  intros [] l2 [Hv2 Hst]. apply wpl_pushSnapshot.
  rewrite Hv2. split_and!; [done| |done].
  apply ordered_from_sorted.
  by rewrite length_fmap, Hlen1, Nat.sub_diag in Hord.
Qed.

End bubble_run.

Section selection_values.
Import ArrayViz SortSpec.

Lemma sel_step_swap v i m :
  i <= m -> m < length v ->
  (forall q b, i <= q -> v !! q = Some b -> (v !!! m <= b)%Z) ->
  sel_step v (if decide (m = i) then v else swapAt i m v) i.
Proof.
  intros Him Hm Hmin.
  assert (Hvm : v !! m = Some (v !!! m)) by (by apply list_lookup_lookup_total_lt).
  case_decide as Hmi.
  - subst m. split_and!; try done.
    + intros q a b Hq Hi Hb. rewrite Hvm in Hi. injection Hi as <-. eauto.
    + intros q b Hq Hb. by exists q.
  - assert (Hlook := fun p => swapAt_lookup i m v p ltac:(lia) Hm).
    split_and!.
    + by rewrite swapAt_length.
    + apply swapAt_perm; lia.
    + intros p Hp. rewrite Hlook. repeat case_decide; try lia. done.
    + intros q a b Hq. rewrite !Hlook. rewrite (decide_False (P := i = m)) by lia.
      rewrite decide_True by done. rewrite Hvm. intros [= <-].
      repeat case_decide; subst; intros Hb;
        first [eapply Hmin; [|exact Hb]; lia | simplify_eq; lia].
    + intros q b Hq. rewrite Hlook. repeat case_decide; subst; intros Hb.
      * exists i. done.
      * exists m. done.
      * exists q. done.
Qed.

Lemma sel_inv_0 v : sel_inv v v 0.
Proof. split_and!; try done. intros p q a b Hpq Hp. lia. Qed.

Lemma sel_inv_step v0 v v' i :
  sel_inv v0 v i -> sel_step v v' i -> sel_inv v0 v' (S i).
Proof.
  intros (Hlen & Hperm & Hord) (Hlen' & Hperm' & Hlow & Hmin & Hfrom).
  split_and!.
  - congruence.
  - by rewrite Hperm'.
  - intros p q a b Hpq Hp Hpa Hqb.
    destruct (decide (p = i)) as [->|Hne].
    + apply (Hmin q); [lia|done..].
    + rewrite Hlow in Hpa by lia.
      destruct (decide (q < i)) as [Hq|Hq].
      * rewrite Hlow in Hqb by lia. apply (Hord p q); [lia|lia|done..].
      * destruct (Hfrom q b) as (q' & Hq' & Hq'b); [lia|done|].
        apply (Hord p q'); [lia|lia|done..].
Qed.

Lemma ordered_upto_sorted v :
  ordered_upto (length v - 1) v -> StronglySorted Z.le v.
Proof.
  intros Hord. apply ordered_from_sorted.
  intros p q a b Hpq _ Hp Hq. apply (Hord p q); [done| |done..].
  apply lookup_lt_Some in Hq. lia.
Qed.

Lemma agree_below_refl {A} i (l : list A) : agree_below i l l.
Proof. by intros p Hp. Qed.

Lemma agree_below_trans {A} i (l1 l2 l3 : list A) :
  agree_below i l1 l2 -> agree_below i l2 l3 -> agree_below i l1 l3.
Proof. intros H1 H2 p Hp. by rewrite H2, H1. Qed.

Lemma agree_below_alter {A} (f : A -> A) i j (l l' : list A) :
  i <= j -> agree_below i l l' -> agree_below i l (alter f j l').
Proof. intros Hij H p Hp. rewrite list_lookup_alter_ne by lia. by apply H. Qed.

Lemma agree_below_swapAt {A} `{Inhabited A} i j k (l l' : list A) :
  i <= j -> i <= k -> j < length l' -> k < length l' ->
  agree_below i l l' -> agree_below i l (swapAt j k l').
Proof.
  intros Hij Hik Hj Hk Hag p Hp. rewrite swapAt_lookup by done.
  repeat case_decide; try lia. by apply Hag.
Qed.

End selection_values.

Section selection_run.
Import ArrayViz SortSpec.

Local Ltac below :=
  repeat first
    [ apply agree_below_refl
    | apply agree_below_alter; [lia|]
    | apply agree_below_swapAt; [lia|lia|len|len|] ].

Lemma wp_selectionInner i j m l :
  i <= m -> m < j -> j < length l ->
  wp (V1.selectionInner i j m)
     (fun m' l' =>
        length l' = length l /\ value <$> l' = value <$> l /\ agree_below i l l' /\
        m' = if Z.ltb ((value <$> l) !!! j) ((value <$> l) !!! m) then j else m) l.
Proof.
  intros Him Hmj Hj. unfold V1.selectionInner.
  apply wp_bind, wp_setStatus; [lia|].
  apply wp_bind, wp_pushSnapshot.
  apply wp_bind, wp_getValue; [len|].
  apply wp_bind, wp_getValue; [len|].
  rewrite !vals_total, !vals_alter by len.
  destruct (Z.ltb _ _).
  - apply wp_bind, wp_bind, wp_when; intros _.
    + apply wp_setStatus; [len|].
      apply wp_ret, wp_bind, wp_pushSnapshot, wp_ret.
      split_and!; [len|by rewrite !vals_alter|below|done].
    + apply wp_ret, wp_bind, wp_pushSnapshot, wp_ret.
      split_and!; [len|by rewrite !vals_alter|below|done].
  - apply wp_bind, wp_bind, wp_setStatus; [len|].
    apply wp_ret, wp_bind, wp_pushSnapshot, wp_ret.
    split_and!; [len|by rewrite !vals_alter|below|done].
Qed.

Lemma wp_selectionScan n i l :
  length l = n -> S i < n ->
  wp (forEachAcc (seq (i + 1) (n - (i + 1))) (V1.selectionInner i) i)
     (fun m l' =>
        length l' = n /\ value <$> l' = value <$> l /\ agree_below i l l' /\
        i <= m < n /\
        forall q b, i <= q -> (value <$> l) !! q = Some b ->
                    ((value <$> l) !!! m <= b)%Z) l.
Proof.
  intros Hn Hi.
  eapply wp_mono.
  { apply (wp_forEachAcc
      (fun k m l' =>
         length l' = n /\ value <$> l' = value <$> l /\ agree_below i l l' /\
         i <= m < i + 1 + k /\
         forall q b, i <= q < i + 1 + k -> (value <$> l) !! q = Some b ->
                     ((value <$> l) !!! m <= b)%Z)).
    - split_and!; [done|done|apply agree_below_refl|lia|lia|].
      intros q b Hq Hb. replace q with i in * by lia.
      apply list_lookup_total_correct in Hb. lia.
    - intros idx j m l' Hidx (Hlen & Hv & Hag & Hm & Hmin).
      apply lookup_seq in Hidx as [-> Hlt].
      eapply wp_mono; [apply wp_selectionInner; lia|].
      intros m' l'' (Hlen'' & Hv'' & Hag'' & ->). rewrite Hv.
      assert (Hj : (value <$> l) !! (i + 1 + idx) = Some ((value <$> l) !!! (i + 1 + idx))).
      { apply list_lookup_lookup_total_lt. rewrite length_fmap. lia. }
      split_and!; [lia|congruence|by eapply agree_below_trans| | |].
      + destruct (Z.ltb _ _); lia.
      + destruct (Z.ltb _ _); lia.
      + intros q b Hq Hb.
        destruct (Z.ltb_spec ((value <$> l) !!! (i + 1 + idx)) ((value <$> l) !!! m)).
        * destruct (decide (q = i + 1 + idx)) as [->|].
          -- apply list_lookup_total_correct in Hb. lia.
          -- assert ((value <$> l) !!! m <= b)%Z by (apply (Hmin q); [lia|done]). lia.
        * destruct (decide (q = i + 1 + idx)) as [->|].
          -- apply list_lookup_total_correct in Hb. lia.
          -- apply (Hmin q); [lia|done]. }
  intros m l' (Hlen & Hv & Hag & Hm & Hmin). rewrite length_seq in Hm, Hmin.
  split_and!; [done|done|done|lia|lia|].
  intros q b Hq Hb. apply (Hmin q); [|done].
  apply lookup_lt_Some in Hb. rewrite length_fmap in Hb. lia.
Qed.

Lemma wp_selectionOuter n i l :
  length l = n -> S i < n ->
  wp (V1.selectionOuter n i)
     (fun _ l' =>
        length l' = n /\ sel_step (value <$> l) (value <$> l') i /\
        agree_below i l l' /\
        forall it, l' !! i = Some it -> status it = SSorted) l.
Proof.
  intros Hn Hi. unfold V1.selectionOuter.
  apply wp_bind, wp_setStatus; [lia|].
  apply wp_bind, wp_pushSnapshot.
  apply wp_bind. eapply wp_mono; [apply (wp_selectionScan n); [len|lia]|].
  intros m l1 (Hlen1 & Hv1 & Hag1 & Hm & Hmin). rewrite vals_alter in Hv1, Hmin.
  assert (Hstep := sel_step_swap (value <$> l) i m ltac:(lia)
                     ltac:(rewrite length_fmap; lia) Hmin).
  apply agree_below_alter with (f := with_status SComparing) (j := i) in Hag1 as Hag;
    [|lia].
  destruct (Nat.eqb_spec m i) as [->|Hmi]; simpl.
  - rewrite decide_True in Hstep by done.
    apply wp_bind, wp_ret.
    apply wp_bind, wp_setStatus; [lia|].
    apply wp_bind, wp_ret.
    apply wp_pushSnapshot.
    split_and!; [len|by rewrite vals_alter, Hv1| |].
    + intros p Hp. rewrite list_lookup_alter_ne by lia.
      rewrite Hag1 by done. by rewrite list_lookup_alter_ne by lia.
    + by intros it [[_ ?]|[? _]]%status_alter_lookup.
  - rewrite decide_False in Hstep by done.
    apply wp_bind, wp_bind, wp_setStatus; [lia|].
    apply wp_bind, wp_setStatus; [len|].
    apply wp_bind, wp_pushSnapshot.
    apply wp_bind, wp_swapFresh; [len|len|lia|].
    apply wp_pushSnapshot.
    apply wp_bind, wp_setStatus; [len|].
    apply wp_bind, wp_setStatus; [len|].
    apply wp_pushSnapshot.
    split_and!; [len| | |].
    + by rewrite !vals_alter, vals_swapAt, !vals_alter, Hv1 by len.
    + intros p Hp. rewrite !list_lookup_alter_ne by lia.
      rewrite swapAt_lookup by len. repeat case_decide; try lia.
      rewrite !list_lookup_alter_ne by lia.
      rewrite Hag1 by done. by rewrite list_lookup_alter_ne by lia.
    + rewrite list_lookup_alter_ne by done.
      by intros it [[_ ?]|[? _]]%status_alter_lookup.
Qed.

End selection_run.

Section sort_results.
Import ArrayViz SortSpec.

Lemma wp_selectionPasses n l :
  length l = n ->
  wp (forEach (seq 0 (n - 1)) (V1.selectionOuter n))
     (fun _ l' =>
        length l' = n /\ sel_inv (value <$> l) (value <$> l') (n - 1) /\
        forall p it, p < n - 1 -> l' !! p = Some it -> status it = SSorted) l.
Proof.
  intros Hn.
  eapply wp_mono.
  { apply (wp_forEach
      (fun i l' =>
         length l' = n /\ sel_inv (value <$> l) (value <$> l') i /\
         forall p it, p < i -> l' !! p = Some it -> status it = SSorted)).
    - split_and!; [done|apply sel_inv_0|]. intros; lia.
    - intros idx i l' Hidx (Hlen & Hinv & Hst).
      apply lookup_seq in Hidx as [-> Hlt]. simpl.
      eapply wp_mono; [apply wp_selectionOuter; [done|lia]|].
      intros [] l'' (Hlen'' & Hstep & Hag & Hi).
      split_and!; [done|by eapply sel_inv_step|].
      intros p it Hp Hit. destruct (decide (p = idx)) as [->|].
      + by apply Hi.
      + rewrite Hag in Hit by lia. apply (Hst p); [lia|done]. }
  intros [] l' H. by rewrite length_seq in H.
Qed.

Lemma wpl_selectionSortM n l :
  length l = n -> 0 < n ->
  wpl (V1.selectionSortM n)
      (fun l' => value <$> l' ≡ₚ value <$> l /\
                 StronglySorted Z.le (value <$> l') /\ all_sorted l') l.
Proof.
  intros Hn Hpos. unfold V1.selectionSortM.
  apply wpl_bind, wp_pushShallow.
  apply wpl_bind. eapply wp_mono; [by apply wp_selectionPasses|].
  intros [] l1 (Hlen1 & (Hlenv & Hperm & Hord) & Hst).
  unfold setStatusZ. rewrite (proj2 (Z.ltb_ge _ _)) by lia.
  replace (Z.to_nat (Z.of_nat n - 1)) with (n - 1) by lia.
  apply wpl_bind, wp_setStatus; [lia|].
  apply wpl_pushSnapshot. rewrite vals_alter.
  split_and!; [done| |].
  - apply ordered_upto_sorted. by rewrite length_fmap, Hlen1.
  - apply Forall_lookup. intros p it [[_ ?]|[Hne Hit]]%status_alter_lookup; [done|].
    apply (Hst p); [|done]. apply lookup_lt_Some in Hit. lia.
Qed.

Lemma initState_wf array : wf (V1.initState array).
Proof.
  split; simpl.
  - intros p q r [-> _]%lookup_seq [? _]%lookup_seq. lia.
  - intros p r [-> ?]%lookup_seq. rewrite length_fmap. lia.
Qed.

Lemma initState_live array :
  live (V1.initState array) = (fun it => mkItem (value it) SDefault None) <$> array.
Proof.
  apply list_eq; intros p. rewrite live_lookup; simpl.
  rewrite list_lookup_fmap.
  destruct (array !! p) as [it|] eqn:Hp.
  - rewrite lookup_seq_lt by (by apply lookup_lt_Some in Hp). simpl. f_equal.
    apply list_lookup_total_correct. by rewrite list_lookup_fmap, Hp.
  - rewrite lookup_seq_ge; [done|]. by apply lookup_ge_None.
Qed.

Lemma initState_values array :
  value <$> live (V1.initState array) = value <$> array.
Proof. rewrite initState_live, <-list_fmap_compose. done. Qed.

Lemma initState_length array :
  length (live (V1.initState array)) = length array.
Proof. by rewrite initState_live, length_fmap. Qed.

(** A sort that satisfies [wpl] returns a log whose last step has the
    stated property. *)
Lemma runSort_last m Q init :
  wf init -> wpl m Q (live init) ->
  exists log final,
    runSort m init = Ok log /\ last log = Some final /\ Q final.
Proof.
  intros Hwf Hm. destruct (Hm _ Hwf eq_refl) as (st' & E & HQ & Hlast).
  exists (readSteps st'), (live st'). unfold runSort. by rewrite E.
Qed.

(** Bubble sort: the last step is the sorted permutation of the input, all
    items marked [sorted]. *)
Lemma bubbleSort_last array :
  exists log final,
    V1.bubbleSort array = Ok log /\ last log = Some final /\
    value <$> final ≡ₚ value <$> array /\
    StronglySorted Z.le (value <$> final) /\ all_sorted final.
Proof.
  destruct (runSort_last (V1.bubbleSortM (length array)) _ _ (initState_wf array)
              (wpl_bubbleSortM _ _ (initState_length array)))
    as (log & final & E & Hlast & HQ).
  exists log, final. by rewrite initState_values in HQ.
Qed.

(** Selection sort on a non-empty array. *)
Lemma selectionSort_last array :
  array <> [] ->
  exists log final,
    V1.selectionSort array = Ok log /\ last log = Some final /\
    value <$> final ≡ₚ value <$> array /\
    StronglySorted Z.le (value <$> final) /\ all_sorted final.
Proof.
  intros Hne.
  assert (0 < length array) by (destruct array; [done|simpl; lia]).
  destruct (runSort_last (V1.selectionSortM (length array)) _ _ (initState_wf array)
              (wpl_selectionSortM _ _ (initState_length array) ltac:(done)))
    as (log & final & E & Hlast & HQ).
  exists log, final. by rewrite initState_values in HQ.
Qed.

End sort_results.



(** ** The current visualizer: independent snapshots *)

Section stable_log.
Import ArrayViz SortSpec.

Lemma stable_ret {A} (a : A) : stable (ret a).
Proof. intros st a' st' Hf [= <- <-]. done. Qed.

Lemma stable_bind {A B} (m : M A) (f : A -> M B) :
  stable m -> (forall a, stable (f a)) -> stable (bind m f).
Proof.
  intros Hm Hf st b st' Hfr. unfold bind.
  destruct (m st) as [[a st1]|] eqn:E1; [|done]. intros E2.
  destruct (Hm _ _ _ Hfr E1) as [Hfr1 Hp1].
  destruct (Hf a _ _ _ Hfr1 E2) as [Hfr2 Hp2].
  split; [done|]. by etrans.
Qed.

Lemma stable_when b m : stable m -> stable (when b m).
Proof. destruct b; [done|]. intros _. apply stable_ret. Qed.

Lemma stable_forEach xs body :
  (forall i, stable (body i)) -> stable (forEach xs body).
Proof.
  intros Hbody. induction xs as [|x xs IH]; simpl.
  - apply stable_ret.
  - apply stable_bind; [apply Hbody|]. intros _. exact IH.
Qed.

Lemma stable_reader {A} (g : nat -> SortState -> A) j :
  stable (bind (itemRef j) (fun r st => Ok (g r st, st))).
Proof.
  intros st a st' Hfr. unfold bind, itemRef.
  destruct (copy st !! j); [|done]. by intros [= <- <-].
Qed.

Lemma readStep_alter f r o step :
  r ∉ step -> readStep (alter f r o) step = readStep o step.
Proof.
  intros Hr. unfold readStep. apply list_fmap_ext. intros i r' Hi.
  apply list_lookup_total_alter_ne. intros ->.
  apply Hr. by eapply list_elem_of_lookup_2.
Qed.

Lemma readStep_app o extra step :
  (forall r, r ∈ step -> r < length o) -> readStep (o ++ extra) step = readStep o step.
Proof.
  intros Hr. unfold readStep. apply list_fmap_ext. intros i r' Hi.
  apply lookup_total_app_l, Hr. by eapply list_elem_of_lookup_2.
Qed.

Lemma readSteps_ext o o' (ss : list (list nat)) :
  (forall step, step ∈ ss -> readStep o' step = readStep o step) ->
  readStep o' <$> ss = readStep o <$> ss.
Proof.
  intros H. apply list_fmap_ext. intros i step Hi.
  apply H. by eapply list_elem_of_lookup_2.
Qed.

Lemma stable_setStatus j s : stable (setStatus j s).
Proof.
  intros st a st' [Hval Hfr]. unfold setStatus, bind, itemRef.
  destruct (copy st !! j) as [r|] eqn:Hr; [|done]. intros [= <- <-].
  split.
  - split; simpl.
    + intros r' Hr'. rewrite length_alter. auto.
    + intros step r' Hstep Hr'. rewrite length_alter. by apply (Hfr step).
  - unfold readSteps; simpl.
    rewrite (readSteps_ext (objs st) (alter (with_status s) r (objs st))); [done|].
    intros step Hstep. apply readStep_alter. intros Hin.
    destruct (Hfr step r Hstep Hin) as [_ Hn]. apply Hn.
    by eapply list_elem_of_lookup_2.
Qed.

Lemma stable_pushSnapshot : stable pushSnapshot.
Proof.
  intros st a st' [Hval Hfr]. unfold pushSnapshot. intros [= <- <-].
  split.
  - split; simpl.
    + intros r Hr. rewrite length_app. apply Hval in Hr. lia.
    + intros step r [Hstep| ->%list_elem_of_singleton]%elem_of_app Hr.
      * destruct (Hfr step r Hstep Hr). rewrite length_app. split; [lia|done].
      * apply list_elem_of_lookup in Hr as [i [-> Hi]%lookup_seq].
        rewrite length_app, length_fmap. split; [lia|].
        intros Hin. apply Hval in Hin. lia.
  - unfold readSteps; simpl. rewrite fmap_app.
    rewrite (readSteps_ext (objs st) (objs st ++ _) (steps st));
      [by apply prefix_app_r|].
    intros step Hstep. apply readStep_app. intros r Hr. by apply (Hfr step).
Qed.

Lemma stable_swapFresh j k : stable (swapFresh j k).
Proof.
  intros st a st' [Hval Hfr]. unfold swapFresh, bind, itemRef.
  destruct (copy st !! j) as [rj|]; [|done].
  destruct (copy st !! k) as [rk|]; [|done]. intros [= <- <-].
  assert (Hcopy : forall r,
    r ∈ <[k := length (objs st)]> (<[j := S (length (objs st))]> (copy st)) ->
    r = length (objs st) \/ r = S (length (objs st)) \/ r ∈ copy st).
  { intros r [i Hi]%list_elem_of_lookup.
    apply list_lookup_insert_Some in Hi as [(_ & <- & _)|[_ Hi]]; [by left|].
    apply list_lookup_insert_Some in Hi as [(_ & <- & _)|[_ Hi]]; [by right; left|].
    right; right. by eapply list_elem_of_lookup_2. }
  split.
  - split; simpl.
    + intros r Hr. rewrite length_app. simpl.
      destruct (Hcopy r Hr) as [->|[->|Hin]]; [lia|lia|]. apply Hval in Hin. lia.
    + intros step r Hstep Hr. destruct (Hfr step r Hstep Hr) as [Hlt Hn].
      rewrite length_app. split; [lia|].
      intros Hin. destruct (Hcopy r Hin) as [->|[->|Hin']]; [lia|lia|done].
  - unfold readSteps; simpl.
    rewrite (readSteps_ext (objs st) (objs st ++ _) (steps st)); [done|].
    intros step Hstep. apply readStep_app. intros r Hr. by apply (Hfr step).
Qed.

Local Ltac stab :=
  repeat first
    [ apply stable_setStatus | apply stable_pushSnapshot | apply stable_swapFresh
    | apply stable_ret | apply stable_reader
    | apply stable_when | apply stable_forEach; intros ?
    | apply stable_bind; [|intros ?]
    | match goal with |- stable (if ?b then _ else _) => destruct b end ].

Lemma stable_V2_bubbleInner n i j : stable (V2.bubbleInner n i j).
Proof. unfold V2.bubbleInner, V2.resetUnlessSorted, getStatus, getValue. stab. Qed.

Lemma stable_V2_rest n :
  stable (forEach (seq 0 n)
            (fun i => forEach (seq 0 (n - i - 1)) (V2.bubbleInner n i)) ;;;
          forEach (seq 0 n) (fun i => setStatus i SSorted) ;;;
          pushSnapshot).
Proof.
  apply stable_bind; [|intros ?; apply stable_bind; [|intros ?]].
  - apply stable_forEach; intros i. apply stable_forEach; intros j.
    apply stable_V2_bubbleInner.
  - apply stable_forEach; intros i. apply stable_setStatus.
  - apply stable_pushSnapshot.
Qed.

Lemma wp_resetUnlessSorted j l :
  j < length l ->
  wp (V2.resetUnlessSorted j)
     (fun _ l' => length l' = length l /\ value <$> l' = value <$> l) l.
Proof.
  intros Hj. unfold V2.resetUnlessSorted.
  apply wp_bind, wp_getStatus; [done|].
  apply wp_when; intros _; [|done].
  apply wp_setStatus; [done|]. split; [len|apply vals_alter].
Qed.

Lemma wp_V2_bubbleInner n i j l :
  S j < length l ->
  wp (V2.bubbleInner n i j)
     (fun _ l' => length l' = length l /\ value <$> l' = bstep j (value <$> l)) l.
Proof.
  intros Hj. unfold V2.bubbleInner. replace (j + 1) with (S j) by lia.
  apply wp_bind. eapply wp_mono; [apply wp_resetUnlessSorted; lia|].
  intros [] l1 [Hl1 Hv1].
  apply wp_bind. eapply wp_mono; [apply wp_resetUnlessSorted; lia|].
  intros [] l2 [Hl2 Hv2].
  replace (length l) with (length l2) in * by lia.
  replace (value <$> l) with (value <$> l2) by congruence.
  clear Hv1 Hv2 Hl1 Hl2 l l1.
  assert (Hlast : forall l3, length l3 = length l2 -> 
            wp (if S j =? n - i - 1 then setStatus (S j) SSorted
                else setStatus (S j) SDefault)
               (fun _ l' => length l' = length l2 /\ value <$> l' = value <$> l3) l3).
  { intros l3 Hl3. destruct (S j =? n - i - 1);
      (apply wp_setStatus; [lia|]); (split; [len|apply vals_alter]). }
  apply wp_bind, wp_setStatus; [lia|].
  apply wp_bind, wp_setStatus; [len|].
  apply wp_bind, wp_pushSnapshot.
  apply wp_bind, wp_getValue; [len|].
  apply wp_bind, wp_getValue; [len|].
  rewrite !vals_total, !vals_alter by len.
  unfold bstep. replace (j + 1) with (S j) by lia.
  destruct (Z.gtb _ _); simpl.
  - apply wp_bind, wp_bind, wp_setStatus; [len|].
    apply wp_bind, wp_setStatus; [len|].
    apply wp_bind, wp_pushSnapshot.
    apply wp_bind, wp_swapFresh; [len|len|lia|].
    apply wp_pushSnapshot.
    apply wp_bind, wp_setStatus; [len|].
    eapply wp_mono; [apply Hlast; len|].
    intros [] l' [Hl' Hv']. split; [done|]. rewrite Hv'.
    rewrite !vals_alter, vals_swapAt, !vals_alter by len. done.
  - apply wp_bind, wp_ret.
    apply wp_bind, wp_setStatus; [len|].
    eapply wp_mono; [apply Hlast; len|].
    intros [] l' [Hl' Hv']. split; [done|]. by rewrite Hv', !vals_alter.
Qed.

Lemma wp_V2_bubblePasses n l :
  length l = n ->
  wp (forEach (seq 0 n)
        (fun i => forEach (seq 0 (n - i - 1)) (V2.bubbleInner n i)))
     (fun _ l' => length l' = n /\ outer_inv (value <$> l) (value <$> l') n) l.
Proof.
  intros Hn.
  eapply wp_mono.
  { apply (wp_forEach
      (fun i l' => length l' = n /\ outer_inv (value <$> l) (value <$> l') i)).
    - split; [done|]. apply outer_inv_0.
    - intros idx i l' Hidx [Hlen Hout].
      apply lookup_seq in Hidx as [-> Hlt]. simpl.
      eapply wp_mono.
      { apply (wp_forEach
          (fun k l'' => length l'' = n /\
                        pass_inv (value <$> l') (value <$> l'') k)).
        - split; [done|]. apply pass_inv_0.
        - intros idx' j l'' Hidx' [Hlen'' Hpass].
          apply lookup_seq in Hidx' as [-> Hlt']. simpl.
          eapply wp_mono; [apply wp_V2_bubbleInner; lia|].
          intros [] l3 [Hlen3 Hv3]. split; [lia|].
          rewrite Hv3. apply pass_inv_step; [done|]. rewrite length_fmap. lia. }
      intros [] l'' [Hlen'' Hpass]. rewrite length_seq in Hpass.
      split; [done|]. eapply outer_inv_step; [|done|].
      + rewrite length_fmap. lia.
      + by rewrite length_fmap, Hlen. }
  intros [] l' [Hlen Hout]. by rewrite length_seq in Hout.
Qed.

Lemma wpl_V2_bubbleSortM n l :
  length l = n ->
  wpl (V2.bubbleSortM n)
      (fun l' => value <$> l' ≡ₚ value <$> l /\
                 StronglySorted Z.le (value <$> l') /\ all_sorted l') l.
Proof.
  intros Hn. unfold V2.bubbleSortM.
  apply wpl_bind, wp_pushSnapshot.
  apply wpl_bind. eapply wp_mono; [by apply wp_V2_bubblePasses|].
  intros [] l1 [Hlen1 (Hlenv & Hperm & Hord)].
  apply wpl_bind. eapply wp_mono; [by apply wp_markAllSorted|].
  intros [] l2 [Hv2 Hst]. apply wpl_pushSnapshot.
  rewrite Hv2. split_and!; [done| |done].
  apply ordered_from_sorted.
  by rewrite length_fmap, Hlen1, Nat.sub_diag in Hord.
Qed.

Lemma V2_initState_wf array : wf (V2.initState array).
Proof.
  split; simpl.
  - intros p q r [-> _]%lookup_seq [? _]%lookup_seq. lia.
  - intros p r [-> ?]%lookup_seq. rewrite length_fmap. lia.
Qed.

Lemma V2_initState_live array :
  live (V2.initState array) = (fun it => mkItem (value it) SDefault (id it)) <$> array.
Proof.
  apply list_eq; intros p. rewrite live_lookup; simpl.
  rewrite list_lookup_fmap.
  destruct (array !! p) as [it|] eqn:Hp.
  - rewrite lookup_seq_lt by (by apply lookup_lt_Some in Hp). simpl. f_equal.
    apply list_lookup_total_correct. by rewrite list_lookup_fmap, Hp.
  - rewrite lookup_seq_ge; [done|]. by apply lookup_ge_None.
Qed.

(** The first snapshot of a run reads as the array it was taken from and is
    out of reach of the sort. *)
Lemma first_snapshot st :
  wf st -> steps st = [] ->
  exists st1, pushSnapshot st = Ok (tt, st1) /\ frozen st1 /\
              readSteps st1 = [live st].
Proof.
  intros Hwf Hsteps.
  destruct (wpl_pushSnapshot (fun l' => l' = live st) (live st) eq_refl st Hwf eq_refl)
    as (st1 & E1 & Hlive1 & Hlast1).
  rewrite Hlive1 in Hlast1. clear Hlive1.
  exists st1. split; [done|]. destruct Hwf as [_ Hval].
  unfold pushSnapshot in E1. injection E1 as <-.
  unfold readSteps in *. cbn [objs copy steps] in *. rewrite Hsteps in *.
  split.
  - split; cbn [objs copy steps].
    + intros r [i Hi]%list_elem_of_lookup. rewrite length_app.
      apply Hval in Hi. lia.
    + intros step r ->%list_elem_of_singleton
        [i [-> Hi]%lookup_seq]%list_elem_of_lookup.
      rewrite length_app, length_fmap. split; [lia|].
      intros [i' Hi']%list_elem_of_lookup. apply Hval in Hi'. lia.
  - rewrite app_nil_l in *.
    change (readStep ?o <$> [?x]) with [readStep o x] in *.
    simpl in Hlast1. by injection Hlast1 as ->.
Qed.

(** The bubble sort of the current visualizer: step 0 is the input with all
    statuses [default] and is never altered afterwards; the last step is the
    sorted permutation, all [sorted]. *)
Lemma V2_bubbleSort_log array :
  exists log final,
    V2.bubbleSort array = Ok log /\
    head log = Some ((fun it => mkItem (value it) SDefault (id it)) <$> array) /\
    last log = Some final /\
    value <$> final ≡ₚ value <$> array /\
    StronglySorted Z.le (value <$> final) /\ all_sorted final.
Proof.
  set (init := V2.initState array).
  assert (Hlen : length (live init) = length array).
  { unfold init. by rewrite V2_initState_live, length_fmap. }
  destruct (wpl_V2_bubbleSortM _ _ Hlen init (V2_initState_wf array) eq_refl)
    as (st' & E & (Hperm & Hsorted & Hall) & Hlast).
  exists (readSteps st'), (live st').
  assert (Hvals : value <$> live init = value <$> array).
  { unfold init. rewrite V2_initState_live, <-list_fmap_compose. done. }
  rewrite Hvals in Hperm.
  split_and!; [unfold V2.bubbleSort, runSort; fold init; by rewrite E| |done..].
  destruct (first_snapshot init (V2_initState_wf array) eq_refl)
    as (st1 & E1 & Hfr1 & Hone).
  unfold V2.bubbleSortM in E. rewrite (bind_ok _ _ _ _ _ E1) in E.
  destruct (stable_V2_rest (length array) st1 tt st' Hfr1 E) as [_ [ext Hext]].
  rewrite Hext, Hone. simpl. f_equal. apply V2_initState_live.
Qed.

End stable_log.

(** ** The sort step logs (claims on final step, step 0 and short arrays) *)

Section sort_claims.
Import ArrayViz SortSpec.





(** C5 at the input [3,1,2]: in the older visualizer step 0 shares its
    objects with the working array, and reads [swapping] everywhere once the
    sort has run, not the all-[default] input.  The bubble sort of the
    current visualizer records independent copies: for every input its
    step 0 is the input with all statuses [default], and its last step is
    all [sorted]. *)
Theorem bubbleSort_step0_aliased :
  (exists log,
     V1.bubbleSort input312 = Ok log /\
     head log = Some [item 3 SSwapping; item 1 SSwapping; item 2 SSwapping] /\
     head log <> Some input312) /\
  (forall array, exists log final,
     V2.bubbleSort array = Ok log /\
     head log = Some ((fun it => mkItem (value it) SDefault (id it)) <$> array) /\
     last log = Some final /\ all_sorted final).
Proof.
  split.
  - eexists. split; [vm_compute; reflexivity|].
    split; [reflexivity|discriminate].
  - intros array.
    destruct (V2_bubbleSort_log array) as (log & final & E & Hhead & Hlast & _ & _ & Hall).
    by exists log, final.
Qed.



End sort_claims.

(** ** Step transport *)

Section transport_claims.
Import ArrayViz SortSpec.

(** Both step buttons run the same handler. *)
Lemma step_flag_dropped p : handleStepBackward p = handleStepForward p.
Proof. reflexivity. Qed.

Lemma generateSteps_ok p p' :
  transport_ok p -> generateSteps p = Ok p' ->
  transport_ok p' /\ currentStep p' = currentStep p /\
  length (stepsRef p) - 1 <= length (stepsRef p') - 1.
Proof.
  unfold generateSteps, transport_ok. intros [Hle Htot].
  destruct (Nat.leb_spec (length (stepsRef p)) 1).
  - destruct (getCurrentSortAlgorithm p) as [log|]; [|done].
    intros [= <-]; simpl. lia.
  - intros [= <-]. lia.
Qed.

Lemma stepVisualization_ok p p' :
  transport_ok p -> stepVisualization p = Ok p' ->
  transport_ok p' /\ currentStep p <= currentStep p'.
Proof.
  unfold stepVisualization, lastIndex. intros Hok.
  destruct (isCompleted p); simpl; [by intros [= <-]|].
  destruct (Z.leb_spec (Z.of_nat (length (stepsRef p)) - 1) (Z.of_nat (currentStep p)));
    [by intros [= <-]|].
  destruct (generateSteps p) as [p1|] eqn:Hgen; [|done].
  destruct (generateSteps_ok _ _ Hok Hgen) as ([Hle1 Htot1] & Hcur & Hlen).
  intros [= <-]. unfold transport_ok.
  destruct (Z.eqb _ _); simpl; lia.
Qed.

Lemma animate_ok p :
  transport_ok p -> transport_ok (animate p) /\ currentStep p <= currentStep (animate p).
Proof.
  unfold animate, lastIndex, transport_ok. intros [Hle Htot].
  destruct (isPlaying p); simpl; [|lia].
  destruct (Z.ltb_spec (Z.of_nat (currentStep p)) (Z.of_nat (length (stepsRef p)) - 1));
    simpl; lia.
Qed.

(** No transport command moves the position out of the log, and none moves
    it backwards. *)
Lemma command_ok c p p' :
  transport_ok p -> command c p = Ok p' ->
  transport_ok p' /\ currentStep p <= currentStep p'.
Proof.
  intros Hok. destruct c; simpl.
  - unfold clickStepForward. destruct (_ || _); [by intros [= <-]|].
    by apply stepVisualization_ok.
  - unfold clickStepBackward. destruct (_ || _); [by intros [= <-]|].
    by apply stepVisualization_ok.
  - unfold clickPlayPause. destruct (_ =? _); [by intros [= <-]|].
    destruct (isPlaying p) eqn:Hplay.
    + intros [= <-]. unfold pauseVisualization. rewrite Hplay. simpl. done.
    + unfold playVisualization. rewrite Hplay. simpl.
      destruct (isCompleted p); [by intros [= <-]|].
      intros Hgen. apply generateSteps_ok in Hgen as (? & ? & _); [|done].
      simpl in *. split; [done|lia].
  - intros [= <-]. by apply animate_ok.
Qed.

Lemma commands_ok cs p p' :
  transport_ok p -> commands cs p = Ok p' ->
  transport_ok p' /\ currentStep p <= currentStep p'.
Proof.
  revert p. induction cs as [|c cs IH]; intros p Hok; simpl.
  - intros [= <-]. done.
  - destruct (command c p) as [p1|] eqn:Hc; [|done].
    destruct (command_ok _ _ _ Hok Hc) as [Hok1 Hle1].
    intros Hcs. destruct (IH _ Hok1 Hcs). split; [done|lia].
Qed.

Lemma mount_ok initialArray : transport_ok (mount initialArray).
Proof. split; simpl; lia. Qed.

(** C6 at the log of [3,1,2]: after play, one tick and pause the position
    is 1; pressing "step backward" there moves it to 2, not to 0. *)
Theorem step_backward_moves_forward :
  exists p1 p2,
    commands [PlayPause; Tick; PlayPause] (mount [3; 1; 2]%Z) = Ok p1 /\
    currentStep p1 = 1 /\ totalSteps p1 = 11 /\ isPlaying p1 = false /\
    command StepBackward p1 = Ok p2 /\
    currentStep p2 = 2.
Proof. do 2 eexists. split; [vm_compute; reflexivity|]. repeat split. Qed.

End transport_claims.

(** ** Hash table *)

Section hash_function.
Import HashViz HashSpec.

Lemma hash_fold bucketSize k l acc :
  foldl (fun hash i => (hash + charCodeAt k i * (i + 1)) `mod` bucketSize)
        (acc `mod` bucketSize) l
  = (acc + sum_list_with (fun i => charCodeAt k i * (i + 1)) l) `mod` bucketSize.
Proof.
  revert acc. induction l as [|i l IH]; intros acc; cbn [foldl sum_list_with].
  - by rewrite Nat.add_0_r.
  - by rewrite IH, <-Nat.add_assoc, Nat.Div0.add_mod_idemp_l.
Qed.

(** The loop of [hashFunction] computes the specification's formula. *)
Lemma hashFunction_spec bucketSize k :
  hashFunction bucketSize k = hashSpec bucketSize k.
Proof.
  unfold hashFunction, hashSpec, weightedSum.
  rewrite <-(Nat.Div0.mod_0_l bucketSize) at 1. by rewrite hash_fold.
Qed.

Lemma hashFunction_lt bucketSize k :
  0 < bucketSize -> hashFunction bucketSize k < bucketSize.
Proof.
  intros Hpos. rewrite hashFunction_spec. apply Nat.mod_upper_bound. lia.
Qed.

Lemma bucket_exists bucketSize k h :
  0 < bucketSize -> length (buckets h) = bucketSize ->
  exists b, buckets h !! hashFunction bucketSize k = Some b.
Proof.
  intros Hpos Hlen. apply lookup_lt_is_Some_2. rewrite Hlen.
  by apply hashFunction_lt.
Qed.

End hash_function.

Section hash_store.
Import HashViz HashSpec.

Lemma key_alter s r (st : list HashTableEntry) r' :
  key (alter (with_status s) r st !!! r') = key (st !!! r').
Proof.
  destruct (decide (r = r')) as [->|Hne].
  - destruct (decide (r' < length st)) as [Hlt|Hge].
    + by rewrite list_lookup_total_alter_eq.
    + by rewrite !list_lookup_total_alt, list_lookup_alter_eq,
        lookup_ge_None_2 by lia.
  - by rewrite list_lookup_total_alter_ne.
Qed.

Lemma length_markAll s refs st : length (markAll s refs st) = length st.
Proof.
  revert st. induction refs as [|r refs IH]; intros st; simpl; [done|].
  unfold markAll in *. simpl. by rewrite IH, length_alter.
Qed.

Lemma key_markAll s refs st r : key (markAll s refs st !!! r) = key (st !!! r).
Proof.
  revert st. induction refs as [|r0 refs IH]; intros st; [done|].
  unfold markAll in *. simpl. by rewrite IH, key_alter.
Qed.

Lemma lookup_markAll_notin s refs st r :
  r ∉ refs -> markAll s refs st !!! r = st !!! r.
Proof.
  revert st. induction refs as [|r0 refs IH]; intros st Hnot; [done|].
  apply not_elem_of_cons in Hnot as [Hne Hnot].
  unfold markAll in *. simpl. rewrite IH by done.
  by rewrite list_lookup_total_alter_ne.
Qed.

Lemma status_markAll_in s refs st r :
  r ∈ refs -> r < length st -> status (markAll s refs st !!! r) = s.
Proof.
  revert st. induction refs as [|r0 refs IH]; intros st Hin Hlt.
  - by apply elem_of_nil in Hin.
  - unfold markAll in *. simpl.
    destruct (decide (r ∈ refs)) as [Hin'|Hnot].
    + apply IH; [done|]. by rewrite length_alter.
    + apply elem_of_cons in Hin as [->|?]; [|done].
      fold (markAll s refs (alter (with_status s) r0 st)).
      rewrite lookup_markAll_notin by done.
      by rewrite list_lookup_total_alter_eq.
Qed.

Lemma length_markBuckets bs st :
  length (foldl (fun st b => markAll (occupancy (length b)) b st) st bs) = length st.
Proof.
  revert st. induction bs as [|b bs IH]; intros st; simpl; [done|].
  by rewrite IH, length_markAll.
Qed.

Lemma key_markBuckets bs st r :
  key (foldl (fun st b => markAll (occupancy (length b)) b st) st bs !!! r)
  = key (st !!! r).
Proof.
  revert st. induction bs as [|b bs IH]; intros st; simpl; [done|].
  by rewrite IH, key_markAll.
Qed.

Lemma copyAll_store f refs st :
  (copyAll f refs st).1 = st ++ imap (fun idx r => with_status (f idx) (st !!! r)) refs.
Proof. done. Qed.

Lemma copyAll_old f refs st r :
  r < length st -> (copyAll f refs st).1 !!! r = st !!! r.
Proof. intros Hr. simpl. by rewrite lookup_total_app_l. Qed.

Lemma copyAll_fresh f refs st idx r0 :
  refs !! idx = Some r0 ->
  (copyAll f refs st).1 !!! (length st + idx) = with_status (f idx) (st !!! r0).
Proof.
  intros Hidx. simpl. rewrite lookup_total_app_r by lia.
  replace (length st + idx - length st) with idx by lia.
  apply list_lookup_total_correct. by rewrite list_lookup_imap, Hidx.
Qed.

Lemma copyAll_length f refs st :
  length (copyAll f refs st).1 = length st + length refs.
Proof. simpl. by rewrite length_app, length_imap. Qed.

Lemma copyAll_refs f refs st r :
  r ∈ (copyAll f refs st).2 ->
  exists idx r0, r = length st + idx /\ refs !! idx = Some r0.
Proof.
  simpl. intros [idx Hidx]%list_elem_of_lookup.
  apply lookup_seq in Hidx as [-> Hlt].
  destruct (lookup_lt_is_Some_2 refs idx Hlt) as [r0 Hr0]. eauto.
Qed.

Lemma findIndex_Some st k refs i :
  findIndex st k refs = Some i ->
  exists r, refs !! i = Some r /\ key (st !!! r) = k.
Proof.
  revert i. induction refs as [|r refs IH]; intros i; simpl; [done|].
  destruct (String.eqb_spec (key (st !!! r)) k) as [Heq|Hne].
  - intros [= <-]. eauto.
  - destruct (findIndex st k refs) as [j|]; simpl; [|done].
    intros [= <-]. by apply IH.
Qed.

Lemma findIndex_is_Some st k refs r :
  r ∈ refs -> key (st !!! r) = k -> is_Some (findIndex st k refs).
Proof.
  induction refs as [|r0 refs IH]; intros Hin Hk; simpl.
  - by apply elem_of_nil in Hin.
  - destruct (String.eqb_spec (key (st !!! r0)) k) as [Heq|Hne]; [done|].
    apply elem_of_cons in Hin as [->|Hin]; [done|].
    destruct (IH Hin Hk) as [j ->]. done.
Qed.

Lemma elem_of_dropKey st k refs r :
  r ∈ dropKey st k refs <-> key (st !!! r) <> k /\ r ∈ refs.
Proof. unfold dropKey. by rewrite list_elem_of_filter. Qed.

Lemma length_dropKey st k refs : length (dropKey st k refs) <= length refs.
Proof. unfold dropKey. apply length_filter. Qed.

Lemma present_existsb k h :
  present k h ->
  existsb (fun r => String.eqb (key (store h !!! r)) k) (entries h) = true.
Proof.
  intros (r & Hin & Hk). apply existsb_exists. exists r. split.
  - by apply list_elem_of_In.
  - by apply String.eqb_eq.
Qed.

End hash_store.

Section hash_invariants.
Import HashViz HashSpec.

Lemma occupancy_small n : n <= 1 -> occupancy n = HDefault.
Proof. unfold occupancy. intros Hn. destruct (Nat.ltb_spec 1 n); [lia|done]. Qed.

Lemma occupancy_large n : 1 < n -> occupancy n = HCollision.
Proof. unfold occupancy. intros Hn. destruct (Nat.ltb_spec 1 n); [done|lia]. Qed.

(** A completed insert keeps the placement invariant.  Either it rejects the
    key and returns the table as it was, or it leaves every other bucket as
    it was and gives every entry of its own bucket the status that the
    bucket's new size calls for. *)
Lemma insert_effect bucketSize k v h h' ns :
  table_ok bucketSize h ->
  handleAddEntry bucketSize k v h = Ok (h', ns) ->
  table_ok bucketSize h' /\
  (h' = h \/
   (bucket_frame (hashFunction bucketSize k) h h' /\
    forall b r, buckets h' !! hashFunction bucketSize k = Some b -> r ∈ b ->
      status (store h' !!! r) = occupancy (length b))).
Proof.
  intros Hok. pose proof Hok as [Hlen Hpl]. unfold handleAddEntry.
  destruct (_ || _); [intros [= <- <-]; split; [done|by left]|].
  destruct (existsb _ _); [intros [= <- <-]; split; [done|by left]|].
  destruct (buckets h !! hashFunction bucketSize k) as [b|] eqn:Hb; [|done].
  unfold copyAll. cbv beta iota zeta.
  set (new := length (store h)).
  set (e := mkEntry k _ HActive).
  set (S1 := store h ++ [e]).
  set (b' := b ++ [new]).
  set (S2 := if 1 <? length b' then markAll HCollision b' S1 else S1).
  intros [= <- <-].
  assert (HS1 : forall r, r < length (store h) -> S1 !!! r = store h !!! r).
  { intros r Hr. unfold S1. by rewrite lookup_total_app_l. }
  assert (Hnew : S1 !!! new = e).
  { unfold S1, new. by rewrite lookup_total_app_r, Nat.sub_diag by lia. }
  assert (HkS2 : forall r, key (S2 !!! r) = key (S1 !!! r)).
  { intros r. unfold S2. destruct (1 <? length b'); [apply key_markAll|done]. }
  assert (HlS2 : length S2 = S (length (store h))).
  { unfold S2. destruct (1 <? length b'); rewrite ?length_markAll; unfold S1;
      rewrite length_app; simpl; lia. }
  assert (Hb' : forall r, r ∈ b' ->
            r < length S2 /\ hashFunction bucketSize (key (S2 !!! r)) = hashFunction bucketSize k).
  { intros r [Hr| ->%list_elem_of_singleton]%elem_of_app.
    - destruct (Hpl _ _ _ Hb Hr) as [Hlt Hh].
      rewrite HkS2, HS1 by done. split; [lia|done].
    - rewrite HkS2, Hnew. split; [unfold new; lia|done]. }
  assert (Hother : forall i bi r, i <> hashFunction bucketSize k ->
            buckets h !! i = Some bi -> r ∈ bi -> S2 !!! r = store h !!! r).
  { intros i bi r Hi Hbi Hr. destruct (Hpl _ _ _ Hbi Hr) as [Hlt Hh].
    rewrite <-HS1 by done. unfold S2. destruct (1 <? length b'); [|done].
    apply lookup_markAll_notin.
    intros [Hrb| ->%list_elem_of_singleton]%elem_of_app.
    - destruct (Hpl _ _ _ Hb Hrb) as [_ Hh']. congruence.
    - unfold new in Hlt. lia. }
  assert (Hfresh : forall r, r ∈ seq (length S2) (length b') ->
            exists idx r0, r = length S2 + idx /\ b' !! idx = Some r0 /\
              (S2 ++ imap (fun _ r => with_status (occupancy (length b')) (S2 !!! r)) b')
                !!! r = with_status (occupancy (length b')) (S2 !!! r0)).
  { intros r Hr.
    destruct (copyAll_refs (fun _ => occupancy (length b')) b' S2 r Hr)
      as (idx & r0 & -> & Hidx).
    exists idx, r0. split_and!; [done..|].
    apply (copyAll_fresh (fun _ => occupancy (length b')) b' S2 idx r0 Hidx). }
  split; [|right; split].
  - split; simpl; [by rewrite length_insert|].
    intros i bi r Hbi Hr. rewrite length_app, length_imap.
    apply list_lookup_insert_Some in Hbi as [(<- & <- & _)|[Hne Hbi]].
    + destruct (Hfresh r Hr) as (idx & r0 & -> & Hidx & ->).
      apply lookup_lt_Some in Hidx as Hlt. split; [lia|]. simpl.
      apply Hb'. eapply list_elem_of_lookup_2. done.
    + destruct (Hpl _ _ _ Hbi Hr) as [Hlt Hh]. split; [lia|].
      rewrite lookup_total_app_l by lia.
      by rewrite (Hother _ _ _ (not_eq_sym Hne) Hbi Hr).
  - intros j bj Hj Hbj. simpl in *.
    apply list_lookup_insert_Some in Hbj as [(<- & _ & _)|[_ Hbj]]; [done|].
    split; [done|]. intros r Hr.
    destruct (Hpl _ _ _ Hbj Hr) as [Hlt Hh].
    rewrite lookup_total_app_l by lia. by apply (Hother _ _ _ Hj Hbj Hr).
  - intros bi r Hbi Hr. simpl in *.
    apply list_lookup_insert_Some in Hbi as [(_ & <- & _)|[Hne _]]; [|done].
    destruct (Hfresh r Hr) as (idx & r0 & -> & Hidx & ->).
    simpl. by rewrite length_seq.
Qed.

(** A completed remove keeps the placement invariant.  Either it returns
    the table as it was (an animation is running, or the key is absent), or
    it leaves every other bucket as it was and, in its own bucket, marks the
    remaining entries [default] when at most one remains and leaves their
    statuses alone otherwise. *)
Lemma remove_effect bucketSize k h h' ns :
  table_ok bucketSize h ->
  handleRemoveEntry bucketSize k h = Ok (h', ns) ->
  table_ok bucketSize h' /\
  (h' = h \/
   (bucket_frame (hashFunction bucketSize k) h h' /\
    forall b' r, buckets h' !! hashFunction bucketSize k = Some b' -> r ∈ b' ->
      (length b' <= 1 -> status (store h' !!! r) = HDefault) /\
      (1 < length b' ->
         exists b, buckets h !! hashFunction bucketSize k = Some b /\ r ∈ b /\
                   length b' <= length b /\
                   status (store h' !!! r) = status (store h !!! r)))).
Proof.
  intros Hok. pose proof Hok as [Hlen Hpl]. unfold handleRemoveEntry.
  destruct (isAnimating h); [intros [= <- <-]; split; [done|by left]|].
  destruct (findIndex (store h) k (entries h)) as [ei|] eqn:Hei;
    [|intros [= <- <-]; split; [done|by left]].
  destruct (buckets h !! hashFunction bucketSize k) as [b|] eqn:Hb; [|done].
  apply findIndex_Some in Hei as (re & Hre & Hkre).
  rewrite (list_lookup_total_correct _ _ _ Hre).
  set (S1 := match findIndex (store h) k b with
             | Some _ => _ | None => _ end).
  set (b' := dropKey S1 k b).
  set (S2 := if length b' <=? 1 then markAll HDefault b' S1 else S1).
  intros [= <- <-].
  assert (HS1 : length S1 = length (store h) /\
                (forall r, key (S1 !!! r) = key (store h !!! r)) /\
                (forall r, key (store h !!! r) <> k -> S1 !!! r = store h !!! r)).
  { unfold S1. destruct (findIndex (store h) k b) as [bi|] eqn:Hbi; [|done].
    apply findIndex_Some in Hbi as (rb & Hrb & Hkrb).
    rewrite (list_lookup_total_correct _ _ _ Hrb).
    split_and!.
    - by rewrite !length_alter.
    - intros r. by rewrite !key_alter.
    - intros r Hr. rewrite !list_lookup_total_alter_ne; [done|congruence..]. }
  destruct HS1 as (HlS1 & HkS1 & HoS1).
  assert (HlS2 : length S2 = length (store h)).
  { unfold S2. destruct (length b' <=? 1); by rewrite ?length_markAll. }
  assert (HkS2 : forall r, key (S2 !!! r) = key (store h !!! r)).
  { intros r. unfold S2. destruct (length b' <=? 1); by rewrite ?key_markAll. }
  assert (Hb' : forall r, r ∈ b' -> key (store h !!! r) <> k /\ r ∈ b).
  { intros r Hr. apply elem_of_dropKey in Hr. by rewrite HkS1 in Hr. }
  assert (Hother : forall i bi r, i <> hashFunction bucketSize k ->
            buckets h !! i = Some bi -> r ∈ bi -> S2 !!! r = store h !!! r).
  { intros i bi r Hi Hbi Hr. destruct (Hpl _ _ _ Hbi Hr) as [Hlt Hh].
    assert (key (store h !!! r) <> k) by congruence.
    rewrite <-HoS1 by done. unfold S2. destruct (length b' <=? 1); [|done].
    apply lookup_markAll_notin. intros [_ Hrb]%Hb'.
    destruct (Hpl _ _ _ Hb Hrb) as [_ Hh']. congruence. }
  split; [|right; split].
  - split; simpl; [by rewrite length_insert|].
    intros i bi r Hbi Hr. rewrite HlS2, HkS2.
    apply list_lookup_insert_Some in Hbi as [(<- & <- & _)|[Hne Hbi]].
    + apply Hb' in Hr as [_ Hr]. by apply (Hpl _ _ _ Hb Hr).
    + by apply (Hpl _ _ _ Hbi Hr).
  - intros j bj Hj Hbj. simpl in *.
    apply list_lookup_insert_Some in Hbj as [(<- & _ & _)|[_ Hbj]]; [done|].
    split; [done|]. intros r Hr. by apply (Hother _ _ _ Hj Hbj Hr).
  - intros bi r Hbi Hr. simpl in *.
    apply list_lookup_insert_Some in Hbi as [(_ & <- & _)|[Hne _]]; [|done].
    pose proof (length_dropKey S1 k b) as Hdrop. fold b' in Hdrop.
    destruct (Hb' r Hr) as [Hk Hrb]. unfold S2.
    destruct (Nat.leb_spec (length b') 1) as [Hle|Hgt]; (split; [|]); try lia.
    + intros _. rewrite status_markAll_in; [done..|].
      rewrite HlS1. by apply (Hpl _ _ _ Hb Hrb).
    + intros _. exists b. split_and!; [done..|]. by rewrite HoS1.
Qed.

Lemma collision_ok_marked h : collision_ok h -> collisions_marked h.
Proof.
  intros Hcol i b r Hb Hr Hlen. rewrite (Hcol _ _ _ Hb Hr).
  by apply occupancy_large.
Qed.

(** Both forms of the collision bookkeeping are kept by a completed insert. *)
Lemma insert_preserves bucketSize k v h h' ns :
  table_ok bucketSize h ->
  handleAddEntry bucketSize k v h = Ok (h', ns) ->
  table_ok bucketSize h' /\ (collision_ok h -> collision_ok h') /\
  (collisions_marked h -> collisions_marked h').
Proof.
  intros Hok Hop.
  destruct (insert_effect _ _ _ _ _ _ Hok Hop) as [Hok' [->|[Hframe Hown]]];
    [done|].
  split; [done|]. split.
  - intros Hcol i b r Hb Hr.
    destruct (decide (i = hashFunction bucketSize k)) as [->|Hne].
    + by apply Hown.
    + destruct (Hframe _ _ Hne Hb) as [Hb0 Hst]. rewrite Hst by done.
      by apply (Hcol i).
  - intros Hcol i b r Hb Hr Hlen.
    destruct (decide (i = hashFunction bucketSize k)) as [->|Hne].
    + rewrite (Hown _ _ Hb Hr). by apply occupancy_large.
    + destruct (Hframe _ _ Hne Hb) as [Hb0 Hst]. rewrite Hst by done.
      by apply (Hcol i b).
Qed.

(** And by a completed remove. *)
Lemma remove_preserves bucketSize k h h' ns :
  table_ok bucketSize h ->
  handleRemoveEntry bucketSize k h = Ok (h', ns) ->
  table_ok bucketSize h' /\ (collision_ok h -> collision_ok h') /\
  (collisions_marked h -> collisions_marked h').
Proof.
  intros Hok Hop.
  destruct (remove_effect _ _ _ _ _ Hok Hop) as [Hok' [->|[Hframe Hown]]];
    [done|].
  split; [done|]. split.
  - intros Hcol i b r Hb Hr.
    destruct (decide (i = hashFunction bucketSize k)) as [->|Hne].
    + destruct (Hown _ _ Hb Hr) as [Hsmall Hlarge].
      destruct (decide (length b <= 1)) as [Hle|Hgt].
      * by rewrite Hsmall, occupancy_small.
      * destruct Hlarge as (b0 & Hb0 & Hr0 & Hlen0 & ->); [lia|].
        rewrite (Hcol _ _ _ Hb0 Hr0), !occupancy_large; [done|lia..].
    + destruct (Hframe _ _ Hne Hb) as [Hb0 Hst]. rewrite Hst by done.
      by apply (Hcol i).
  - intros Hcol i b r Hb Hr Hlen.
    destruct (decide (i = hashFunction bucketSize k)) as [->|Hne].
    + destruct (Hown _ _ Hb Hr) as [_ Hlarge].
      destruct (Hlarge Hlen) as (b0 & Hb0 & Hr0 & Hlen0 & ->).
      apply (Hcol _ _ _ Hb0 Hr0). lia.
    + destruct (Hframe _ _ Hne Hb) as [Hb0 Hst]. rewrite Hst by done.
      by apply (Hcol i b).
Qed.

End hash_invariants.

Section hash_operations.
Import HashViz HashSpec.

Lemma gate_open k v h :
  k <> EmptyString -> (hashType h = HMap -> v <> EmptyString) -> isAnimating h = false ->
  String.eqb k "" ||
    (match hashType h with HMap => String.eqb v "" | HSet => false end) ||
    isAnimating h = false.
Proof.
  intros Hk Hv ->.
  rewrite (proj2 (String.eqb_neq k "")) by done.
  destruct (hashType h); [|done].
  by rewrite (proj2 (String.eqb_neq v "")) by auto.
Qed.

Lemma absent_existsb k h :
  ~ present k h ->
  existsb (fun r => String.eqb (key (store h !!! r)) k) (entries h) = false.
Proof.
  intros Hnot. destruct (existsb _ _) eqn:Hex; [|done].
  apply existsb_exists in Hex as (r & Hin & Hk). destruct Hnot.
  exists r. split; [by apply list_elem_of_In|by apply String.eqb_eq].
Qed.

(** An accepted insert leaves an entry with the new key in bucket
    [hashFunction key]. *)
Lemma insert_accepted bucketSize k v h :
  0 < bucketSize -> length (buckets h) = bucketSize ->
  k <> EmptyString -> (hashType h = HMap -> v <> EmptyString) -> isAnimating h = false ->
  ~ present k h ->
  exists h1 b r,
    handleAddEntry bucketSize k v h = Ok (h1, []) /\
    isAnimating h1 = false /\ length (buckets h1) = bucketSize /\
    buckets h1 !! hashFunction bucketSize k = Some b /\ r ∈ b /\
    key (store h1 !!! r) = k /\ present k h1.
Proof.
  intros Hpos Hlen Hk Hv Hanim Habs.
  destruct (bucket_exists bucketSize k h Hpos Hlen) as [b Hb].
  unfold handleAddEntry.
  rewrite (gate_open k v h Hk Hv Hanim), (absent_existsb k h Habs), Hb.
  unfold copyAll. cbv beta iota zeta.
  set (e := mkEntry k _ HActive).
  set (S1 := store h ++ [e]).
  set (b' := b ++ [length (store h)]).
  set (S2 := if 1 <? length b' then markAll HCollision b' S1 else S1).
  eexists _, _, (length S2 + length b). split; [reflexivity|]. simpl.
  assert (HkS2 : key (S2 !!! length (store h)) = k).
  { assert (key (S2 !!! length (store h)) = key (S1 !!! length (store h))) as ->.
    { unfold S2. destruct (1 <? length b'); [apply key_markAll|done]. }
    unfold S1. by rewrite lookup_total_app_r, Nat.sub_diag by lia. }
  assert (HlS2 : length S2 = S (length (store h))).
  { unfold S2. destruct (1 <? length b'); rewrite ?length_markAll; unfold S1;
      rewrite length_app; simpl; lia. }
  split_and!; [done|by rewrite length_insert| | | |].
  4:{ exists (length (store h)). cbn [store entries].
      split; [apply elem_of_app; right; by left|].
      rewrite lookup_total_app_l by lia. done. }
  - apply list_lookup_insert_eq. rewrite Hlen. by apply hashFunction_lt.
  - apply list_elem_of_lookup. exists (length b). apply lookup_seq.
    unfold b'. rewrite length_app. simpl. split; lia.
  - assert (Hidx : b' !! length b = Some (length (store h))).
    { unfold b'. by rewrite lookup_app_r, Nat.sub_diag by lia. }
    pose proof (copyAll_fresh (fun _ => occupancy (length b')) b' S2 _ _ Hidx) as Hc.
    unfold copyAll in Hc. cbn [fst] in Hc. by rewrite Hc.
Qed.

(** A remove of a key of the table empties bucket [hashFunction key] of it. *)
Lemma remove_removes bucketSize k h b :
  present k h -> isAnimating h = false ->
  buckets h !! hashFunction bucketSize k = Some b ->
  exists h3,
    handleRemoveEntry bucketSize k h = Ok (h3, []) /\
    forall b' r, buckets h3 !! hashFunction bucketSize k = Some b' -> r ∈ b' ->
                 key (store h3 !!! r) <> k.
Proof.
  intros (re & Hre & Hkre) Hanim Hb. unfold handleRemoveEntry. rewrite Hanim.
  destruct (findIndex_is_Some _ _ _ _ Hre Hkre) as [ei ->]. rewrite Hb.
  eexists. split; [reflexivity|]. simpl. intros b' r Hb' Hr.
  rewrite list_lookup_insert_eq in Hb' by (by eapply lookup_lt_Some).
  injection Hb' as <-. apply elem_of_dropKey in Hr as [Hr _].
  destruct (_ <=? 1); by rewrite ?key_markAll.
Qed.


(** [resetHashTable] establishes placement and collision bookkeeping. *)
Lemma resetPush_preserves bucketSize ty st ents bs kv st' ents' bs' :
  table_ok bucketSize (mkHash ty st ents bs None false) ->
  collision_ok (mkHash ty st ents bs None false) ->
  resetPush bucketSize (Ok (st, ents, bs)) kv = Ok (st', ents', bs') ->
  table_ok bucketSize (mkHash ty st' ents' bs' None false) /\
  collision_ok (mkHash ty st' ents' bs' None false).
Proof.
  intros [Hlen Hpl] Hcol. simpl in *. unfold resetPush.
  destruct (bs !! hashFunction bucketSize kv.1) as [b|] eqn:Hb; [|done].
  set (new := length st).
  set (S1 := st ++ [mkEntry kv.1 kv.2 HDefault]).
  set (b' := b ++ [new]).
  intros [= <- <- <-].
  assert (HS1 : forall r, r < length st -> S1 !!! r = st !!! r).
  { intros r Hr. unfold S1. by rewrite lookup_total_app_l. }
  assert (Hnew : S1 !!! new = mkEntry kv.1 kv.2 HDefault).
  { unfold S1, new. by rewrite lookup_total_app_r, Nat.sub_diag by lia. }
  set (S2 := if 1 <? length b' then markAll HCollision b' S1 else S1).
  assert (HkS2 : forall r, key (S2 !!! r) = key (S1 !!! r)).
  { intros r. unfold S2. destruct (1 <? length b'); [apply key_markAll|done]. }
  assert (HlS2 : length S2 = S (length st)).
  { unfold S2. destruct (1 <? length b'); rewrite ?length_markAll; unfold S1;
      rewrite length_app; simpl; lia. }
  assert (Hother : forall i bi r, i <> hashFunction bucketSize kv.1 ->
            bs !! i = Some bi -> r ∈ bi -> S2 !!! r = st !!! r).
  { intros i bi r Hi Hbi Hr. destruct (Hpl _ _ _ Hbi Hr) as [Hlt Hh].
    rewrite <-HS1 by done. unfold S2. destruct (1 <? length b'); [|done].
    apply lookup_markAll_notin.
    intros [Hrb| ->%list_elem_of_singleton]%elem_of_app.
    - destruct (Hpl _ _ _ Hb Hrb) as [_ Hh']. congruence.
    - unfold new in Hlt. lia. }
  split.
  - split; simpl; [by rewrite length_insert|].
    intros i bi r Hbi Hr. rewrite HlS2, HkS2.
    apply list_lookup_insert_Some in Hbi as [(<- & <- & _)|[Hne Hbi]].
    + apply elem_of_app in Hr as [Hr| ->%list_elem_of_singleton].
      * destruct (Hpl _ _ _ Hb Hr) as [Hlt Hh]. rewrite HS1 by done. split; [lia|done].
      * rewrite Hnew. split; [unfold new; lia|done].
    + destruct (Hpl _ _ _ Hbi Hr) as [Hlt Hh]. rewrite HS1 by done. split; [lia|done].
  - intros i bi r Hbi Hr. simpl in *.
    apply list_lookup_insert_Some in Hbi as [(<- & <- & _)|[Hne Hbi]].
    + fold S2. unfold S2. destruct (Nat.ltb_spec 1 (length b')) as [Hgt|Hle].
      * rewrite status_markAll_in, occupancy_large; [done..|].
        unfold S1. rewrite length_app. simpl.
        apply elem_of_app in Hr as [Hr| ->%list_elem_of_singleton].
        -- destruct (Hpl _ _ _ Hb Hr). lia.
        -- unfold new. lia.
      * rewrite occupancy_small by done.
        unfold b' in Hle, Hr. rewrite length_app in Hle. simpl in Hle.
        destruct b; [|simpl in Hle; lia].
        apply list_elem_of_singleton in Hr as ->. by rewrite Hnew.
    + fold S2. rewrite (Hother _ _ _ (not_eq_sym Hne) Hbi Hr). by eapply Hcol.
Qed.

Lemma resetPush_cover bucketSize ty st ents bs kv st' ents' bs' :
  table_ok bucketSize (mkHash ty st ents bs None false) ->
  entries_cover (mkHash ty st ents bs None false) ->
  resetPush bucketSize (Ok (st, ents, bs)) kv = Ok (st', ents', bs') ->
  entries_cover (mkHash ty st' ents' bs' None false).
Proof.
  intros [Hlen Hpl] [Hval Hcov]. simpl in *. unfold resetPush.
  destruct (bs !! hashFunction bucketSize kv.1) as [b|] eqn:Hb; [|done].
  set (new := length st).
  set (S1 := st ++ [mkEntry kv.1 kv.2 HDefault]).
  set (b' := b ++ [new]).
  set (S2 := if 1 <? length b' then markAll HCollision b' S1 else S1).
  intros [= <- <- <-].
  assert (HlS2 : length S2 = S (length st)).
  { unfold S2. destruct (1 <? length b'); rewrite ?length_markAll; unfold S1;
      rewrite length_app; simpl; lia. }
  assert (Hold : forall r, r < length st -> key (S2 !!! r) = key (st !!! r)).
  { intros r Hr.
    assert (key (S2 !!! r) = key (S1 !!! r)) as ->.
    { unfold S2. destruct (1 <? length b'); [apply key_markAll|done]. }
    unfold S1. by rewrite lookup_total_app_l. }
  assert (Hup : forall k', present k' (mkHash ty st ents bs None false) ->
            exists e', e' ∈ ents ++ [new] /\ key (S2 !!! e') = k').
  { intros k' (e' & He' & Hk'). simpl in *. exists e'.
    split; [apply elem_of_app; by left|]. rewrite Hold by auto. done. }
  split; simpl.
  - intros e' [He'| ->%list_elem_of_singleton]%elem_of_app.
    + apply Hval in He'. lia.
    + unfold new. lia.
  - intros k' (i & bi & r & Hbi & Hr & Hkey). simpl in *. fold S2 in Hkey.
    assert (Hr' : r = new \/ exists i0 b0, bs !! i0 = Some b0 /\ r ∈ b0).
    { apply list_lookup_insert_Some in Hbi as [(<- & <- & _)|[Hne Hbi]].
      - apply elem_of_app in Hr as [Hr| ->%list_elem_of_singleton]; eauto.
      - eauto. }
    destruct Hr' as [->|(i0 & b0 & Hb0 & Hr0)].
    + exists new. cbn [store entries]. split; [apply elem_of_app; right; by left|done].
    + destruct (Hpl _ _ _ Hb0 Hr0) as [Hlt _]. rewrite Hold in Hkey by done.
      apply Hup, Hcov. by exists i0, b0, r.
Qed.

Lemma reset_establishes bucketSize ty h :
  resetHashTable bucketSize ty = Ok h ->
  table_ok bucketSize h /\ collision_ok h /\ entries_cover h.
Proof.
  unfold resetHashTable.
  assert (Hgen : forall data acc st ents bs,
    acc = Ok (st, ents, bs) ->
    table_ok bucketSize (mkHash ty st ents bs None false) ->
    collision_ok (mkHash ty st ents bs None false) ->
    entries_cover (mkHash ty st ents bs None false) ->
    forall st' ents' bs',
      foldl (resetPush bucketSize) acc data = Ok (st', ents', bs') ->
      table_ok bucketSize (mkHash ty st' ents' bs' None false) /\
      collision_ok (mkHash ty st' ents' bs' None false) /\
      entries_cover (mkHash ty st' ents' bs' None false)).
  { induction data as [|kv data IH];
      intros acc st ents bs -> Hok Hcol Hcov st' ents' bs'; cbn [foldl].
    - by intros [= <- <- <-].
    - destruct (resetPush bucketSize (Ok (st, ents, bs)) kv)
        as [[[st1 ents1] bs1]|] eqn:Hpush.
      + destruct (resetPush_preserves _ _ _ _ _ _ _ _ _ Hok Hcol Hpush) as [Hok1 Hcol1].
        pose proof (resetPush_cover _ _ _ _ _ _ _ _ _ Hok Hcov Hpush) as Hcov1.
        apply (IH _ st1 ents1 bs1 eq_refl Hok1 Hcol1 Hcov1).
      + clear. intros Hf. exfalso.
        induction data as [|? ? IHd]; cbn [foldl] in Hf; [done|]. by apply IHd. }
  destruct (foldl _ _ initialData) as [[[st ents] bs]|] eqn:Hf; [|done].
  intros [= <-]. eapply Hgen; [reflexivity| | | |exact Hf].
  - split; simpl; [by rewrite length_replicate|].
    intros i b r [-> _]%lookup_replicate Hr. by apply elem_of_nil in Hr.
  - intros i b r [-> _]%lookup_replicate Hr. by apply elem_of_nil in Hr.
  - split; simpl.
    + intros e He. by apply elem_of_nil in He.
    + intros k' (i & b & r & [-> _]%lookup_replicate & Hr & _).
      by apply elem_of_nil in Hr.
Qed.

(** A completed search keeps the placement invariant. *)
Lemma search_preserves bucketSize k h h' ns :
  table_ok bucketSize h ->
  handleSearch bucketSize k h = Ok (h', ns) ->
  table_ok bucketSize h' /\ entries h' = entries h /\
  length (store h) <= length (store h') /\
  (forall r, r < length (store h) -> key (store h' !!! r) = key (store h !!! r)) /\
  (forall k', in_bucket k' h' -> in_bucket k' h).
Proof.
  intros [Hlen Hpl]. unfold handleSearch.
  destruct (_ || _); [by intros [= <- <-]|].
  destruct (buckets h !! hashFunction bucketSize k) as [b|] eqn:Hb; [|done].
  unfold copyAll. cbv beta iota zeta.
  set (S1 := foldl _ (store h) (buckets h)).
  set (act := seq (length S1) (length b)).
  set (S2 := S1 ++ imap (fun _ r => with_status HActive (S1 !!! r)) b).
  assert (HlS1 : length S1 = length (store h)) by apply length_markBuckets.
  assert (HkS1 : forall r, key (S1 !!! r) = key (store h !!! r))
    by (intros r; apply key_markBuckets).
  assert (HlS2 : length S2 = length S1 + length b).
  { unfold S2. by rewrite length_app, length_imap. }
  assert (Hact : forall idx r0, b !! idx = Some r0 ->
            act !! idx = Some (length S1 + idx) /\
            key (S2 !!! (length S1 + idx)) = key (store h !!! r0)).
  { intros idx r0 Hidx. split.
    - apply lookup_seq. split; [done|]. by eapply lookup_lt_Some.
    - pose proof (copyAll_fresh (fun _ => HActive) b S1 _ _ Hidx) as Hc.
      unfold copyAll in Hc. cbn [fst] in Hc. unfold S2. rewrite Hc. simpl.
      apply HkS1. }
  assert (Hgen : forall f,
    let S3 := S2 ++ imap (fun idx r => with_status (f idx) (S2 !!! r)) act in
    let bs' := <[hashFunction bucketSize k := seq (length S2) (length act)]> (buckets h) in
    (length bs' = bucketSize /\
     forall i bi r, bs' !! i = Some bi -> r ∈ bi ->
       r < length S3 /\ hashFunction bucketSize (key (S3 !!! r)) = i) /\
    length (store h) <= length S3 /\
    (forall r, r < length (store h) -> key (S3 !!! r) = key (store h !!! r)) /\
    (forall i bi r, bs' !! i = Some bi -> r ∈ bi ->
       exists b0 r0, buckets h !! i = Some b0 /\ r0 ∈ b0 /\
                     key (S3 !!! r) = key (store h !!! r0))).
  { intros f S3 bs'.
    assert (HlS3 : length S3 = length S2 + length act).
    { unfold S3. by rewrite length_app, length_imap. }
    assert (Hold : forall r, r < length (store h) -> key (S3 !!! r) = key (store h !!! r)).
    { intros r Hr. unfold S3, S2. rewrite !lookup_total_app_l; [apply HkS1|lia|].
      rewrite length_app, length_imap. lia. }
    assert (Horigin : forall i bi r, bs' !! i = Some bi -> r ∈ bi ->
              r < length S3 /\
              exists b0 r0, buckets h !! i = Some b0 /\ r0 ∈ b0 /\
                            key (S3 !!! r) = key (store h !!! r0)).
    { intros i bi r Hbi Hr.
      apply list_lookup_insert_Some in Hbi as [(<- & <- & _)|[Hne Hbi]].
      - apply list_elem_of_lookup in Hr as [idx Hidx].
        apply lookup_seq in Hidx as [-> Hlt]. split; [lia|].
        unfold act in Hlt. rewrite length_seq in Hlt.
        destruct (lookup_lt_is_Some_2 b idx Hlt) as [r0 Hr0].
        destruct (Hact idx r0 Hr0) as [Hai Hkey].
        pose proof (copyAll_fresh f act S2 _ _ Hai) as Hc.
        unfold copyAll in Hc. cbn [fst] in Hc.
        exists b, r0. split_and!; [done|by eapply list_elem_of_lookup_2|].
        unfold S3. rewrite Hc. simpl. exact Hkey.
      - destruct (Hpl _ _ _ Hbi Hr) as [Hlt Hh]. split; [lia|].
        exists bi, r. by rewrite Hold. }
    split_and!; [by unfold bs'; rewrite length_insert| |lia|done|].
    - intros i bi r Hbi Hr.
      destruct (Horigin i bi r Hbi Hr) as (Hlt & b0 & r0 & Hb0 & Hr0 & ->).
      split; [done|]. by apply (Hpl _ _ _ Hb0 Hr0).
    - intros i bi r Hbi Hr. by destruct (Horigin i bi r Hbi Hr). }
  assert (Hfin : forall f,
    let S3 := S2 ++ imap (fun idx r => with_status (f idx) (S2 !!! r)) act in
    let bs' := <[hashFunction bucketSize k := seq (length S2) (length act)]> (buckets h) in
    forall sel,
    let hf := mkHash (hashType h) S3 (entries h) bs' sel false in
    table_ok bucketSize hf /\ entries hf = entries h /\
    length (store h) <= length (store hf) /\
    (forall r, r < length (store h) -> key (store hf !!! r) = key (store h !!! r)) /\
    (forall k', in_bucket k' hf -> in_bucket k' h)).
  { intros f S3 bs' sel hf. destruct (Hgen f) as (Hok & Hle & Hkeys & Horigin).
    split_and!; [exact Hok|done|exact Hle|exact Hkeys|].
    intros k' (i & bi & r & Hbi & Hr & Hkey).
    destruct (Horigin i bi r Hbi Hr) as (b0 & r0 & Hb0 & Hr0 & Heq).
    exists i, b0, r0. split_and!; [done..|]. rewrite <-Heq. exact Hkey. }
  destruct (findIndex S2 k act) as [found|]; intros [= <- <-]; apply Hfin.
Qed.

(** Every operation keeps the entry list covering the buckets. *)
Lemma insert_cover bucketSize k v h h' ns :
  table_ok bucketSize h -> entries_cover h ->
  handleAddEntry bucketSize k v h = Ok (h', ns) -> entries_cover h'.
Proof.
  intros [Hlen Hpl] [Hval Hcov]. unfold handleAddEntry.
  destruct (_ || _); [by intros [= <- <-]|].
  destruct (existsb _ _); [by intros [= <- <-]|].
  destruct (buckets h !! hashFunction bucketSize k) as [b|] eqn:Hb; [|done].
  unfold copyAll. cbv beta iota zeta.
  set (new := length (store h)).
  set (e := mkEntry k _ HActive).
  set (S1 := store h ++ [e]).
  set (b' := b ++ [new]).
  set (S2 := if 1 <? length b' then markAll HCollision b' S1 else S1).
  set (S3 := S2 ++ imap (fun _ r => with_status (occupancy (length b')) (S2 !!! r)) b').
  intros [= <- <-].
  assert (HlS2 : length S2 = S (length (store h))).
  { unfold S2. destruct (1 <? length b'); rewrite ?length_markAll; unfold S1;
      rewrite length_app; simpl; lia. }
  assert (HlS3 : length S3 = length S2 + length b').
  { unfold S3. by rewrite length_app, length_imap. }
  assert (HkS2 : forall r, key (S2 !!! r) = key (S1 !!! r)).
  { intros r. unfold S2. destruct (1 <? length b'); [apply key_markAll|done]. }
  assert (Hold : forall r, r < length (store h) -> key (S3 !!! r) = key (store h !!! r)).
  { intros r Hr. unfold S3. rewrite lookup_total_app_l, HkS2 by lia.
    unfold S1. by rewrite lookup_total_app_l. }
  assert (Hnew : key (S3 !!! new) = k).
  { unfold S3. rewrite lookup_total_app_l, HkS2 by (unfold new; lia).
    unfold S1, new. by rewrite lookup_total_app_r, Nat.sub_diag by lia. }
  assert (Hup : forall k', present k' h ->
            exists e', e' ∈ entries h ++ [new] /\ key (S3 !!! e') = k').
  { intros k' (e' & He' & Hk'). exists e'.
    split; [apply elem_of_app; by left|]. rewrite Hold by auto. done. }
  split; simpl.
  - intros e' [He'| ->%list_elem_of_singleton]%elem_of_app.
    + apply Hval in He'. lia.
    + unfold new. lia.
  - intros k' (i & bi & r & Hbi & Hr & Hkey). simpl in *. fold S3 in Hkey.
    apply list_lookup_insert_Some in Hbi as [(<- & <- & _)|[Hne Hbi]].
    + apply list_elem_of_lookup in Hr as [idx Hidx].
      apply lookup_seq in Hidx as [-> Hlt].
      destruct (lookup_lt_is_Some_2 b' idx Hlt) as [r0 Hr0].
      pose proof (copyAll_fresh (fun _ => occupancy (length b')) b' S2 _ _ Hr0) as Hc.
      unfold copyAll in Hc. cbn [fst] in Hc. fold S3 in Hc.
      rewrite Hc in Hkey. simpl in Hkey. rewrite HkS2 in Hkey.
      apply list_elem_of_lookup_2 in Hr0.
      apply elem_of_app in Hr0 as [Hr0| ->%list_elem_of_singleton].
      * destruct (Hpl _ _ _ Hb Hr0) as [Hlt0 _].
        unfold S1 in Hkey. rewrite lookup_total_app_l in Hkey by done.
        apply Hup, Hcov. by exists (hashFunction bucketSize k), b, r0.
      * exists new. cbn [store entries]. split; [apply elem_of_app; right; by left|].
        rewrite Hnew. rewrite <-Hkey. unfold S1, new.
        by rewrite lookup_total_app_r, Nat.sub_diag by lia.
    + destruct (Hpl _ _ _ Hbi Hr) as [Hlt _]. rewrite Hold in Hkey by done.
      apply Hup, Hcov. by exists i, bi, r.
Qed.

Lemma remove_cover bucketSize k h h' ns :
  table_ok bucketSize h -> entries_cover h ->
  handleRemoveEntry bucketSize k h = Ok (h', ns) -> entries_cover h'.
Proof.
  intros [Hlen Hpl] [Hval Hcov]. unfold handleRemoveEntry.
  destruct (isAnimating h); [by intros [= <- <-]|].
  destruct (findIndex (store h) k (entries h)) as [ei|] eqn:Hei;
    [|by intros [= <- <-]].
  destruct (buckets h !! hashFunction bucketSize k) as [b|] eqn:Hb; [|done].
  set (S1 := match findIndex (store h) k b with
             | Some _ => _ | None => _ end).
  set (b' := dropKey S1 k b).
  set (S2 := if length b' <=? 1 then markAll HDefault b' S1 else S1).
  intros [= <- <-].
  assert (HS1 : length S1 = length (store h) /\
                forall r, key (S1 !!! r) = key (store h !!! r)).
  { unfold S1. destruct (findIndex (store h) k b) as [bi|]; [|done].
    split; [by rewrite !length_alter|]. intros r. by rewrite !key_alter. }
  destruct HS1 as [HlS1 HkS1].
  assert (HlS2 : length S2 = length (store h)).
  { unfold S2. destruct (length b' <=? 1); by rewrite ?length_markAll. }
  assert (HkS2 : forall r, key (S2 !!! r) = key (store h !!! r)).
  { intros r. unfold S2. destruct (length b' <=? 1); by rewrite ?key_markAll. }
  assert (Hup : forall k', k' <> k -> present k' h ->
            exists e', e' ∈ dropKey S2 k (entries h) /\ key (S2 !!! e') = k').
  { intros k' Hne (e' & He' & Hk'). exists e'. rewrite HkS2. split; [|done].
    apply elem_of_dropKey. rewrite HkS2. split; [congruence|done]. }
  split; simpl.
  - intros e' [_ He']%elem_of_dropKey. rewrite HlS2. auto.
  - intros k' (i & bi & r & Hbi & Hr & Hkey). simpl in *.
    rewrite HkS2 in Hkey.
    apply list_lookup_insert_Some in Hbi as [(<- & <- & _)|[Hne Hbi]].
    + apply elem_of_dropKey in Hr as [Hrk Hr]. rewrite HkS1 in Hrk.
      apply Hup; [congruence|]. apply Hcov.
      by exists (hashFunction bucketSize k), b, r.
    + destruct (Hpl _ _ _ Hbi Hr) as [_ Hh].
      apply Hup; [congruence|]. apply Hcov. by exists i, bi, r.
Qed.

Lemma search_cover bucketSize k h h' ns :
  table_ok bucketSize h -> entries_cover h ->
  handleSearch bucketSize k h = Ok (h', ns) -> entries_cover h'.
Proof.
  intros Hok [Hval Hcov] Hs.
  destruct (search_preserves _ _ _ _ _ Hok Hs) as (_ & Hent & Hle & Hkeys & Horigin).
  split.
  - rewrite Hent. intros e He. apply Hval in He. lia.
  - intros k' Hin. destruct (Hcov k' (Horigin k' Hin)) as (e & He & Hk).
    exists e. rewrite Hent. split; [done|]. rewrite Hkeys by auto. done.
Qed.

End hash_operations.

Section hash_claims.
Import HashViz HashSpec.

Lemma defaultTable_reset : resetHashTable 8 HMap = Ok defaultTable.
Proof. reflexivity. Qed.

Lemma defaultTable_ok :
  table_ok 8 defaultTable /\ collision_ok defaultTable /\ entries_cover defaultTable.
Proof. apply (reset_establishes 8 HMap). exact defaultTable_reset. Qed.

(** C10: for a positive bucket count the hash of every key (the empty one
    included) is a valid bucket index, so insert, remove and search find the
    bucket they index and return without a fault, leaving the number of
    buckets unchanged. *)
Theorem hash_index_in_range bucketSize k h :
  0 < bucketSize -> length (buckets h) = bucketSize ->
  hashFunction bucketSize k < bucketSize /\
  hashFunction bucketSize "" = 0 /\
  is_Some (buckets h !! hashFunction bucketSize k) /\
  (forall v, exists h' ns,
     handleAddEntry bucketSize k v h = Ok (h', ns) /\ length (buckets h') = bucketSize) /\
  (exists h' ns,
     handleRemoveEntry bucketSize k h = Ok (h', ns) /\ length (buckets h') = bucketSize) /\
  (exists h' ns,
     handleSearch bucketSize k h = Ok (h', ns) /\ length (buckets h') = bucketSize).
Proof.
  intros Hpos Hlen.
  destruct (bucket_exists bucketSize k h Hpos Hlen) as [b Hb].
  split_and!; [by apply hashFunction_lt|done|by exists b| | |].
  - intros v. unfold handleAddEntry.
    destruct (_ || _); [by eexists _, _|].
    destruct (existsb _ _); [by eexists _, _|].
    rewrite Hb. unfold copyAll. eexists _, _. split; [reflexivity|].
    simpl. by rewrite length_insert.
  - unfold handleRemoveEntry.
    destruct (isAnimating h); [by eexists _, _|].
    destruct (findIndex _ _ (entries h)); [|by eexists _, _].
    rewrite Hb. eexists _, _. split; [reflexivity|].
    simpl. by rewrite length_insert.
  - unfold handleSearch.
    destruct (_ || _); [by eexists _, _|].
    rewrite Hb. unfold copyAll. cbv beta iota zeta.
    destruct (findIndex _ _ _); eexists _, _; (split; [reflexivity|]);
      simpl; by rewrite length_insert.
Qed.

Lemma hash_index_in_range_witness :
  hashFunction 8 "age" < 8 /\
  exists h' ns, handleSearch 8 "age" defaultTable = Ok (h', ns) /\ length (buckets h') = 8.
Proof.
  destruct (hash_index_in_range 8 "age" defaultTable) as (H1 & _ & _ & _ & _ & H2);
    [lia|reflexivity|].
  split; [exact H1|exact H2].
Defined.

(** Placement and coverage are invariants of the table: [resetHashTable]
    establishes them and insert, remove and search keep them. *)
Lemma table_invariants_kept bucketSize k v h :
  table_ok bucketSize h -> entries_cover h ->
  (forall h' ns, handleAddEntry bucketSize k v h = Ok (h', ns) ->
     table_ok bucketSize h' /\ entries_cover h') /\
  (forall h' ns, handleRemoveEntry bucketSize k h = Ok (h', ns) ->
     table_ok bucketSize h' /\ entries_cover h') /\
  (forall h' ns, handleSearch bucketSize k h = Ok (h', ns) ->
     table_ok bucketSize h' /\ entries_cover h').
Proof.
  intros Hok Hcov. split_and!; intros h' ns Hop.
  - split; [by destruct (insert_preserves _ _ _ _ _ _ Hok Hop)|by eapply insert_cover].
  - split; [by destruct (remove_preserves _ _ _ _ _ Hok Hop)|by eapply remove_cover].
  - split; [by destruct (search_preserves _ _ _ _ _ Hok Hop)|by eapply search_cover].
Qed.






(** C8 as stated fails: after a search has left the found entry [active],
    a completed insert into another bucket leaves a two-entry bucket whose
    entries are not all [collision]. *)
Lemma collision_lost_after_search :
  exists h1 n1 h2,
    handleSearch 8 "age" defaultTable = Ok (h1, n1) /\
    handleAddEntry 8 "a" "1" h1 = Ok (h2, []) /\
    bucketStatuses h2 6 = [("age", HActive); ("job", HCollision)]%string /\
    ~ collisions_marked h2.
Proof.
  eexists _, _, _. split; [vm_compute; reflexivity|].
  split; [vm_compute; reflexivity|]. split; [reflexivity|].
  intros Hcol.
  pose proof (Hcol 6 _ _ eq_refl (list_elem_of_here _ _)) as Hage.
  cbn [length] in Hage. specialize (Hage ltac:(lia)). discriminate Hage.
Qed.

(** C8, as amended: on a table in which the bookkeeping holds - as it does
    after [resetHashTable] - it holds again after every completed insert and
    remove: whenever a bucket holds more than one entry, every entry in it
    is [collision].  An insert that is not rejected gives every entry of its
    bucket the status that the bucket's new size calls for, and a remove
    that leaves at most one entry in its bucket marks what is left
    [default], whatever the statuses were before; so the stronger form, in
    which the entries of the smaller buckets are all [default], is kept as
    well.  In the default table "age" and "job" share bucket 6, both
    [collision]; removing "job" leaves "age" [default]. *)
Theorem collision_bookkeeping bucketSize k v h :
  table_ok bucketSize h -> collisions_marked h ->
  (forall h' ns, handleAddEntry bucketSize k v h = Ok (h', ns) ->
     table_ok bucketSize h' /\ collisions_marked h' /\
     (collision_ok h -> collision_ok h') /\
     (h' = h \/
      forall b r, buckets h' !! hashFunction bucketSize k = Some b -> r ∈ b ->
        status (store h' !!! r) = occupancy (length b))) /\
  (forall h' ns, handleRemoveEntry bucketSize k h = Ok (h', ns) ->
     table_ok bucketSize h' /\ collisions_marked h' /\
     (collision_ok h -> collision_ok h') /\
     (h' = h \/
      forall b r, buckets h' !! hashFunction bucketSize k = Some b -> r ∈ b ->
        length b <= 1 -> status (store h' !!! r) = HDefault)) /\
  (forall bs ty h0, resetHashTable bs ty = Ok h0 ->
     table_ok bs h0 /\ collision_ok h0 /\ collisions_marked h0) /\
  (bucketStatuses defaultTable 6 = [("age", HCollision); ("job", HCollision)]%string /\
   exists h', handleRemoveEntry 8 "job" defaultTable = Ok (h', []) /\
              bucketStatuses h' 6 = [("age", HDefault)]%string).
Proof.
  intros Hok Hcol. split_and!.
  - intros h' ns Hins.
    destruct (insert_preserves _ _ _ _ _ _ Hok Hins) as (? & ? & ?).
    split_and!; [auto..|].
    destruct (insert_effect _ _ _ _ _ _ Hok Hins) as [_ [->|[_ Hown]]]; auto.
  - intros h' ns Hrem.
    destruct (remove_preserves _ _ _ _ _ Hok Hrem) as (? & ? & ?).
    split_and!; [auto..|].
    destruct (remove_effect _ _ _ _ _ Hok Hrem) as [_ [->|[_ Hown]]]; [by left|].
    right. intros b r Hb Hr. by apply Hown.
  - intros bs ty h0 Hreset.
    destruct (reset_establishes bs ty h0 Hreset) as (? & ? & _).
    split_and!; [done..|]. by apply collision_ok_marked.
  - reflexivity.
  - eexists. split; [vm_compute; reflexivity|reflexivity].
Qed.

Lemma collision_bookkeeping_witness :
  table_ok 8 defaultTable /\ collisions_marked defaultTable /\
  exists h',
    handleAddEntry 8 "jbo" "x" defaultTable = Ok (h', []) /\
    table_ok 8 h' /\ collisions_marked h' /\
    bucketStatuses h' 3 = [("name", HCollision); ("jbo", HCollision)]%string.
Proof.
  destruct defaultTable_ok as (Hok & Hcol%collision_ok_marked & _).
  split; [exact Hok|]. split; [exact Hcol|].
  eexists. split; [vm_compute; reflexivity|].
  destruct (collision_bookkeeping 8 "jbo" "x" defaultTable Hok Hcol) as [Hins _].
  destruct (Hins _ [] ltac:(vm_compute; reflexivity)) as (Hok' & Hcol' & _).
  split; [exact Hok'|]. split; [exact Hcol'|]. reflexivity.
Defined.

End hash_claims.

(** ** Linked list *)

Section list_claims.
Import ListViz.

Lemma update_Ok f i l l' :
  update f i l = Ok l' -> l' = alter f i l /\ i < length l.
Proof.
  unfold update. destruct (l !! i) eqn:Hi; [|done].
  intros [= <-]. split; [done|]. by eapply lookup_lt_Some.
Qed.

Lemma resetList_doubly_consistent : links_consistent (nodes (resetList Doubly)).
Proof.
  intros i n j Hi Hn. simpl in Hi.
  destruct i as [|[|[|[|i]]]]; simplify_eq/=; eauto.
Qed.

Lemma lookup_alter_Some (f : Node -> Node) (i : nat) (l : list Node) (i' : nat) n :
  alter f i l !! i' = Some n ->
  exists n0, l !! i' = Some n0 /\ n = if decide (i = i') then f n0 else n0.
Proof.
  rewrite list_lookup_alter. case_decide as Hi.
  - subst. destruct (l !! i') as [n0|]; simpl; [|done]. intros [= <-]. by exists n0.
  - intros Hn. by exists n.
Qed.

Lemma lookup_alter_of (f : Node -> Node) (i : nat) (l : list Node) (j : nat) m :
  l !! j = Some m ->
  alter f i l !! j = Some (if decide (i = j) then f m else m).
Proof.
  intros Hm. rewrite list_lookup_alter. case_decide; subst; by rewrite Hm.
Qed.

(** Changing a status does not touch the links. *)
Lemma links_consistent_status s (i : nat) (l : list Node) :
  links_consistent l -> links_consistent (alter (set_status s) i l).
Proof.
  intros Hcons i' n j Hi Hn.
  apply lookup_alter_Some in Hi as (n0 & Hn0 & ->).
  assert (Hnext : next n0 = Some j) by (by destruct (decide (i = i'))).
  destruct (Hcons i' n0 j Hn0 Hnext) as (m & Hm & Hpm).
  exists (if decide (i = j) then set_status s m else m).
  split; [by apply lookup_alter_of|]. destruct (decide (i = j)); exact Hpm.
Qed.

(** Tail insertion on a doubly linked list keeps the links consistent; it
    renumbers nothing. *)
Lemma addToTail_consistent v st st' :
  listType st = Doubly -> links_consistent (nodes st) ->
  handleAddToTail v st = Ok st' -> links_consistent (nodes st').
Proof.
  intros Hty Hcons. unfold handleAddToTail.
  destruct v as [v|]; [|by intros [= <-]].
  destruct (isAnimating st); [by intros [= <-]|]. rewrite Hty.
  destruct (tail st) as [t|] eqn:Ht.
  - destruct (update (set_next _) t (nodes st)) as [nodes1|] eqn:Hupd; [|done].
    apply update_Ok in Hupd as [-> Hlt].
    destruct (update (set_status NDefault) _ _) as [final|] eqn:Hfin; [|done].
    apply update_Ok in Hfin as [-> _]. intros [= <-]. simpl.
    apply links_consistent_status.
    intros i n j Hi Hn.
    apply lookup_app_Some in Hi as [Hi|[Hge Hi]].
    + apply lookup_alter_Some in Hi as (n0 & Hn0 & ->).
      case_decide as Hit.
      * subst i. simpl in Hn. injection Hn as <-.
        eexists. rewrite lookup_app_r, length_alter, Nat.sub_diag
          by (rewrite length_alter; lia).
        split; [reflexivity|done].
      * destruct (Hcons i n0 j Hn0 Hn) as (m & Hm & Hpm).
        exists (if decide (t = j) then set_next (Some (length (nodes st))) m else m).
        rewrite lookup_app_l by (rewrite length_alter; by eapply lookup_lt_Some).
        split; [by apply lookup_alter_of|]. destruct (decide (t = j)); exact Hpm.
    + apply list_lookup_singleton_Some in Hi as [_ <-]. done.
  - destruct (update (set_status NDefault) _ _) as [final|] eqn:Hfin; [|done].
    apply update_Ok in Hfin as [-> _]. intros [= <-]. simpl.
    apply links_consistent_status.
    intros i n j Hi Hn.
    apply lookup_app_Some in Hi as [Hi|[Hge Hi]].
    + destruct (Hcons i n j Hi Hn) as (m & Hm & Hpm).
      exists m. by rewrite lookup_app_l by (by eapply lookup_lt_Some).
    + apply list_lookup_singleton_Some in Hi as [_ <-]. done.
Qed.

(** C4 at the initial doubly linked list: inserting 5 at the head leaves the
    old head (now at index 1) with [prev] = 1 - its own index - instead of
    0, so [prev(next(0))] is not 0. *)
Theorem head_insert_breaks_prev :
  links_consistent (nodes (resetList Doubly)) /\
  exists st',
    handleAddToHead (Some 5%Z) (resetList Doubly) = Ok st' /\
    next <$> nodes st' !! 0 = Some (Some 1) /\
    prev <$> nodes st' !! 1 = Some (Prev (Some 1)) /\
    ~ links_consistent (nodes st').
Proof.
  split; [exact resetList_doubly_consistent|].
  eexists. split; [reflexivity|]. split; [reflexivity|]. split; [reflexivity|].
  intros Hcons. destruct (Hcons 0 _ 1 eq_refl eq_refl) as (m & Hm & Hpm).
  simpl in Hm. injection Hm as <-. discriminate Hpm.
Qed.

End list_claims.

(** ** Binary search tree *)

Section tree_claims.
Import TreeViz.

Local Open Scope Z_scope.

Lemma filter_all_ne (val : Z) (l : list Z) :
  Forall (fun x => x <> val) l -> filter (fun x => x <> val) l = l.
Proof.
  induction 1 as [|x l Hx Hl IH]; [done|].
  by rewrite filter_cons_True, IH.
Qed.

(** The successor loop returns the first value of the in-order traversal,
    which is below all the others. *)
Lemma leftmost_first l :
  forall i v s r h bf,
    bst (TNode i v s l r h bf) ->
    exists rest,
      inorder (TNode i v s l r h bf) = leftmost v l :: rest /\
      Forall (fun x => leftmost v l < x) rest.
Proof.
  induction l as [|i' v' s' l' IHl r' _ h' bf']; intros i v s r h bf Hbst.
  - simpl in *. destruct Hbst as (_ & _ & _ & Hr). by exists (inorder r).
  - destruct Hbst as (Hbl & Hbr & Hlt & Hgt).
    destruct (IHl i' v' s' r' h' bf' Hbl) as (rest & Hin & Hrest).
    change (leftmost v (TNode i' v' s' l' r' h' bf')) with (leftmost v' l').
    change (inorder (TNode i v s (TNode i' v' s' l' r' h' bf') r h bf))
      with (inorder (TNode i' v' s' l' r' h' bf') ++ v :: inorder r).
    rewrite Hin in Hlt |- *. apply Forall_cons in Hlt as [Hm Hlt].
    exists (rest ++ v :: inorder r). split; [done|].
    apply Forall_app. split; [done|]. constructor; [done|].
    eapply Forall_impl; [exact Hgt|]. simpl. intros x Hx. lia.
Qed.

(** Deletion removes exactly the deleted value from the in-order sequence. *)
Lemma deleteNode_inorder t val :
  bst t -> inorder (deleteNode t val) = filter (fun x => x <> val) (inorder t).
Proof.
  revert val. induction t as [|i v s l IHl r IHr h bf]; intros val Hbst; [done|].
  destruct Hbst as (Hbl & Hbr & Hlt & Hgt).
  assert (Hfl : forall l0 : list Z, Forall (fun x => x < v) l0 -> val >= v ->
            filter (fun x => x <> val) l0 = l0).
  { intros l0 H0 Hv. apply filter_all_ne. eapply Forall_impl; [exact H0|].
    simpl. intros x Hx. lia. }
  assert (Hfr : forall l0 : list Z, Forall (fun x => v < x) l0 -> val <= v ->
            filter (fun x => x <> val) l0 = l0).
  { intros l0 H0 Hv. apply filter_all_ne. eapply Forall_impl; [exact H0|].
    simpl. intros x Hx. lia. }
  cbn [deleteNode inorder]. rewrite filter_app.
  destruct (Z.ltb_spec val v) as [H1|H1].
  - cbn [inorder]. rewrite filter_cons_True by lia.
    rewrite IHl by done. by rewrite (Hfr (inorder r)) by (done || lia).
  - destruct (Z.ltb_spec v val) as [H2|H2].
    + cbn [inorder]. rewrite filter_cons_True by lia.
      rewrite IHr by done. by rewrite (Hfl (inorder l)) by (done || lia).
    + assert (val = v) as -> by lia.
      rewrite filter_cons_False by (intros ?; done).
      rewrite (Hfl (inorder l)), (Hfr (inorder r)) by (done || lia).
      destruct l as [|li lv ls ll lr lh lbf]; destruct r as [|ri rv rs rl rr rh rbf];
        try done.
      * cbn [inorder]. by rewrite app_nil_r.
      * destruct (leftmost_first rl ri rv rs rr rh rbf Hbr) as (rest & Hin & Hrest).
        cbn [inorder]. fold (inorder (TNode ri rv rs rl rr rh rbf)).
        rewrite IHr by done.
        change (inorder rl ++ rv :: inorder rr)
          with (inorder (TNode ri rv rs rl rr rh rbf)).
        rewrite Hin. rewrite filter_cons_False by (intros ?; done).
        rewrite filter_all_ne; [done|].
        eapply Forall_impl; [exact Hrest|]. simpl. intros x Hx. lia.
Qed.

(** The ordering invariant, read off the in-order sequence. *)
Lemma bst_sorted t : bst t <-> StronglySorted Z.lt (inorder t).
Proof.
  induction t as [|i v s l IHl r IHr h bf]; simpl.
  - split; [constructor|done].
  - rewrite StronglySorted_app, StronglySorted_cons, IHl, IHr.
    split.
    + intros (Hl & Hr & Hlt & Hgt). split_and!; [|done..].
      intros x y Hx [->|Hy]%elem_of_cons.
      * by eapply Forall_forall in Hlt.
      * eapply Forall_forall in Hlt; [|done].
        eapply Forall_forall in Hgt; [|done]. lia.
    + intros (Hlt & Hl & Hgt & Hr). split_and!; [done|done| |done].
      apply Forall_forall. intros x Hx. apply (Hlt x v Hx). by left.
Qed.

Lemma sorted_filter_ne (val : Z) (l : list Z) :
  StronglySorted Z.lt l -> StronglySorted Z.lt (filter (fun x => x <> val) l).
Proof.
  induction 1 as [|x l Hs IH Hx]; [constructor|].
  destruct (decide (x <> val)).
  - rewrite filter_cons_True by done. constructor; [done|].
    apply Forall_forall. intros y [_ Hy]%list_elem_of_filter.
    by eapply Forall_forall in Hx.
  - by rewrite filter_cons_False.
Qed.

(** Deletion preserves the ordering invariant. *)
Lemma deleteNode_bst t val : bst t -> bst (deleteNode t val).
Proof.
  intros Hbst. apply bst_sorted. rewrite deleteNode_inorder by done.
  apply sorted_filter_ne. by apply bst_sorted.
Qed.

Lemma scenarioTree_bst : bst scenarioTree.
Proof. vm_compute. repeat split; repeat constructor. Qed.

(** C3: deleting the value of a node with two children puts the in-order
    successor - the first value of the right subtree - into the node and
    deletes that value from the right subtree; the result is ordered and its
    in-order sequence has lost exactly the deleted value.  In the tree built
    from 50, 30, 70, 20, 40, 60, 80, deleting 50 leaves 20, 30, 40, 60, 70,
    80 with 60 at the root. *)
Theorem delete_two_children i v s l r h bf :
  l <> Null -> r <> Null -> bst (TNode i v s l r h bf) ->
  (exists m rest,
     inorder r = m :: rest /\ Forall (fun x => m < x) rest /\
     deleteNode (TNode i v s l r h bf) v = TNode i m s l (deleteNode r m) h bf /\
     inorder (deleteNode r m) = rest) /\
  bst (deleteNode (TNode i v s l r h bf) v) /\
  inorder (deleteNode (TNode i v s l r h bf) v) = inorder l ++ inorder r /\
  (inorder (deleteAndReset scenarioTree 50) = [20; 30; 40; 60; 70; 80] /\
   rootValue (deleteAndReset scenarioTree 50) = Some 60).
Proof.
  intros Hl Hr Hbst. split_and!.
  - destruct Hbst as (Hbl & Hbr & Hlt & Hgt).
    destruct r as [|ri rv rs rl rr rh rbf]; [done|].
    destruct l as [|li lv ls ll lr lh lbf]; [done|].
    destruct (leftmost_first rl ri rv rs rr rh rbf Hbr) as (rest & Hin & Hrest).
    exists (leftmost rv rl), rest. split_and!; [done|done| |].
    + cbn [deleteNode]. by rewrite !Z.ltb_irrefl.
    + rewrite deleteNode_inorder, Hin by done.
      rewrite filter_cons_False by (intros ?; done).
      apply filter_all_ne. eapply Forall_impl; [exact Hrest|].
      simpl. intros x Hx. lia.
  - by apply deleteNode_bst.
  - rewrite deleteNode_inorder by done. destruct Hbst as (Hbl & Hbr & Hlt & Hgt).
    cbn [inorder]. rewrite filter_app, filter_cons_False by (intros ?; done).
    rewrite !filter_all_ne; [done| |].
    + eapply Forall_impl; [exact Hgt|]. simpl. intros x Hx. lia.
    + eapply Forall_impl; [exact Hlt|]. simpl. intros x Hx. lia.
  - reflexivity.
  - reflexivity.
Qed.

Lemma delete_two_children_witness :
  bst scenarioTree /\
  bst (deleteNode scenarioTree 50) /\
  inorder (deleteNode scenarioTree 50) = [20; 30; 40; 60; 70; 80].
Proof.
  split; [exact scenarioTree_bst|].
  let t := eval vm_compute in scenarioTree in
  match t with
  | TNode ?i ?v ?s ?l ?r ?h ?bf =>
      destruct (delete_two_children i v s l r h bf) as (_ & Hb & Hi & _);
        [discriminate|discriminate|exact scenarioTree_bst|]
  end.
  split; [exact Hb|exact Hi].
Defined.

End tree_claims.

(** ** The selection sort of the current visualizer *)

Section selection_run_V2.
Import ArrayViz SortSpec.

Local Ltac below :=
  repeat first
    [ apply agree_below_refl
    | apply agree_below_alter; [lia|]
    | apply agree_below_swapAt; [lia|lia|len|len|] ].

Lemma wp_V2_selectionInner i j m l :
  i <= m -> m < j -> j < length l ->
  wp (V2.selectionInner i j m)
     (fun m' l' =>
        length l' = length l /\ value <$> l' = value <$> l /\ agree_below i l l' /\
        m' = if Z.ltb ((value <$> l) !!! j) ((value <$> l) !!! m) then j else m) l.
Proof.
  intros Him Hmj Hj. unfold V2.selectionInner.
  apply wp_bind, wp_setStatus; [lia|].
  apply wp_bind, wp_pushSnapshot.
  apply wp_bind, wp_getValue; [len|].
  apply wp_bind, wp_getValue; [len|].
  rewrite !vals_total, !vals_alter by len.
  destruct (Z.ltb _ _).
  - apply wp_bind, wp_when; intros _.
    + apply wp_setStatus; [len|]. apply wp_ret.
      split_and!; [len|by rewrite !vals_alter|below|done].
    + apply wp_ret.
      split_and!; [len|by rewrite !vals_alter|below|done].
  - apply wp_bind, wp_setStatus; [len|]. apply wp_ret.
    split_and!; [len|by rewrite !vals_alter|below|done].
Qed.

Lemma wp_V2_selectionScan n i l :
  length l = n -> S i < n ->
  wp (forEachAcc (seq (i + 1) (n - (i + 1))) (V2.selectionInner i) i)
     (fun m l' =>
        length l' = n /\ value <$> l' = value <$> l /\ agree_below i l l' /\
        i <= m < n /\
        forall q b, i <= q -> (value <$> l) !! q = Some b ->
                    ((value <$> l) !!! m <= b)%Z) l.
Proof.
  intros Hn Hi.
  eapply wp_mono.
  { apply (wp_forEachAcc
      (fun k m l' =>
         length l' = n /\ value <$> l' = value <$> l /\ agree_below i l l' /\
         i <= m < i + 1 + k /\
         forall q b, i <= q < i + 1 + k -> (value <$> l) !! q = Some b ->
                     ((value <$> l) !!! m <= b)%Z)).
    - split_and!; [done|done|apply agree_below_refl|lia|lia|].
      intros q b Hq Hb. replace q with i in * by lia.
      apply list_lookup_total_correct in Hb. lia.
    - intros idx j m l' Hidx (Hlen & Hv & Hag & Hm & Hmin).
      apply lookup_seq in Hidx as [-> Hlt].
      eapply wp_mono; [apply wp_V2_selectionInner; lia|].
      intros m' l'' (Hlen'' & Hv'' & Hag'' & ->). rewrite Hv.
      assert (Hj : (value <$> l) !! (i + 1 + idx) = Some ((value <$> l) !!! (i + 1 + idx))).
      { apply list_lookup_lookup_total_lt. rewrite length_fmap. lia. }
      split_and!; [lia|congruence|by eapply agree_below_trans| | |].
      + destruct (Z.ltb _ _); lia.
      + destruct (Z.ltb _ _); lia.
      + intros q b Hq Hb.
        destruct (Z.ltb_spec ((value <$> l) !!! (i + 1 + idx)) ((value <$> l) !!! m)).
        * destruct (decide (q = i + 1 + idx)) as [->|].
          -- apply list_lookup_total_correct in Hb. lia.
          -- assert ((value <$> l) !!! m <= b)%Z by (apply (Hmin q); [lia|done]). lia.
        * destruct (decide (q = i + 1 + idx)) as [->|].
          -- apply list_lookup_total_correct in Hb. lia.
          -- apply (Hmin q); [lia|done]. }
  intros m l' (Hlen & Hv & Hag & Hm & Hmin). rewrite length_seq in Hm, Hmin.
  split_and!; [done|done|done|lia|lia|].
  intros q b Hq Hb. apply (Hmin q); [|done].
  apply lookup_lt_Some in Hb. rewrite length_fmap in Hb. lia.
Qed.

Lemma wp_V2_selectionOuter n i l :
  length l = n -> S i < n ->
  wp (V2.selectionOuter n i)
     (fun _ l' =>
        length l' = n /\ sel_step (value <$> l) (value <$> l') i /\
        agree_below i l l' /\
        forall it, l' !! i = Some it -> status it = SSorted) l.
Proof.
  intros Hn Hi. unfold V2.selectionOuter.
  apply wp_bind, wp_setStatus; [lia|].
  apply wp_bind, wp_pushSnapshot.
  apply wp_bind. eapply wp_mono; [apply (wp_V2_selectionScan n); [len|lia]|].
  intros m l1 (Hlen1 & Hv1 & Hag1 & Hm & Hmin). rewrite vals_alter in Hv1, Hmin.
  assert (Hstep := sel_step_swap (value <$> l) i m ltac:(lia)
                     ltac:(rewrite length_fmap; lia) Hmin).
  apply agree_below_alter with (f := with_status SComparing) (j := i) in Hag1 as Hag;
    [|lia].
  destruct (Nat.eqb_spec m i) as [->|Hmi]; simpl.
  - rewrite decide_True in Hstep by done.
    apply wp_bind, wp_ret.
    apply wp_bind, wp_setStatus; [lia|].
    apply wp_bind, wp_ret.
    apply wp_pushSnapshot.
    split_and!; [len|by rewrite vals_alter, Hv1| |].
    + intros p Hp. rewrite list_lookup_alter_ne by lia.
      rewrite Hag1 by done. by rewrite list_lookup_alter_ne by lia.
    + by intros it [[_ ?]|[? _]]%status_alter_lookup.
  - rewrite decide_False in Hstep by done.
    apply wp_bind, wp_bind, wp_setStatus; [lia|].
    apply wp_bind, wp_setStatus; [len|].
    apply wp_bind, wp_pushSnapshot.
    apply wp_bind, wp_swapFresh; [len|len|lia|].
    apply wp_pushSnapshot.
    apply wp_bind, wp_setStatus; [len|].
    apply wp_bind, wp_setStatus; [len|].
    apply wp_pushSnapshot.
    split_and!; [len| | |].
    + by rewrite !vals_alter, vals_swapAt, !vals_alter, Hv1 by len.
    + intros p Hp. rewrite !list_lookup_alter_ne by lia.
      rewrite swapAt_lookup by len. repeat case_decide; try lia.
      rewrite !list_lookup_alter_ne by lia.
      rewrite Hag1 by done. by rewrite list_lookup_alter_ne by lia.
    + rewrite list_lookup_alter_ne by done.
      by intros it [[_ ?]|[? _]]%status_alter_lookup.
Qed.

Lemma wp_V2_selectionPasses n l :
  length l = n ->
  wp (forEach (seq 0 (n - 1)) (V2.selectionOuter n))
     (fun _ l' =>
        length l' = n /\ sel_inv (value <$> l) (value <$> l') (n - 1) /\
        forall p it, p < n - 1 -> l' !! p = Some it -> status it = SSorted) l.
Proof.
  intros Hn.
  eapply wp_mono.
  { apply (wp_forEach
      (fun i l' =>
         length l' = n /\ sel_inv (value <$> l) (value <$> l') i /\
         forall p it, p < i -> l' !! p = Some it -> status it = SSorted)).
    - split_and!; [done|apply sel_inv_0|]. intros; lia.
    - intros idx i l' Hidx (Hlen & Hinv & Hst).
      apply lookup_seq in Hidx as [-> Hlt]. simpl.
      eapply wp_mono; [apply wp_V2_selectionOuter; [done|lia]|].
      intros [] l'' (Hlen'' & Hstep & Hag & Hi).
      split_and!; [done|by eapply sel_inv_step|].
      intros p it Hp Hit. destruct (decide (p = idx)) as [->|].
      + by apply Hi.
      + rewrite Hag in Hit by lia. apply (Hst p); [lia|done]. }
  intros [] l' H. by rewrite length_seq in H.
Qed.

Lemma wpl_V2_selectionSortM n l :
  length l = n -> 0 < n ->
  wpl (V2.selectionSortM n)
      (fun l' => value <$> l' ≡ₚ value <$> l /\
                 StronglySorted Z.le (value <$> l') /\ all_sorted l') l.
Proof.
  intros Hn Hpos. unfold V2.selectionSortM.
  apply wpl_bind, wp_pushSnapshot.
  apply wpl_bind. eapply wp_mono; [by apply wp_V2_selectionPasses|].
  intros [] l1 (Hlen1 & (Hlenv & Hperm & Hord) & Hst).
  unfold setStatusZ. rewrite (proj2 (Z.ltb_ge _ _)) by lia.
  replace (Z.to_nat (Z.of_nat n - 1)) with (n - 1) by lia.
  apply wpl_bind, wp_setStatus; [lia|].
  apply wpl_pushSnapshot. rewrite vals_alter.
  split_and!; [done| |].
  - apply ordered_upto_sorted. by rewrite length_fmap, Hlen1.
  - apply Forall_lookup. intros p it [[_ ?]|[Hne Hit]]%status_alter_lookup; [done|].
    apply (Hst p); [|done]. apply lookup_lt_Some in Hit. lia.
Qed.

Lemma stable_throw {A} e : stable (@throw A e).
Proof. by intros st a st' _. Qed.

Lemma stable_forEachAcc {A} xs (body : nat -> A -> M A) a :
  (forall i a', stable (body i a')) -> stable (forEachAcc xs body a).
Proof.
  intros Hbody. revert a. induction xs as [|x xs IH]; intros a; simpl.
  - apply stable_ret.
  - apply stable_bind; [apply Hbody|]. intros a'. apply IH.
Qed.

Local Ltac stab :=
  repeat first
    [ apply stable_setStatus | apply stable_pushSnapshot | apply stable_swapFresh
    | apply stable_ret | apply stable_reader | apply stable_throw
    | apply stable_when | apply stable_forEach; intros ?
    | apply stable_forEachAcc; intros ? ?
    | apply stable_bind; [|intros ?]
    | match goal with |- stable (if ?b then _ else _) => destruct b end ].

Lemma stable_V2_selectionRest n :
  stable (forEach (seq 0 (n - 1)) (V2.selectionOuter n) ;;;
          setStatusZ (Z.of_nat n - 1) SSorted ;;;
          pushSnapshot).
Proof.
  unfold V2.selectionOuter, V2.selectionInner, setStatusZ, getValue. stab.
Qed.

End selection_run_V2.

(** ** What every recorded step holds, and how many steps are recorded *)

Section log_content.
Import ArrayViz SortSpec.














End log_content.

Section log_results.
Import ArrayViz SortSpec.












End log_results.

Section log_length.
Import ArrayViz SortSpec.

Lemma records_weaken lo hi lo' hi' {A} (m : M A) :
  records lo hi m -> lo' <= lo -> hi <= hi' -> records lo' hi' m.
Proof. intros Hm Hlo Hhi st a st' E. specialize (Hm _ _ _ E). lia. Qed.

Lemma records_ret {A} (a : A) : records 0 0 (ret a).
Proof. intros st a' st' [= <- <-]. lia. Qed.

Lemma records_throw lo hi {A} e : records lo hi (@throw A e).
Proof. by intros st a st'. Qed.

Lemma records_bind lo1 hi1 lo2 hi2 {A B} (m : M A) (f : A -> M B) :
  records lo1 hi1 m -> (forall a, records lo2 hi2 (f a)) ->
  records (lo1 + lo2) (hi1 + hi2) (bind m f).
Proof.
  intros Hm Hf st b st'. unfold bind.
  destruct (m st) as [[a st1]|] eqn:E1; [|done]. intros E2.
  specialize (Hm _ _ _ E1). specialize (Hf _ _ _ _ E2). lia.
Qed.

Lemma records_when lo hi b m : records lo hi m -> records 0 hi (when b m).
Proof.
  destruct b; simpl; intros Hm.
  - eapply records_weaken; [exact Hm|lia..].
  - eapply records_weaken; [apply records_ret|lia..].
Qed.

Lemma records_forEach (lo hi : nat -> nat) xs body :
  (forall i, records (lo i) (hi i) (body i)) ->
  records (sum_list_with lo xs) (sum_list_with hi xs) (forEach xs body).
Proof.
  intros Hbody. induction xs as [|x xs IH]; simpl.
  - apply records_ret.
  - apply records_bind; [apply Hbody|]. intros _. exact IH.
Qed.

Lemma records_forEachAcc (lo hi : nat) {A} xs (body : nat -> A -> M A) a :
  (forall i a', records lo hi (body i a')) ->
  records (length xs * lo) (length xs * hi) (forEachAcc xs body a).
Proof.
  intros Hbody. revert a. induction xs as [|x xs IH]; intros a; simpl.
  - apply records_ret.
  - apply records_bind; [apply Hbody|]. intros a'. apply IH.
Qed.

Lemma records_reader {A} (g : nat -> SortState -> A) j :
  records 0 0 (bind (itemRef j) (fun r st => Ok (g r st, st))).
Proof.
  intros st a st'. unfold bind, itemRef.
  destruct (copy st !! j); [|done]. intros [= <- <-]. lia.
Qed.

Lemma records_setStatus j s : records 0 0 (setStatus j s).
Proof.
  intros st a st'. unfold setStatus, bind, itemRef.
  destruct (copy st !! j); [|done]. intros [= <- <-]. simpl. lia.
Qed.

Lemma records_swapFresh j k : records 0 0 (swapFresh j k).
Proof.
  intros st a st'. unfold swapFresh, bind, itemRef.
  destruct (copy st !! j); [|done]. destruct (copy st !! k); [|done].
  intros [= <- <-]. simpl. lia.
Qed.

Lemma records_pushSnapshot : records 1 1 pushSnapshot.
Proof. intros st a st' [= <- <-]. simpl. rewrite length_app. simpl. lia. Qed.

Lemma records_pushShallow : records 1 1 pushShallow.
Proof. intros st a st' [= <- <-]. simpl. rewrite length_app. simpl. lia. Qed.

Lemma sum_list_with_const {A} (c : nat) (xs : list A) :
  sum_list_with (fun _ => c) xs = length xs * c.
Proof. induction xs as [|x xs IH]; simpl; [done|]. rewrite IH. lia. Qed.

Lemma sum_list_with_add {A} (f g : A -> nat) xs :
  sum_list_with (fun x => f x + g x) xs = sum_list_with f xs + sum_list_with g xs.
Proof. induction xs as [|x xs IH]; simpl; [done|]. rewrite IH. lia. Qed.

Lemma sum_list_with_mul {A} (c : nat) (f : A -> nat) xs :
  sum_list_with (fun x => c * f x) xs = c * sum_list_with f xs.
Proof. induction xs as [|x xs IH]; simpl; [lia|]. rewrite IH. lia. Qed.

Lemma comparisons_S n : comparisons (S n) = n + comparisons n.
Proof.
  unfold comparisons. cbn [seq sum_list_with]. f_equal; [lia|].
  rewrite <-fmap_S_seq. generalize (seq 0 n). intros xs.
  induction xs as [|x xs IH]; [done|].
  rewrite fmap_cons. cbn [sum_list_with]. rewrite IH. lia.
Qed.

Lemma comparisons_closed n : 2 * comparisons n = n * (n - 1).
Proof.
  induction n as [|n IH]; [done|]. rewrite comparisons_S.
  replace (S n - 1) with n by lia. destruct n; [done|].
  replace (S n - 1) with n in IH by lia. nia.
Qed.

Local Ltac rec :=
  repeat first
    [ apply records_setStatus | apply records_pushSnapshot | apply records_pushShallow
    | apply records_swapFresh | apply records_ret | apply records_reader
    | eapply records_when
    | eapply records_bind; [|intros ?] ].

Lemma records_V1_bubbleInner j : records 1 3 (V1.bubbleInner j).
Proof.
  eapply records_weaken; [unfold V1.bubbleInner, getValue; rec|simpl; lia..].
Qed.

Lemma records_V1_bubbleOuter n i :
  records (n - i - 1 + 1) (3 * (n - i - 1) + 1) (V1.bubbleOuter n i).
Proof.
  eapply records_weaken.
  - unfold V1.bubbleOuter. eapply records_bind; [|intros ?; rec].
    apply (records_forEach (fun _ => 1) (fun _ => 3)). intros j.
    apply records_V1_bubbleInner.
  - rewrite sum_list_with_const, length_seq. simpl. lia.
  - rewrite sum_list_with_const, length_seq. simpl. lia.
Qed.

Lemma records_markAllSorted n :
  records 0 0 (forEach (seq 0 n) (fun i => setStatus i SSorted)).
Proof.
  eapply records_weaken.
  - apply (records_forEach (fun _ => 0) (fun _ => 0)). intros i. rec.
  - rewrite sum_list_with_const. lia.
  - rewrite sum_list_with_const. lia.
Qed.

Lemma records_V1_bubbleSortM n :
  records (comparisons n + n + 2) (3 * comparisons n + n + 2) (V1.bubbleSortM n).
Proof.
  eapply records_weaken.
  - unfold V1.bubbleSortM.
    eapply records_bind; [apply records_pushShallow|intros ?].
    eapply records_bind; [|intros ?].
    { apply (records_forEach (fun i => n - i - 1 + 1) (fun i => 3 * (n - i - 1) + 1)).
      intros i. apply records_V1_bubbleOuter. }
    eapply records_bind; [apply records_markAllSorted|intros ?].
    apply records_pushSnapshot.
  - rewrite (sum_list_with_add (fun i => n - i - 1) (fun _ => 1)).
    rewrite sum_list_with_const, length_seq. fold (comparisons n). lia.
  - rewrite (sum_list_with_add (fun i => 3 * (n - i - 1)) (fun _ => 1)).
    rewrite sum_list_with_mul, sum_list_with_const, length_seq.
    fold (comparisons n). lia.
Qed.

Lemma records_V2_bubbleInner n i j : records 1 3 (V2.bubbleInner n i j).
Proof.
  eapply records_weaken.
  - unfold V2.bubbleInner, V2.resetUnlessSorted, getStatus, getValue.
    repeat (eapply records_bind; [solve [rec]|intros ?]).
    destruct (_ =? _); rec.
  - simpl; lia.
  - simpl; lia.
Qed.

Lemma records_V2_bubbleSortM n :
  records (comparisons n + 2) (3 * comparisons n + 2) (V2.bubbleSortM n).
Proof.
  eapply records_weaken.
  - unfold V2.bubbleSortM.
    eapply records_bind; [apply records_pushSnapshot|intros ?].
    eapply records_bind; [|intros ?].
    { apply (records_forEach (fun i => n - i - 1) (fun i => 3 * (n - i - 1))).
      intros i. eapply records_weaken.
      - apply (records_forEach (fun _ => 1) (fun _ => 3)). intros j.
        apply records_V2_bubbleInner.
      - rewrite sum_list_with_const, length_seq. lia.
      - rewrite sum_list_with_const, length_seq. lia. }
    eapply records_bind; [apply records_markAllSorted|intros ?].
    apply records_pushSnapshot.
  - fold (comparisons n). lia.
  - rewrite sum_list_with_mul. fold (comparisons n). lia.
Qed.

Lemma sum_list_with_pointwise {A} (f g : A -> nat) xs :
  (forall x, f x = g x) -> sum_list_with f xs = sum_list_with g xs.
Proof. intros H. induction xs as [|x xs IH]; simpl; [done|]. by rewrite H, IH. Qed.

Lemma comparisons_selection n :
  sum_list_with (fun i => n - (i + 1)) (seq 0 (n - 1)) = comparisons n.
Proof.
  destruct n as [|n]; [done|]. unfold comparisons.
  replace (S n - 1) with n by lia. rewrite seq_S, sum_list_with_app.
  cbn [sum_list_with]. replace (S n - (0 + n) - 1 + 0) with 0 by lia.
  rewrite Nat.add_0_r. apply sum_list_with_pointwise. intros i. lia.
Qed.

Lemma records_V1_selectionInner i j m : records 2 2 (V1.selectionInner i j m).
Proof.
  eapply records_weaken.
  - unfold V1.selectionInner, getValue.
    do 4 (eapply records_bind; [solve [rec]|intros ?]).
    eapply records_bind; [|intros ?; rec].
    destruct (_ <? _)%Z; rec.
  - simpl; lia.
  - simpl; lia.
Qed.

Lemma records_V2_selectionInner i j m : records 1 1 (V2.selectionInner i j m).
Proof.
  eapply records_weaken.
  - unfold V2.selectionInner, getValue.
    do 4 (eapply records_bind; [solve [rec]|intros ?]).
    destruct (_ <? _)%Z; rec.
  - simpl; lia.
  - simpl; lia.
Qed.

Lemma records_V1_selectionOuter n i :
  records (2 * (n - (i + 1)) + 2) (2 * (n - (i + 1)) + 4) (V1.selectionOuter n i).
Proof.
  eapply records_weaken.
  - unfold V1.selectionOuter.
    do 2 (eapply records_bind; [solve [rec]|intros ?]).
    eapply records_bind; [|intros ?; rec].
    apply (records_forEachAcc 2 2). intros j m. apply records_V1_selectionInner.
  - rewrite length_seq. simpl. lia.
  - rewrite length_seq. simpl. lia.
Qed.

Lemma records_V2_selectionOuter n i :
  records (n - (i + 1) + 2) (n - (i + 1) + 4) (V2.selectionOuter n i).
Proof.
  eapply records_weaken.
  - unfold V2.selectionOuter.
    do 2 (eapply records_bind; [solve [rec]|intros ?]).
    eapply records_bind; [|intros ?; rec].
    apply (records_forEachAcc 1 1). intros j m. apply records_V2_selectionInner.
  - rewrite length_seq. simpl. lia.
  - rewrite length_seq. simpl. lia.
Qed.

Lemma records_setStatusZ z s : records 0 0 (setStatusZ z s).
Proof.
  unfold setStatusZ. destruct (z <? 0)%Z; [apply records_throw|apply records_setStatus].
Qed.

Lemma records_V1_selectionSortM n :
  records (2 * comparisons n + 2 * (n - 1) + 2) (2 * comparisons n + 4 * (n - 1) + 2)
          (V1.selectionSortM n).
Proof.
  eapply records_weaken.
  - unfold V1.selectionSortM.
    eapply records_bind; [apply records_pushShallow|intros ?].
    eapply records_bind; [|intros ?].
    { apply (records_forEach (fun i => 2 * (n - (i + 1)) + 2)
                             (fun i => 2 * (n - (i + 1)) + 4)).
      intros i. apply records_V1_selectionOuter. }
    eapply records_bind; [apply records_setStatusZ|intros ?].
    apply records_pushSnapshot.
  - rewrite (sum_list_with_add (fun i => 2 * (n - (i + 1))) (fun _ => 2)).
    rewrite sum_list_with_mul, sum_list_with_const, length_seq, comparisons_selection.
    lia.
  - rewrite (sum_list_with_add (fun i => 2 * (n - (i + 1))) (fun _ => 4)).
    rewrite sum_list_with_mul, sum_list_with_const, length_seq, comparisons_selection.
    lia.
Qed.

Lemma records_V2_selectionSortM n :
  records (comparisons n + 2 * (n - 1) + 2) (comparisons n + 4 * (n - 1) + 2)
          (V2.selectionSortM n).
Proof.
  eapply records_weaken.
  - unfold V2.selectionSortM.
    eapply records_bind; [apply records_pushSnapshot|intros ?].
    eapply records_bind; [|intros ?].
    { apply (records_forEach (fun i => n - (i + 1) + 2) (fun i => n - (i + 1) + 4)).
      intros i. apply records_V2_selectionOuter. }
    eapply records_bind; [apply records_setStatusZ|intros ?].
    apply records_pushSnapshot.
  - rewrite (sum_list_with_add (fun i => n - (i + 1)) (fun _ => 2)).
    rewrite sum_list_with_const, length_seq, comparisons_selection. lia.
  - rewrite (sum_list_with_add (fun i => n - (i + 1)) (fun _ => 4)).
    rewrite sum_list_with_const, length_seq, comparisons_selection. lia.
Qed.

Lemma runSort_records lo hi m init log :
  records lo hi m -> steps init = [] -> runSort m init = Ok log ->
  lo <= length log <= hi.
Proof.
  intros Hm Hinit. unfold runSort.
  destruct (m init) as [[[] st']|] eqn:E; [|done]. intros [= <-].
  specialize (Hm _ _ _ E). rewrite Hinit in Hm. simpl in Hm.
  unfold readSteps. rewrite length_fmap. lia.
Qed.

End log_length.

(** ** Further properties of the sort step logs *)

Section sort_logs.
Import ArrayViz SortSpec.

Lemma V2_initState_steps array : steps (V2.initState array) = [].
Proof. done. Qed.

Lemma V2_selectionSort_returns array :
  array <> [] ->
  exists log final,
    V2.selectionSort array = Ok log /\
    head log = Some ((fun it => mkItem (value it) SDefault (id it)) <$> array) /\
    last log = Some final /\
    value <$> final ≡ₚ value <$> array /\
    StronglySorted Z.le (value <$> final) /\ all_sorted final.
Proof.
  intros Hne.
  assert (Hpos : 0 < length array) by (destruct array; [done|simpl; lia]).
  set (init := V2.initState array).
  assert (Hlen : length (live init) = length array).
  { unfold init. by rewrite V2_initState_live, length_fmap. }
  destruct (wpl_V2_selectionSortM _ _ Hlen Hpos init (V2_initState_wf array) eq_refl)
    as (st' & E & (Hperm & Hsorted & Hall) & Hlast).
  exists (readSteps st'), (live st').
  assert (Hvals : value <$> live init = value <$> array).
  { unfold init. rewrite V2_initState_live, <-list_fmap_compose. done. }
  rewrite Hvals in Hperm.
  split_and!; [unfold V2.selectionSort, runSort; fold init; by rewrite E| |done..].
  destruct (first_snapshot init (V2_initState_wf array) eq_refl)
    as (st1 & E1 & Hfr1 & Hone).
  unfold V2.selectionSortM in E. rewrite (bind_ok _ _ _ _ _ E1) in E.
  destruct (stable_V2_selectionRest (length array) st1 tt st' Hfr1 E) as [_ [ext Hext]].
  rewrite Hext, Hone. simpl. f_equal. apply V2_initState_live.
Qed.







(** X5: the number of steps a bubble sort records.  With [c = n(n-1)/2]
    compare-and-swaps on [n] items, the older visualizer records between
    [c + n + 2] and [3c + n + 2] steps (one per comparison, two more per
    swap, one per pass, the initial and the final one), the current one
    between [c + 2] and [3c + 2]. *)
Theorem bubbleSort_step_count array :
  2 * comparisons (length array) = length array * (length array - 1) /\
  (exists log,
     V1.bubbleSort array = Ok log /\
     comparisons (length array) + length array + 2 <= length log
       <= 3 * comparisons (length array) + length array + 2) /\
  (exists log,
     V2.bubbleSort array = Ok log /\
     comparisons (length array) + 2 <= length log
       <= 3 * comparisons (length array) + 2).
Proof.
  split; [apply comparisons_closed|]. split.
  - destruct (bubbleSort_last array) as (log & _ & E & _). exists log.
    split; [done|]. apply (runSort_records _ _ (V1.bubbleSortM (length array)) (V1.initState array));
      [apply records_V1_bubbleSortM|done|exact E].
  - destruct (V2_bubbleSort_log array) as (log & _ & E & _). exists log.
    split; [done|]. apply (runSort_records _ _ (V2.bubbleSortM (length array)) (V2.initState array));
      [apply records_V2_bubbleSortM|done|exact E].
Qed.

(** X6: the number of steps a selection sort records on a non-empty array
    of [n] items, with [c = n(n-1)/2]: between [2c + 2(n-1) + 2] and
    [2c + 4(n-1) + 2] in the older visualizer (two steps per comparison),
    between [c + 2(n-1) + 2] and [c + 4(n-1) + 2] in the current one. *)
Theorem selectionSort_step_count array :
  array <> [] ->
  (exists log,
     V1.selectionSort array = Ok log /\
     2 * comparisons (length array) + 2 * (length array - 1) + 2 <= length log
       <= 2 * comparisons (length array) + 4 * (length array - 1) + 2) /\
  (exists log,
     V2.selectionSort array = Ok log /\
     comparisons (length array) + 2 * (length array - 1) + 2 <= length log
       <= comparisons (length array) + 4 * (length array - 1) + 2).
Proof.
  intros Hne. split.
  - destruct (selectionSort_last array Hne) as (log & _ & E & _). exists log.
    split; [done|]. apply (runSort_records _ _ (V1.selectionSortM (length array)) (V1.initState array));
      [apply records_V1_selectionSortM|done|exact E].
  - destruct (V2_selectionSort_returns array Hne) as (log & _ & E & _). exists log.
    split; [done|]. apply (runSort_records _ _ (V2.selectionSortM (length array)) (V2.initState array));
      [apply records_V2_selectionSortM|done|exact E].
Qed.

Lemma selectionSort_step_count_witness :
  input312 <> [] /\
  exists log,
    V1.selectionSort input312 = Ok log /\
    2 * comparisons 3 + 2 * 2 + 2 <= length log <= 2 * comparisons 3 + 4 * 2 + 2.
Proof.
  split; [discriminate|].
  apply (selectionSort_step_count input312). discriminate.
Defined.

End sort_logs.

(** ** Further properties of the step transport *)

Section transport_runs.
Import ArrayViz SortSpec.

Lemma commands_app cs cs' p :
  commands (cs ++ cs') p =
  match commands cs p with Ok p' => commands cs' p' | Throw e => Throw e end.
Proof.
  revert p. induction cs as [|c cs IH]; intros p; simpl; [done|].
  destruct (command c p); [apply IH|done].
Qed.

(** The sort that play starts returns a log of at least two steps whose last
    step is the sorted input. *)
Lemma getCurrentSortAlgorithm_returns p :
  array p <> [] ->
  exists log final,
    getCurrentSortAlgorithm p = Ok log /\ 2 <= length log /\
    last log = Some final /\
    value <$> final ≡ₚ value <$> array p /\
    StronglySorted Z.le (value <$> final) /\ all_sorted final.
Proof.
  intros Hne. unfold getCurrentSortAlgorithm.
  assert (Hb : exists log final,
    V1.bubbleSort (array p) = Ok log /\ 2 <= length log /\
    last log = Some final /\
    value <$> final ≡ₚ value <$> array p /\
    StronglySorted Z.le (value <$> final) /\ all_sorted final).
  { destruct (bubbleSort_last (array p)) as (log & final & E & Hlast & HQ).
    exists log, final. split_and!; [done| |done|apply HQ..].
    pose proof (runSort_records _ _ (V1.bubbleSortM (length (array p)))
                  (V1.initState (array p)) log (records_V1_bubbleSortM _) eq_refl E).
    lia. }
  destruct (selectedAlgorithm p); try exact Hb.
  destruct (selectionSort_last (array p) Hne) as (log & final & E & Hlast & HQ).
  exists log, final. split_and!; [done| |done|apply HQ..].
  pose proof (runSort_records _ _ (V1.selectionSortM (length (array p)))
                (V1.initState (array p)) log (records_V1_selectionSortM _) eq_refl E).
  lia.
Qed.

Lemma ticks_playing a alg log c T k :
  c + k < length log ->
  commands (replicate k Tick) (mkPlayer a alg log c T true false)
  = Ok (mkPlayer (match k with 0 => a | S _ => default [] (log !! (c + k)) end)
                 alg log (c + k) T true false).
Proof.
  revert a c. induction k as [|k IH]; intros a c Hk.
  - simpl. by rewrite Nat.add_0_r.
  - cbn [replicate commands command]. unfold animate, lastIndex.
    cbn [isPlaying negb currentStep stepsRef].
    rewrite (proj2 (Z.ltb_lt _ _)) by lia.
    unfold showStep. cbn [stepsRef selectedAlgorithm totalSteps isPlaying isCompleted].
    rewrite IH by lia.
    replace (c + 1 + k) with (c + S k) by lia.
    by destruct k.
Qed.

Lemma ticks_idle k p : isPlaying p = false -> commands (replicate k Tick) p = Ok p.
Proof.
  intros Hp. induction k as [|k IH]; [done|].
  cbn [replicate commands command]. unfold animate. rewrite Hp. exact IH.
Qed.

Lemma ticks_finish a alg log c T k :
  c < length log -> length log <= c + k ->
  commands (replicate k Tick) (mkPlayer a alg log c T true false)
  = Ok (mkPlayer (if decide (c = length log - 1) then a
                  else default [] (log !! (length log - 1)))
                 alg log (length log - 1) T false true).
Proof.
  intros Hc Hk.
  replace k with ((length log - 1 - c) + S (k - (length log - c))) by lia.
  rewrite replicate_add, commands_app, ticks_playing by lia.
  cbn [replicate commands command]. unfold animate, lastIndex.
  cbn [isPlaying negb currentStep stepsRef].
  rewrite (proj2 (Z.ltb_ge _ _)) by lia.
  rewrite ticks_idle by done.
  unfold setPlaying, setCompleted. cbn. f_equal.
  replace (c + (length log - 1 - c)) with (length log - 1) by lia.
  f_equal. case_decide as Hd.
  - by replace (length log - 1 - c) with 0 by lia.
  - destruct (length log - 1 - c) eqn:Hz; [lia|done].
Qed.

Lemma play_starts p log :
  array p <> [] -> isPlaying p = false -> isCompleted p = false ->
  length (stepsRef p) <= 1 -> getCurrentSortAlgorithm p = Ok log ->
  clickPlayPause p
  = Ok (mkPlayer (array p) (selectedAlgorithm p) log (currentStep p)
                 (length log - 1) true false).
Proof.
  intros Hne Hplay Hdone Hlen Hlog. unfold clickPlayPause.
  destruct (Nat.eqb_spec (length (array p)) 0) as [Hz|_].
  { by apply nil_length_inv in Hz. }
  rewrite Hplay. unfold playVisualization. rewrite Hplay, Hdone. simpl.
  unfold generateSteps. cbn [stepsRef setPlaying].
  rewrite (proj2 (Nat.leb_le _ _)) by done.
  replace (getCurrentSortAlgorithm _) with (getCurrentSortAlgorithm p) by done.
  rewrite Hlog. simpl. by rewrite Hdone.
Qed.

(** From an idle player without a generated log, play and enough timer
    ticks end on the last step of the selected sort. *)
Lemma play_finishes p :
  array p <> [] -> isPlaying p = false -> isCompleted p = false ->
  currentStep p = 0 -> length (stepsRef p) <= 1 ->
  exists log final,
    getCurrentSortAlgorithm p = Ok log /\ last log = Some final /\
    value <$> final ≡ₚ value <$> array p /\
    StronglySorted Z.le (value <$> final) /\ all_sorted final /\
    (forall k, length log <= k ->
       commands (PlayPause :: replicate k Tick) p
       = Ok (mkPlayer final (selectedAlgorithm p) log (length log - 1)
                      (length log - 1) false true)).
Proof.
  intros Hne Hplay Hdone Hzero Hlen.
  destruct (getCurrentSortAlgorithm_returns p Hne)
    as (log & final & Hlog & H2 & Hlast & Hperm & Hsorted & Hall).
  exists log, final. split_and!; [done..|].
  intros k Hk. cbn [commands command]. rewrite (play_starts p log) by done.
  rewrite Hzero, ticks_finish by lia.
  rewrite decide_False by lia.
  rewrite last_lookup in Hlast.
  replace (length log - 1) with (pred (length log)) by lia.
  by rewrite Hlast.
Qed.

(** X7: playing an animation through.  On a player that has not generated
    its log yet (freshly mounted or reset), with a non-empty array, the play
    button runs the selected sort once; after [k] due timer ticks the player
    shows step [k] of the log, and from the tick after the last step on it is
    completed, stopped, and shows the last step: the array's values in
    non-decreasing order, all marked [sorted]. *)
Theorem play_runs_to_completion p :
  array p <> [] -> isPlaying p = false -> isCompleted p = false ->
  currentStep p = 0 -> length (stepsRef p) <= 1 ->
  exists log final,
    getCurrentSortAlgorithm p = Ok log /\ last log = Some final /\
    value <$> final ≡ₚ value <$> array p /\
    StronglySorted Z.le (value <$> final) /\ all_sorted final /\
    (forall k step, log !! S k = Some step ->
       commands (PlayPause :: replicate (S k) Tick) p
       = Ok (mkPlayer step (selectedAlgorithm p) log (S k) (length log - 1) true false)) /\
    (forall k, length log <= k ->
       commands (PlayPause :: replicate k Tick) p
       = Ok (mkPlayer final (selectedAlgorithm p) log (length log - 1)
                      (length log - 1) false true)).
Proof.
  intros Hne Hplay Hdone Hzero Hlen.
  destruct (getCurrentSortAlgorithm_returns p Hne)
    as (log & final & Hlog & H2 & Hlast & Hperm & Hsorted & Hall).
  exists log, final. split_and!; [done..| |].
  - intros k step Hstep. apply lookup_lt_Some in Hstep as Hk.
    cbn [commands command]. rewrite (play_starts p log) by done.
    rewrite Hzero, ticks_playing by lia. simpl. by rewrite Hstep.
  - intros k Hk. cbn [commands command]. rewrite (play_starts p log) by done.
    rewrite Hzero, ticks_finish by lia.
    rewrite decide_False by lia.
    rewrite last_lookup in Hlast.
    replace (length log - 1) with (pred (length log)) by lia.
    by rewrite Hlast.
Qed.

Lemma play_runs_to_completion_witness :
  exists log final,
    getCurrentSortAlgorithm (mount [3; 1; 2]%Z) = Ok log /\ last log = Some final /\
    value <$> final ≡ₚ [3; 1; 2]%Z /\
    commands (PlayPause :: replicate (length log) Tick) (mount [3; 1; 2]%Z)
    = Ok (mkPlayer final BubbleSort log (length log - 1) (length log - 1) false true).
Proof.
  destruct (play_runs_to_completion (mount [3; 1; 2]%Z))
    as (log & final & Hlog & Hlast & Hperm & _ & _ & _ & Hend);
    [discriminate|reflexivity|reflexivity|reflexivity|simpl; lia|].
  exists log, final. split_and!; [done..|]. by apply Hend.
Defined.

(** X8: a transport that has completed stays as it is: the play button,
    both step buttons and the timer ticks all leave the player unchanged,
    whatever the order in which they come. *)
Theorem completed_is_final cs p :
  isCompleted p = true -> isPlaying p = false -> commands cs p = Ok p.
Proof.
  intros Hdone Hplay. induction cs as [|c cs IH]; [done|].
  cbn [commands].
  assert (Hc : command c p = Ok p); [|by rewrite Hc].
  destruct c; simpl.
  - unfold clickStepForward, handleStepForward, onStep, stepVisualization.
    rewrite Hplay, Hdone. simpl. by destruct (_ || _).
  - unfold clickStepBackward, handleStepBackward, onStep, stepVisualization.
    rewrite Hplay, Hdone. simpl. by destruct (_ || _).
  - unfold clickPlayPause, playVisualization. rewrite Hplay, Hdone. simpl.
    by destruct (_ =? _).
  - unfold animate. by rewrite Hplay.
Qed.

Lemma completed_is_final_witness :
  exists p,
    commands (PlayPause :: replicate 12 Tick) (mount [3; 1; 2]%Z) = Ok p /\
    commands [StepBackward; PlayPause; Tick; StepForward] p = Ok p.
Proof.
  eexists. split; [vm_compute; reflexivity|].
  apply completed_is_final; reflexivity.
Defined.

(** X9: reset makes any player - completed, paused or running - playable
    again for the new array: after [resetVisualization] with a non-empty
    array, play followed by enough timer ticks ends completed on the new
    array's values in non-decreasing order, all marked [sorted]. *)
Theorem reset_then_play values q :
  values <> [] ->
  exists log final,
    (forall k, length log <= k ->
       commands (PlayPause :: replicate k Tick) (resetVisualization values q)
       = Ok (mkPlayer final (selectedAlgorithm q) log (length log - 1)
                      (length log - 1) false true)) /\
    value <$> final ≡ₚ values /\
    StronglySorted Z.le (value <$> final) /\ all_sorted final.
Proof.
  intros Hne.
  destruct (play_finishes (resetVisualization values q))
    as (log & final & Hlog & Hlast & Hperm & Hsorted & Hall & Hend);
    [|reflexivity|reflexivity|reflexivity|simpl; lia|].
  { simpl. by destruct values. }
  exists log, final. split_and!; [exact Hend| |done..].
  rewrite Hperm. simpl. rewrite <-list_fmap_compose.
  replace (_ <$> values) with values; [done|].
  apply list_eq; intros i. rewrite list_lookup_fmap. by destruct (values !! i).
Qed.

Lemma reset_then_play_witness :
  exists p log final,
    commands (PlayPause :: replicate 12 Tick) (mount [3; 1; 2]%Z) = Ok p /\
    isCompleted p = true /\
    commands (PlayPause :: replicate (length log) Tick) (resetVisualization [2; 1]%Z p)
    = Ok (mkPlayer final BubbleSort log (length log - 1) (length log - 1) false true) /\
    value <$> final ≡ₚ [2; 1]%Z.
Proof.
  eexists. 
  destruct (reset_then_play [2; 1]%Z
              (mkPlayer [item 1 SSorted; item 2 SSorted; item 3 SSorted] BubbleSort
                        [] 11 11 false true))
    as (log & final & Hend & Hperm & _); [discriminate|].
  exists log, final. split; [vm_compute; reflexivity|]. split; [reflexivity|].
  split; [|exact Hperm]. by apply Hend.
Defined.

(** X10: the step handler never starts a sort.  [stepVisualization] returns
    without a fault, leaves the step log and [totalSteps] as they are and
    never moves the position backwards; on a player whose log has at most one
    step (freshly mounted or reset, before the first play) it does nothing. *)
Theorem step_never_generates p :
  exists p',
    stepVisualization p = Ok p' /\
    stepsRef p' = stepsRef p /\ totalSteps p' = totalSteps p /\
    currentStep p <= currentStep p' <= currentStep p + 1 /\
    (length (stepsRef p) <= 1 -> p' = p).
Proof.
  unfold stepVisualization, lastIndex.
  destruct (isCompleted p) eqn:Hdone; simpl.
  { exists p. split_and!; [done..|lia|lia|done]. }
  destruct (Z.leb_spec (Z.of_nat (length (stepsRef p)) - 1) (Z.of_nat (currentStep p)))
    as [Hle|Hgt].
  { exists p. split_and!; [done..|lia|lia|done]. }
  unfold generateSteps. rewrite (proj2 (Nat.leb_gt _ _)) by lia.
  eexists. split; [reflexivity|].
  split_and!; [by destruct (_ =? _)%Z..| | |lia].
  - destruct (_ =? _)%Z; simpl; lia.
  - destruct (_ =? _)%Z; simpl; lia.
Qed.

(** X11: pausing and resuming loses nothing.  On a player that is playing a
    generated log, pause followed by play gives back the same player: same
    log, same position, no new run of the sort. *)
Theorem pause_resume p :
  isPlaying p = true -> isCompleted p = false -> array p <> [] ->
  1 < length (stepsRef p) ->
  commands [PlayPause; PlayPause] p = Ok p.
Proof.
  intros Hplay Hdone Hne Hlen. cbn [commands command].
  unfold clickPlayPause at 1.
  destruct (Nat.eqb_spec (length (array p)) 0) as [Hz|_].
  { by apply nil_length_inv in Hz. }
  rewrite Hplay. unfold pauseVisualization. rewrite Hplay. simpl.
  unfold clickPlayPause. cbn [array setPlaying isPlaying].
  destruct (Nat.eqb_spec (length (array p)) 0) as [Hz|_].
  { by apply nil_length_inv in Hz. }
  unfold playVisualization, generateSteps. destruct p; simpl in *. subst.
  by rewrite (proj2 (Nat.leb_gt _ _)) by lia.
Qed.

Lemma pause_resume_witness :
  exists p,
    commands [PlayPause; Tick; Tick] (mount [3; 1; 2]%Z) = Ok p /\
    currentStep p = 2 /\
    commands [PlayPause; PlayPause] p = Ok p.
Proof.
  eexists. split; [vm_compute; reflexivity|]. split; [reflexivity|].
  apply pause_resume; [reflexivity|reflexivity|discriminate|simpl; lia].
Defined.

End transport_runs.

(** ** Further properties of the binary tree *)

Section tree_inserts.
Import TreeViz TreeSpec.

Lemma filter_all {A} (P : A -> Prop) `{!forall x, Decision (P x)} (l : list A) :
  Forall P l -> filter P l = l.
Proof.
  induction 1 as [|x l Hx Hl IH]; [done|]. by rewrite filter_cons_True, IH.
Qed.

Lemma filter_none {A} (P : A -> Prop) `{!forall x, Decision (P x)} (l : list A) :
  Forall (fun x => ~ P x) l -> filter P l = [].
Proof.
  induction 1 as [|x l Hx Hl IH]; [done|]. by rewrite filter_cons_False, IH.
Qed.

Lemma heightOr0_depth t : heights_ok t -> heightOr0 t = depth t.
Proof. destruct t; simpl; [done|]. by intros (_ & _ & ->). Qed.

(** The in-order sequence after an insertion: the smaller values, the new
    value, the larger values. *)
Lemma insertNodeDirectly_inorder newId t v :
  bst t ->
  inorder (insertNodeDirectly newId t v)
  = filter (fun x => (x < v)%Z) (inorder t) ++ v :: filter (fun x => (v < x)%Z) (inorder t).
Proof.
  induction t as [|i nv s l IHl r IHr h bf]; [done|].
  intros (Hbl & Hbr & Hl & Hr). simpl.
  rewrite !filter_app, !filter_cons.
  destruct (Z.ltb_spec v nv) as [Hlt|Hge]; [|destruct (Z.ltb_spec nv v) as [Hgt|Hle]].
  - simpl. rewrite IHl by done.
    rewrite decide_False, decide_True by lia.
    rewrite (filter_none (fun x => (x < v)%Z) (inorder r)),
            (filter_all (fun x => (v < x)%Z) (inorder r)).
    + by rewrite <-!app_assoc.
    + eapply Forall_impl; [exact Hr|]. simpl. lia.
    + eapply Forall_impl; [exact Hr|]. simpl. lia.
  - simpl. rewrite IHr by done.
    rewrite decide_True, decide_False by lia.
    rewrite (filter_all (fun x => (x < v)%Z) (inorder l)),
            (filter_none (fun x => (v < x)%Z) (inorder l)).
    + by rewrite <-!app_assoc.
    + eapply Forall_impl; [exact Hl|]. simpl. lia.
    + eapply Forall_impl; [exact Hl|]. simpl. lia.
  - assert (v = nv) as -> by lia. simpl.
    rewrite !decide_False by lia.
    rewrite (filter_all (fun x => (x < nv)%Z) (inorder l)) by done.
    rewrite (filter_none (fun x => (nv < x)%Z) (inorder l)).
    + rewrite (filter_none (fun x => (x < nv)%Z) (inorder r)),
              (filter_all (fun x => (nv < x)%Z) (inorder r)); [|done|].
      * by rewrite app_nil_r.
      * eapply Forall_impl; [exact Hr|]. simpl. lia.
    + eapply Forall_impl; [exact Hl|]. simpl. lia.
Qed.

Lemma insertNodeDirectly_elem newId t v x :
  bst t ->
  x ∈ inorder (insertNodeDirectly newId t v) <-> x = v \/ x ∈ inorder t.
Proof.
  intros Hb. rewrite insertNodeDirectly_inorder by done.
  rewrite elem_of_app, elem_of_cons, !list_elem_of_filter.
  split.
  - intros [[_ ?]|[->|[_ ?]]]; auto.
  - intros [->|Hx]; [auto|].
    destruct (Z.lt_trichotomy x v) as [?|[->|?]]; auto.
Qed.

Lemma insertNodeDirectly_bst newId t v : bst t -> bst (insertNodeDirectly newId t v).
Proof.
  induction t as [|i nv s l IHl r IHr h bf]; [by repeat split|].
  intros (Hbl & Hbr & Hl & Hr). simpl.
  destruct (Z.ltb_spec v nv) as [Hlt|Hge]; [|destruct (Z.ltb_spec nv v) as [Hgt|Hle]].
  - simpl. split_and!; [auto|done| |done].
    apply Forall_forall. intros x [->|Hx]%insertNodeDirectly_elem; [done| |done].
    by eapply Forall_forall in Hl.
  - simpl. split_and!; [done|auto|done|].
    apply Forall_forall. intros x [->|Hx]%insertNodeDirectly_elem; [done| |done].
    by eapply Forall_forall in Hr.
  - by repeat split.
Qed.

Lemma insertNodeDirectly_present newId t v :
  bst t -> heights_ok t -> v ∈ inorder t -> insertNodeDirectly newId t v = t.
Proof.
  induction t as [|i nv s l IHl r IHr h bf]; [by intros _ _ ?%elem_of_nil|].
  intros (Hbl & Hbr & Hl & Hr) (Hhl & Hhr & ->) Hin. simpl in *.
  apply elem_of_app in Hin as [Hin|[->|Hin]%elem_of_cons].
  - eapply Forall_forall in Hl as Hlt; [|exact Hin].
    rewrite (proj2 (Z.ltb_lt _ _)) by done. rewrite IHl by done.
    rewrite !heightOr0_depth by done. f_equal. lia.
  - by rewrite !Z.ltb_irrefl.
  - eapply Forall_forall in Hr as Hgt; [|exact Hin].
    rewrite (proj2 (Z.ltb_ge _ _)), (proj2 (Z.ltb_lt _ _)) by lia. rewrite IHr by done.
    rewrite !heightOr0_depth by done. done.
Qed.

Lemma insertNodeDirectly_heights newId t v :
  heights_ok t -> heights_ok (insertNodeDirectly newId t v).
Proof.
  induction t as [|i nv s l IHl r IHr h bf]; [done|].
  intros (Hl & Hr & Hh). simpl.
  destruct (v <? nv)%Z; [|destruct (nv <? v)%Z].
  - simpl. split_and!; [auto|done|].
    rewrite !heightOr0_depth by auto. lia.
  - simpl. split_and!; [done|auto|].
    rewrite !heightOr0_depth by auto. lia.
  - done.
Qed.

(** X12: direct insertion into a search tree.  The result is a search tree
    again; its in-order sequence is that of the old tree with the new value
    put in its place (the smaller values, the value, the larger ones); the
    [height] fields stay equal to the depths of their subtrees; and on such
    a tree a value that is already there leaves the tree as it is. *)
Theorem insertNodeDirectly_correct newId t v :
  bst t ->
  bst (insertNodeDirectly newId t v) /\
  inorder (insertNodeDirectly newId t v)
    = filter (fun x => (x < v)%Z) (inorder t) ++ v :: filter (fun x => (v < x)%Z) (inorder t) /\
  (forall x, x ∈ inorder (insertNodeDirectly newId t v) <-> x = v \/ x ∈ inorder t) /\
  (heights_ok t ->
     heights_ok (insertNodeDirectly newId t v) /\
     (v ∈ inorder t -> insertNodeDirectly newId t v = t)).
Proof.
  intros Hb. split_and!.
  - by apply insertNodeDirectly_bst.
  - by apply insertNodeDirectly_inorder.
  - intros x. by apply insertNodeDirectly_elem.
  - intros Hh. split; [by apply insertNodeDirectly_heights|].
    by apply insertNodeDirectly_present.
Qed.

Lemma insertNodeDirectly_correct_witness :
  bst scenarioTree /\
  inorder (insertNodeDirectly "n65" scenarioTree 65)
    = [20; 30; 40; 50; 60; 65; 70; 80]%Z /\
  insertNodeDirectly "again" scenarioTree 60 = scenarioTree.
Proof.
  split; [exact scenarioTree_bst|].
  destruct (insertNodeDirectly_correct "n65" scenarioTree 65 scenarioTree_bst)
    as (_ & Hin & _).
  split; [rewrite Hin; reflexivity|reflexivity].
Defined.

Lemma deleteNode_absent t v : v ∉ inorder t -> deleteNode t v = t.
Proof.
  induction t as [|i nv s l IHl r IHr h bf]; [done|].
  simpl. intros Hnot.
  assert (v ∉ inorder l) by (intros ?; apply Hnot, elem_of_app; auto).
  assert (v ∉ inorder r).
  { intros ?. apply Hnot, elem_of_app. right. by apply list_elem_of_further. }
  assert (v <> nv).
  { intros ->. apply Hnot, elem_of_app. right. apply list_elem_of_here. }
  destruct (Z.ltb_spec v nv); [by rewrite IHl|].
  destruct (Z.ltb_spec nv v); [by rewrite IHr|lia].
Qed.

Lemma inorder_shape t : inorder (shape t) = inorder t.
Proof. induction t as [|i nv s l IHl r IHr h bf]; simpl; [done|]. by rewrite IHl, IHr. Qed.

Lemma insert_delete_shape newId t v :
  v ∉ inorder t -> shape (deleteNode (insertNodeDirectly newId t v) v) = shape t.
Proof.
  induction t as [|i nv s l IHl r IHr h bf].
  - intros _. simpl. by rewrite Z.ltb_irrefl.
  - simpl. intros Hnot.
    assert (v ∉ inorder l) by (intros ?; apply Hnot, elem_of_app; auto).
    assert (v ∉ inorder r).
    { intros ?. apply Hnot, elem_of_app. right. by apply list_elem_of_further. }
    assert (v <> nv).
    { intros ->. apply Hnot, elem_of_app. right. apply list_elem_of_here. }
    destruct (Z.ltb_spec v nv) as [Hlt|Hge].
    + simpl. rewrite (proj2 (Z.ltb_lt _ _)) by done. simpl. by rewrite IHl.
    + destruct (Z.ltb_spec nv v) as [Hgt|Hle]; [|lia].
      simpl. rewrite (proj2 (Z.ltb_ge _ _)), (proj2 (Z.ltb_lt _ _)) by lia.
      simpl. by rewrite IHr.
Qed.

(** X13: deleting what is not there, and undoing an insertion.  [deleteNode]
    with a value that does not occur in the tree returns the tree as it is.
    Deleting a value right after its direct insertion gives back the old
    tree - ids, values, statuses and structure - up to the [height] fields,
    which [deleteNode] never recomputes: a leaf that got and lost a child
    keeps height 2. *)
Theorem delete_undoes_insert newId t v :
  v ∉ inorder t ->
  deleteNode t v = t /\
  shape (deleteNode (insertNodeDirectly newId t v) v) = shape t /\
  inorder (deleteNode (insertNodeDirectly newId t v) v) = inorder t /\
  (forall i a s bf, t = TNode i a s Null Null 1 bf ->
     deleteNode (insertNodeDirectly newId t v) v = TNode i a s Null Null 2 bf).
Proof.
  intros Hnot. split_and!.
  - by apply deleteNode_absent.
  - by apply insert_delete_shape.
  - by rewrite <-inorder_shape, insert_delete_shape, inorder_shape.
  - intros i a s bf ->. simpl in *.
    assert (v <> a) by (intros ->; apply Hnot, list_elem_of_here).
    destruct (Z.ltb_spec v a) as [Hlt|Hge]; simpl.
    + rewrite (proj2 (Z.ltb_lt v a)) by lia. simpl. by rewrite Z.ltb_irrefl.
    + rewrite (proj2 (Z.ltb_lt a v)) by lia. simpl.
      rewrite (proj2 (Z.ltb_ge v a)), (proj2 (Z.ltb_lt a v)) by lia. simpl.
      by rewrite Z.ltb_irrefl.
Qed.

Lemma delete_undoes_insert_witness :
  ~ (65%Z ∈ inorder scenarioTree) /\
  shape (deleteNode (insertNodeDirectly "n65" scenarioTree 65) 65) = shape scenarioTree.
Proof.
  assert (H : 65%Z ∉ inorder scenarioTree).
  { vm_compute. intros Hin. repeat (apply elem_of_cons in Hin as [Hin|Hin]; [discriminate|]).
    by apply elem_of_nil in Hin. }
  split; [exact H|]. by destruct (delete_undoes_insert "n65" scenarioTree 65 H) as (_ & ? & _).
Defined.

End tree_inserts.

Section tree_random.
Import TreeViz TreeSpec.

Variable ids : Z -> string.

Lemma handleInsertDirect_valid x t :
  valid x -> handleInsertDirect (ids x) x t = insertNodeDirectly (ids x) t x.
Proof.
  intros [H1 H2]. unfold handleInsertDirect.
  by rewrite (proj2 (Z.ltb_ge _ _)), (proj2 (Z.ltb_ge _ _)) by lia.
Qed.

Lemma insertBalanced_fold fuel arr start end_ root :
  insertBalanced fuel ids arr start end_ root
  = foldl (fun t x => handleInsertDirect (ids x) x t) root
          (insertionOrder fuel arr start end_).
Proof.
  revert start end_ root. induction fuel as [|fuel IH]; intros start end_ root; [done|].
  simpl. destruct (end_ <? start)%Z; [done|].
  rewrite !IH. cbn [foldl]. by rewrite foldl_app.
Qed.

Lemma insertionOrder_elem fuel arr start end_ x :
  (0 <= start)%Z -> (end_ < Z.of_nat (length arr))%Z ->
  x ∈ insertionOrder fuel arr start end_ ->
  exists j, (start <= Z.of_nat j <= end_)%Z /\ arr !! j = Some x.
Proof.
  revert start end_. induction fuel as [|fuel IH]; intros start end_ Hs He; simpl.
  { by intros ?%elem_of_nil. }
  destruct (Z.ltb_spec end_ start) as [Hlt|Hge]; [by intros ?%elem_of_nil|].
  set (mid := ((start + end_) / 2)%Z).
  assert (start <= mid <= end_)%Z as Hmid.
  { unfold mid. split.
    - apply Z.div_le_lower_bound; lia.
    - apply Z.div_le_upper_bound; lia. }
  intros [->|[Hx|Hx]%elem_of_app]%elem_of_cons.
  - exists (Z.to_nat mid). split; [lia|].
    apply list_lookup_lookup_total_lt. lia.
  - destruct (IH start (mid - 1)%Z Hs ltac:(lia) Hx) as (j & Hj & Hjx).
    exists j. split; [lia|done].
  - destruct (IH (mid + 1)%Z end_ ltac:(lia) He Hx) as (j & Hj & Hjx).
    exists j. split; [lia|done].
Qed.

Lemma fold_into_left xs i v st l r h bf :
  Forall (fun x => valid x /\ (x < v)%Z) xs ->
  foldl (fun t x => handleInsertDirect (ids x) x t) (TNode i v st l r h bf) xs
  = TNode i v st (foldl (fun t x => handleInsertDirect (ids x) x t) l xs) r
          (match xs with
           | [] => h
           | _ => Nat.max (heightOr0 r)
                    (heightOr0 (foldl (fun t x => handleInsertDirect (ids x) x t) l xs)) + 1
           end) bf.
Proof.
  revert l h. induction xs as [|x xs IH]; intros l h Hxs; [done|].
  apply Forall_cons in Hxs as [[Hx Hlt] Hxs].
  cbn [foldl]. rewrite (handleInsertDirect_valid x (TNode _ _ _ _ _ _ _)) by done.
  cbn [insertNodeDirectly]. rewrite (proj2 (Z.ltb_lt _ _)) by done.
  rewrite IH by done. rewrite <-handleInsertDirect_valid by done.
  by destruct xs.
Qed.

Lemma fold_into_right xs i v st l r h bf :
  Forall (fun x => valid x /\ (v < x)%Z) xs ->
  foldl (fun t x => handleInsertDirect (ids x) x t) (TNode i v st l r h bf) xs
  = TNode i v st l (foldl (fun t x => handleInsertDirect (ids x) x t) r xs)
          (match xs with
           | [] => h
           | _ => Nat.max (heightOr0 l)
                    (heightOr0 (foldl (fun t x => handleInsertDirect (ids x) x t) r xs)) + 1
           end) bf.
Proof.
  revert r h. induction xs as [|x xs IH]; intros r h Hxs; [done|].
  apply Forall_cons in Hxs as [[Hx Hlt] Hxs].
  cbn [foldl]. rewrite (handleInsertDirect_valid x (TNode _ _ _ _ _ _ _)) by done.
  cbn [insertNodeDirectly].
  rewrite (proj2 (Z.ltb_ge _ _)), (proj2 (Z.ltb_lt _ _)) by lia.
  rewrite IH by done. rewrite <-handleInsertDirect_valid by done.
  by destruct xs.
Qed.

Lemma sorted_lookup_lt (arr : list Z) j k x y :
  StronglySorted Z.lt arr -> j < k -> arr !! j = Some x -> arr !! k = Some y ->
  (x < y)%Z.
Proof.
  intros Hs. revert j k. induction Hs as [|a arr Hs IH Ha]; intros j k Hjk; [done|].
  destruct k as [|k]; [lia|]. destruct j as [|j]; simpl.
  - intros [= <-] Hy. eapply Forall_forall in Ha; [done|].
    by eapply list_elem_of_lookup_2.
  - apply IH. lia.
Qed.

Section sorted_array.
Variable arr : list Z.
Hypothesis arr_sorted : StronglySorted Z.lt arr.
Hypothesis arr_valid : Forall valid arr.

Lemma middle_bounds start end_ :
  (start <= end_)%Z -> (start <= (start + end_) / 2 <= end_)%Z.
Proof.
  intros H. split.
  - apply Z.div_le_lower_bound; lia.
  - apply Z.div_le_upper_bound; lia.
Qed.

Lemma insertionOrder_middleTree fuel start end_ :
  (0 <= start)%Z -> (end_ < Z.of_nat (length arr))%Z ->
  (end_ - start + 1 <= Z.of_nat fuel)%Z ->
  foldl (fun t x => handleInsertDirect (ids x) x t) Null
        (insertionOrder fuel arr start end_)
  = middleTree fuel ids arr start end_ /\
  heights_ok (middleTree fuel ids arr start end_).
Proof.
  revert start end_. induction fuel as [|fuel IH]; intros start end_ Hs He Hf; [done|].
  simpl. destruct (Z.ltb_spec end_ start) as [Hlt|Hge]; [done|].
  pose proof (middle_bounds start end_ Hge) as Hmid.
  set (mid := ((start + end_) / 2)%Z) in *.
  destruct (IH start (mid - 1)%Z) as [HL HhL]; [lia..|].
  destruct (IH (mid + 1)%Z end_) as [HR HhR]; [lia..|].
  assert (Hv : arr !! Z.to_nat mid = Some (arr !!! Z.to_nat mid)).
  { apply list_lookup_lookup_total_lt. lia. }
  set (v := arr !!! Z.to_nat mid) in *.
  assert (Hvalid : valid v).
  { eapply Forall_forall in arr_valid; [done|]. by eapply list_elem_of_lookup_2. }
  assert (HLlt : Forall (fun x => valid x /\ (x < v)%Z)
                        (insertionOrder fuel arr start (mid - 1))).
  { apply Forall_forall. intros x Hx.
    destruct (insertionOrder_elem fuel arr start (mid - 1)%Z x Hs ltac:(lia) Hx)
      as (j & Hj & Hjx).
    split.
    - eapply Forall_forall in arr_valid; [done|]. by eapply list_elem_of_lookup_2.
    - eapply (sorted_lookup_lt arr j (Z.to_nat mid)); [done|lia|done..]. }
  assert (HRgt : Forall (fun x => valid x /\ (v < x)%Z)
                        (insertionOrder fuel arr (mid + 1) end_)).
  { apply Forall_forall. intros x Hx.
    destruct (insertionOrder_elem fuel arr (mid + 1)%Z end_ x ltac:(lia) He Hx)
      as (j & Hj & Hjx).
    split.
    - eapply Forall_forall in arr_valid; [done|]. by eapply list_elem_of_lookup_2.
    - eapply (sorted_lookup_lt arr (Z.to_nat mid) j); [done|lia|done..]. }
  cbn [foldl]. rewrite foldl_app, (handleInsertDirect_valid v Null) by done.
  cbn [insertNodeDirectly].
  rewrite fold_into_left, HL by done. rewrite fold_into_right, HR by done.
  split; [|done].
  f_equal. rewrite !heightOr0_depth by done.
  destruct (insertionOrder fuel arr (mid + 1) end_) as [|y ys] eqn:ER.
  - simpl in HR. rewrite <-HR. simpl.
    destruct (insertionOrder fuel arr start (mid - 1)) as [|x xs] eqn:EL.
    + simpl in HL. by rewrite <-HL.
    + simpl. lia.
  - done.
Qed.

Lemma segment_split (a m b : nat) x :
  a <= m -> m < b -> arr !! m = Some x ->
  take (b - a) (drop a arr)
  = take (m - a) (drop a arr) ++ x :: take (b - S m) (drop (S m) arr).
Proof.
  intros Ham Hmb Hx.
  assert (Hx' : drop a arr !! (m - a) = Some x).
  { rewrite lookup_drop. by replace (a + (m - a)) with m by lia. }
  rewrite <-(take_drop_middle (drop a arr) (m - a) x Hx') at 1.
  apply lookup_lt_Some in Hx' as Hlen.
  rewrite take_app_ge by (rewrite length_take; lia).
  rewrite length_take, Nat.min_l by lia.
  replace (b - a - (m - a)) with (S (b - S m)) by lia.
  rewrite firstn_cons, drop_drop.
  by replace (a + S (m - a)) with (S m) by lia.
Qed.

Lemma middleTree_inorder fuel start end_ :
  (0 <= start)%Z -> (end_ < Z.of_nat (length arr))%Z ->
  (end_ - start + 1 <= Z.of_nat fuel)%Z ->
  inorder (middleTree fuel ids arr start end_)
  = take (Z.to_nat (end_ - start + 1)) (drop (Z.to_nat start) arr).
Proof.
  revert start end_. induction fuel as [|fuel IH]; intros start end_ Hs He Hf.
  { simpl. by replace (Z.to_nat (end_ - start + 1)) with 0 by lia. }
  simpl. destruct (Z.ltb_spec end_ start) as [Hlt|Hge].
  { by replace (Z.to_nat (end_ - start + 1)) with 0 by lia. }
  pose proof (middle_bounds start end_ Hge) as Hmid.
  set (mid := ((start + end_) / 2)%Z) in *.
  assert (Hv : arr !! Z.to_nat mid = Some (arr !!! Z.to_nat mid)).
  { apply list_lookup_lookup_total_lt. lia. }
  simpl. rewrite !IH by lia.
  replace (Z.to_nat (end_ - start + 1)) with (S (Z.to_nat end_) - Z.to_nat start) by lia.
  rewrite (segment_split (Z.to_nat start) (Z.to_nat mid) (S (Z.to_nat end_)) _
             ltac:(lia) ltac:(lia) Hv).
  repeat f_equal; lia.
Qed.

Lemma middleTree_depth fuel start end_ :
  (0 <= start)%Z -> (end_ - start + 1 <= Z.of_nat fuel)%Z ->
  if (end_ <? start)%Z then depth (middleTree fuel ids arr start end_) = 0
  else 2 ^ depth (middleTree fuel ids arr start end_) <= 2 * Z.to_nat (end_ - start + 1).
Proof.
  revert start end_. induction fuel as [|fuel IH]; intros start end_ Hs Hf.
  { destruct (Z.ltb_spec end_ start); [done|lia]. }
  simpl. destruct (Z.ltb_spec end_ start) as [Hlt|Hge]; [done|].
  pose proof (middle_bounds start end_ Hge) as Hmid.
  set (mid := ((start + end_) / 2)%Z) in *.
  assert (Hhalf : (2 * (end_ - mid) <= end_ - start + 1)%Z).
  { unfold mid. pose proof (Z.div_mod (start + end_) 2 ltac:(lia)).
    pose proof (Z.mod_pos_bound (start + end_) 2 ltac:(lia)). lia. }
  assert (Hleft : (mid - start <= end_ - mid)%Z).
  { unfold mid. pose proof (Z.div_mod (start + end_) 2 ltac:(lia)).
    pose proof (Z.mod_pos_bound (start + end_) 2 ltac:(lia)). lia. }
  pose proof (IH start (mid - 1)%Z Hs ltac:(lia)) as HL.
  pose proof (IH (mid + 1)%Z end_ ltac:(lia) ltac:(lia)) as HR.
  simpl. rewrite Nat.add_1_r, Nat.pow_succ_r'.
  set (dl := depth (middleTree fuel ids arr start (mid - 1))) in *.
  set (dr := depth (middleTree fuel ids arr (mid + 1) end_)) in *.
  assert (Hl2 : 2 ^ dl <= Nat.max 1 (2 * Z.to_nat (mid - start))).
  { destruct (Z.ltb_spec (mid - 1) start); [rewrite HL; simpl; lia|].
    replace (mid - 1 - start + 1)%Z with (mid - start)%Z in HL by lia. lia. }
  assert (Hr2 : 2 ^ dr <= Nat.max 1 (2 * Z.to_nat (end_ - mid))).
  { destruct (Z.ltb_spec end_ (mid + 1)); [rewrite HR; simpl; lia|].
    replace (end_ - (mid + 1) + 1)%Z with (end_ - mid)%Z in HR by lia. lia. }
  destruct (Nat.max_spec dl dr) as [[_ ->]|[_ ->]]; lia.
Qed.

Lemma insertBalanced_all :
  let t := insertBalanced (length arr) ids arr 0 (Z.of_nat (length arr) - 1) Null in
  bst t /\ inorder t = arr /\ heights_ok t /\ 2 ^ depth t <= 2 * length arr + 1.
Proof.
  simpl. rewrite insertBalanced_fold.
  destruct (insertionOrder_middleTree (length arr) 0 (Z.of_nat (length arr) - 1))
    as [-> Hh]; [lia..|].
  assert (Hin : inorder (middleTree (length arr) ids arr 0 (Z.of_nat (length arr) - 1))
                = arr).
  { rewrite middleTree_inorder by lia. simpl.
    replace (Z.to_nat (Z.of_nat (length arr) - 1 - 0 + 1)) with (length arr) by lia.
    by rewrite take_ge. }
  split_and!; [|done|done|].
  - apply bst_sorted. by rewrite Hin.
  - pose proof (middleTree_depth (length arr) 0 (Z.of_nat (length arr) - 1)
                  ltac:(lia) ltac:(lia)) as Hd.
    destruct (Z.ltb_spec (Z.of_nat (length arr) - 1) 0); [rewrite Hd; simpl; lia|lia].
Qed.

End sorted_array.

Lemma sorted_le_NoDup_lt (l : list Z) :
  StronglySorted Z.le l -> NoDup l -> StronglySorted Z.lt l.
Proof.
  induction 1 as [|x l Hs IH Hx]; intros Hnd; [constructor|].
  apply NoDup_cons in Hnd as [Hnot Hnd]. constructor; [auto|].
  apply Forall_forall. intros y Hy.
  eapply Forall_forall in Hx; [|exact Hy].
  assert (x <> y) by (intros ->; done). lia.
Qed.

End tree_random.

Section tree_random_result.
Import TreeViz TreeSpec.

(** X14: the tree that [createRandomTree] builds from the distinct values it
    has drawn (each in the accepted range 1..999).  It is a search tree that
    holds exactly these values - its in-order sequence is the sorted array -
    with every [height] field equal to the depth of its subtree, and it is
    as shallow as a binary tree with that many nodes can be: a tree of depth
    [d] holds at least [2^(d-1)] values. *)
Theorem createRandomTree_balanced ids values :
  NoDup values -> Forall valid values ->
  bst (createRandomTree ids values) /\
  inorder (createRandomTree ids values) = merge_sort Z.le values /\
  inorder (createRandomTree ids values) ≡ₚ values /\
  heights_ok (createRandomTree ids values) /\
  2 ^ depth (createRandomTree ids values) <= 2 * length values + 1.
Proof.
  intros Hnd Hvalid. unfold createRandomTree.
  pose proof (merge_sort_Permutation Z.le values) as Hperm.
  assert (Hsorted : StronglySorted Z.lt (merge_sort Z.le values)).
  { apply sorted_le_NoDup_lt; [apply StronglySorted_merge_sort; apply _|].
    by rewrite Hperm. }
  assert (Hval : Forall valid (merge_sort Z.le values)) by (by rewrite Hperm).
  destruct (insertBalanced_all ids _ Hsorted Hval) as (Hb & Hin & Hh & Hd).
  split_and!; [done|done|by rewrite Hin|done|].
  pose proof (Permutation_length Hperm) as Hlen. simpl in Hd. lia.
Qed.

Lemma createRandomTree_balanced_witness :
  inorder (createRandomTree (fun _ => "node"%string) [50; 30; 70; 20; 40; 60; 80]%Z)
    = [20; 30; 40; 50; 60; 70; 80]%Z /\
  2 ^ depth (createRandomTree (fun _ => "node"%string) [50; 30; 70; 20; 40; 60; 80]%Z)
    <= 2 * 7 + 1.
Proof.
  destruct (createRandomTree_balanced (fun _ => "node"%string)
              [50; 30; 70; 20; 40; 60; 80]%Z) as (_ & Hin & _ & _ & Hd).
  - apply (bool_decide_unpack _). vm_compute. exact I.
  - repeat (apply Forall_cons_2; [unfold valid; lia|]). apply Forall_nil_2.
  - split; [rewrite Hin; reflexivity|exact Hd].
Defined.

End tree_random_result.

(** ** The hash table as rendered: the operations on the bucket view *)

Section hash_reading.
Import HashViz HashSpec.

Lemma with_status_idemp s s' e : with_status s (with_status s' e) = with_status s e.
Proof. done. Qed.

Lemma content_with_status s e : content (with_status s e) = content e.
Proof. done. Qed.

Lemma readBucket_lookup st b p :
  readBucket st b !! p = (fun r => st !!! r) <$> (b !! p).
Proof. unfold readBucket. apply list_lookup_fmap. Qed.

Lemma readBucket_length st b : length (readBucket st b) = length b.
Proof. unfold readBucket. apply length_fmap. Qed.

Lemma readBucket_ext st st' b :
  (forall r, r ∈ b -> st' !!! r = st !!! r) -> readBucket st' b = readBucket st b.
Proof.
  intros H. unfold readBucket. apply list_fmap_ext. intros i r Hi.
  apply H. by eapply list_elem_of_lookup_2.
Qed.

Lemma readBucket_app st extra b :
  (forall r, r ∈ b -> r < length st) -> readBucket (st ++ extra) b = readBucket st b.
Proof. intros H. apply readBucket_ext. intros r Hr. apply lookup_total_app_l. auto. Qed.

Lemma markAll_cons s r refs st :
  markAll s (r :: refs) st = markAll s refs (alter (with_status s) r st).
Proof. done. Qed.

Lemma markAll_lookup_in s refs st r :
  r ∈ refs -> r < length st -> markAll s refs st !!! r = with_status s (st !!! r).
Proof.
  revert st. induction refs as [|x refs IH]; intros st Hin Hlt.
  { by apply elem_of_nil in Hin. }
  rewrite markAll_cons.
  destruct (decide (r ∈ refs)) as [Hr|Hr].
  - rewrite IH by (by rewrite ?length_alter).
    destruct (decide (r = x)) as [->|Hne].
    + by rewrite list_lookup_total_alter_eq.
    + by rewrite list_lookup_total_alter_ne.
  - rewrite lookup_markAll_notin by done.
    apply elem_of_cons in Hin as [->|Hin]; [|done].
    by rewrite list_lookup_total_alter_eq.
Qed.

Lemma content_markAll s refs st r : content (markAll s refs st !!! r) = content (st !!! r).
Proof.
  destruct (decide (r ∈ refs /\ r < length st)) as [[Hin Hlt]|Hn].
  - by rewrite markAll_lookup_in.
  - destruct (decide (r ∈ refs)) as [Hin|Hin].
    + assert (length st <= r) by (destruct (decide (r < length st)); [tauto|lia]).
      rewrite !list_lookup_total_alt.
      rewrite (lookup_ge_None_2 st r) by done.
      by rewrite (lookup_ge_None_2 (markAll s refs st) r) by (by rewrite length_markAll).
    + by rewrite lookup_markAll_notin.
Qed.

Lemma readBucket_markAll_self s st b :
  (forall r, r ∈ b -> r < length st) ->
  readBucket (markAll s b st) b = with_status s <$> readBucket st b.
Proof.
  intros H. unfold readBucket. rewrite <-list_fmap_compose.
  apply list_fmap_ext. intros i r Hi. simpl.
  assert (r ∈ b) by (eapply list_elem_of_lookup_2; exact Hi).
  apply markAll_lookup_in; auto.
Qed.

Lemma readBucket_markAll_other s refs st b :
  (forall r, r ∈ b -> r ∉ refs) -> readBucket (markAll s refs st) b = readBucket st b.
Proof. intros H. apply readBucket_ext. intros r Hr. apply lookup_markAll_notin. auto. Qed.

Lemma readBucket_copyAll f b st :
  readBucket (copyAll f b st).1 (copyAll f b st).2
  = imap (fun idx e => with_status (f idx) e) (readBucket st b).
Proof.
  apply list_eq; intros p. rewrite readBucket_lookup, list_lookup_imap.
  rewrite readBucket_lookup. cbn [copyAll fst snd].
  destruct (decide (p < length b)) as [Hp|Hp].
  - rewrite lookup_seq_lt by done. simpl.
    destruct (lookup_lt_is_Some_2 _ _ Hp) as [r Hr]. rewrite Hr. simpl. f_equal.
    apply (copyAll_fresh f b st p r Hr).
  - rewrite lookup_seq_ge by lia. by rewrite lookup_ge_None_2 by lia.
Qed.

Lemma insert_as_alter {A B} (F G : A -> B) (g : B -> B) (l : list A) i b X :
  l !! i = Some b -> X = g (G b) ->
  (forall j bj, j <> i -> l !! j = Some bj -> F bj = G bj) ->
  <[i := X]> (F <$> l) = alter g i (G <$> l).
Proof.
  intros Hb -> Hother. apply list_eq; intros j.
  destruct (decide (j = i)) as [->|Hne].
  - rewrite list_lookup_insert_eq by (rewrite length_fmap; by eapply lookup_lt_Some).
    by rewrite list_lookup_alter_eq, list_lookup_fmap, Hb.
  - rewrite list_lookup_insert_ne, list_lookup_alter_ne, !list_lookup_fmap by done.
    destruct (l !! j) as [bj|] eqn:Hj; simpl; [|done]. f_equal. by apply (Hother j).
Qed.

Lemma keyIndex_findIndex st k refs :
  findIndex st k refs = keyIndex k (readBucket st refs).
Proof.
  induction refs as [|r refs IH]; [done|]. simpl.
  destruct (String.eqb _ _); [done|]. by rewrite IH.
Qed.

Lemma keyIndex_content k (b b' : list HashTableEntry) :
  key <$> b = key <$> b' -> keyIndex k b = keyIndex k b'.
Proof.
  revert b'. induction b as [|e b IH]; intros [|e' b'] H; try done.
  injection H as Hk Hrest. simpl. rewrite Hk.
  destruct (String.eqb _ _); [done|]. by rewrite (IH b').
Qed.

Lemma keyIndex_None k b : keyIndex k b = None <-> Forall (fun e => key e <> k) b.
Proof.
  induction b as [|e b IH]; simpl; [by split; [constructor|]|].
  destruct (String.eqb_spec (key e) k) as [Heq|Hne].
  - split; [done|]. by intros [? _]%Forall_cons.
  - rewrite Forall_cons. destruct (keyIndex k b); simpl.
    + split; [done|]. intros [_ H]. by apply IH in H.
    + split; [|done]. intros _. split; [done|]. by apply IH.
Qed.

Lemma keyIndex_Some k b j :
  keyIndex k b = Some j -> exists e, b !! j = Some e /\ key e = k.
Proof.
  revert j. induction b as [|e b IH]; intros j; simpl; [done|].
  destruct (String.eqb_spec (key e) k) as [Heq|Hne].
  - intros [= <-]. eauto.
  - destruct (keyIndex k b) as [j'|]; simpl; [|done]. intros [= <-]. by apply IH.
Qed.

End hash_reading.

Section hash_views.
Import HashViz HashSpec.

Lemma imap_plain {A B} (g : A -> B) (l : list A) : imap (fun _ x => g x) l = g <$> l.
Proof. apply (imap_const g). Qed.

Lemma fmap_with_status_twice s s' (l : list HashTableEntry) :
  with_status s <$> (with_status s' <$> l) = with_status s <$> l.
Proof. rewrite <-list_fmap_compose. by apply list_fmap_ext. Qed.

(** An accepted insert, on the rendered table. *)
Lemma insert_view bucketSize k v h :
  sound bucketSize h ->
  k <> EmptyString -> (hashType h = HMap -> v <> EmptyString) -> isAnimating h = false ->
  ~ present k h ->
  exists h',
    handleAddEntry bucketSize k v h = Ok (h', []) /\
    sound bucketSize h' /\
    bucketView h'
      = insertView (mkEntry k (match hashType h with
                               | HMap => VString v | HSet => VBool true end) HActive)
                   (hashFunction bucketSize k) (bucketView h) /\
    content <$> entryView h'
      = (content <$> entryView h) ++
        [(k, match hashType h with HMap => VString v | HSet => VBool true end)] /\
    hashType h' = hashType h /\ selectedEntry h' = Some k /\ isAnimating h' = false.
Proof.
  intros (Hpos & Hok & Halloc) Hk Hv Hanim Hnot.
  pose proof Hok as [Hlen Hpl].
  destruct (insert_accepted bucketSize k v h Hpos Hlen Hk Hv Hanim Hnot)
    as (h' & _ & _ & E & _).
  exists h'. split; [exact E|].
  destruct (insert_effect _ _ _ _ _ _ Hok E) as [Hok' _].
  unfold handleAddEntry in E.
  rewrite gate_open, absent_existsb in E by done.
  destruct (bucket_exists bucketSize k h Hpos Hlen) as [b Hb]. rewrite Hb in E.
  unfold copyAll in E. cbv beta iota zeta in E.
  set (val := match hashType h with HMap => VString v | HSet => VBool true end) in *.
  set (new := length (store h)) in *.
  set (e := mkEntry k val HActive) in *.
  set (S1 := store h ++ [e]) in *.
  set (b' := b ++ [new]) in *.
  set (S2 := if 1 <? length b' then markAll HCollision b' S1 else S1) in *.
  injection E as <-.
  assert (HlS2 : length S2 = S (length (store h))).
  { unfold S2. destruct (1 <? length b'); rewrite ?length_markAll; unfold S1;
      rewrite length_app; simpl; lia. }
  assert (Hcontent : forall r, content (S2 !!! r) = content (S1 !!! r)).
  { intros r. unfold S2. destruct (1 <? length b'); [apply content_markAll|done]. }
  assert (Hnew : S1 !!! new = e).
  { unfold S1, new. by rewrite lookup_total_app_r, Nat.sub_diag by lia. }
  assert (Hballoc : forall r, r ∈ b -> r < length (store h)).
  { intros r Hr. by destruct (Hpl _ _ _ Hb Hr). }
  assert (Hb'alloc : forall r, r ∈ b' -> r < length S1).
  { intros r [Hr| ->%list_elem_of_singleton]%elem_of_app;
      unfold S1; rewrite length_app; simpl; [|unfold new; lia].
    apply Hballoc in Hr. lia. }
  assert (Hread1 : readBucket S1 b' = readBucket (store h) b ++ [e]).
  { unfold b', readBucket at 1. rewrite fmap_app. simpl. rewrite Hnew. f_equal.
    by apply readBucket_app. }
  split_and!; cbn [hashType selectedEntry isAnimating]; [|  | |done..].
  - split_and!; [done|done|]. cbn [entries store].
    intros r [Hr| ->%list_elem_of_singleton]%elem_of_app;
      rewrite length_app, HlS2; [|unfold new; lia].
    apply Halloc in Hr. lia.
  - unfold bucketView, insertView. cbn [store buckets]. rewrite list_fmap_insert.
    apply (insert_as_alter _ (readBucket (store h)) _ _ _ b); [done| |].
    + pose proof (readBucket_copyAll (fun _ => occupancy (length b')) b' S2) as Hc.
      unfold copyAll in Hc. cbn [fst snd] in Hc. rewrite Hc, imap_plain.
      unfold normalise. rewrite length_app, readBucket_length. simpl.
      replace (length b + 1) with (length b') by (unfold b'; rewrite length_app; done).
      rewrite <-Hread1. unfold S2.
      destruct (1 <? length b'); [|done].
      by rewrite readBucket_markAll_self, fmap_with_status_twice.
    + intros j bj Hne Hbj.
      assert (Hbjalloc : forall r, r ∈ bj -> r < length (store h)).
      { intros r Hr. by destruct (Hpl _ _ _ Hbj Hr). }
      rewrite readBucket_app by (intros r Hr; apply Hbjalloc in Hr; lia).
      assert (readBucket S2 bj = readBucket S1 bj) as ->.
      { unfold S2. destruct (1 <? length b'); [|done].
        apply readBucket_markAll_other.
        intros r Hr [Hrb| ->%list_elem_of_singleton]%elem_of_app.
        - destruct (Hpl _ _ _ Hbj Hr) as [_ H1]. destruct (Hpl _ _ _ Hb Hrb) as [_ H2].
          congruence.
        - apply Hbjalloc in Hr. unfold new in Hr. lia. }
      by apply readBucket_app.
  - unfold entryView. cbn [store entries]. unfold readBucket.
    rewrite !fmap_app, <-!list_fmap_compose. f_equal.
    + apply list_fmap_ext. intros idx r Hr. simpl.
      assert (r < length (store h)) by (apply Halloc; by eapply list_elem_of_lookup_2).
      rewrite lookup_total_app_l by lia. rewrite Hcontent.
      unfold S1. by rewrite lookup_total_app_l.
    + simpl. rewrite lookup_total_app_l by (unfold new; lia).
      by rewrite Hcontent, Hnew.
Qed.

Lemma filter_fmap_comm {A B} (f : A -> B) (P : B -> Prop)
    `{!forall y, Decision (P y)} (l : list A) :
  filter P (f <$> l) = f <$> filter (fun x => P (f x)) l.
Proof.
  induction l as [|x l IH]; [done|]. rewrite fmap_cons, !filter_cons.
  destruct (decide (P (f x))); [rewrite fmap_cons|]; by rewrite IH.
Qed.

Lemma filter_ext_in {A} (P Q : A -> Prop) `{!forall x, Decision (P x)}
    `{!forall x, Decision (Q x)} (l : list A) :
  (forall x, x ∈ l -> (P x <-> Q x)) -> filter P l = filter Q l.
Proof.
  induction l as [|x l IH]; intros Hext; [done|]. rewrite !filter_cons.
  assert (HPQ : P x <-> Q x) by (apply Hext; left).
  rewrite IH by (intros y Hy; apply Hext; by right).
  destruct (decide (P x)), (decide (Q x)); tauto.
Qed.

Lemma content_alter s r (st : list HashTableEntry) r' :
  content (alter (with_status s) r st !!! r') = content (st !!! r').
Proof.
  destruct (decide (r' = r)) as [->|Hne].
  - destruct (decide (r < length st)) as [Hlt|Hge].
    + by rewrite list_lookup_total_alter_eq.
    + rewrite !list_lookup_total_alt, list_lookup_alter_eq.
      by rewrite (lookup_ge_None_2 st r) by lia.
  - by rewrite list_lookup_total_alter_ne.
Qed.

Lemma content_key e e' : content e = content e' -> key e = key e'.
Proof. by intros [= ? _]. Qed.

(** A completed remove of a key of the entry list, on the rendered table. *)
Lemma remove_view bucketSize k h :
  sound bucketSize h -> present k h -> isAnimating h = false ->
  exists h',
    handleRemoveEntry bucketSize k h = Ok (h', []) /\
    sound bucketSize h' /\
    bucketView h' = removeView k (hashFunction bucketSize k) (bucketView h) /\
    content <$> entryView h' = filter (fun c => c.1 <> k) (content <$> entryView h) /\
    hashType h' = hashType h /\ selectedEntry h' = None /\ isAnimating h' = false.
Proof.
  intros (Hpos & Hok & Halloc) Hpres Hanim.
  pose proof Hok as [Hlen Hpl].
  destruct (bucket_exists bucketSize k h Hpos Hlen) as [b Hb].
  destruct (remove_removes bucketSize k h b Hpres Hanim Hb) as (h' & E & _).
  exists h'. split; [exact E|].
  destruct (remove_effect _ _ _ _ _ Hok E) as [Hok' _].
  unfold handleRemoveEntry in E. rewrite Hanim, Hb in E.
  destruct (findIndex (store h) k (entries h)) as [ei|] eqn:Hei.
  2:{ destruct Hpres as (r & Hr & Hkr).
      destruct (findIndex_is_Some (store h) k (entries h) r Hr Hkr) as [? Hs].
      congruence. }
  set (S1 := match findIndex (store h) k b with Some _ => _ | None => _ end) in *.
  set (b' := dropKey S1 k b) in *.
  set (S2 := if length b' <=? 1 then markAll HDefault b' S1 else S1) in *.
  injection E as <-.
  assert (HS1 : length S1 = length (store h) /\
                (forall r, content (S1 !!! r) = content (store h !!! r)) /\
                (forall r, key (store h !!! r) <> k -> S1 !!! r = store h !!! r)).
  { unfold S1. destruct (findIndex (store h) k b) as [bi|] eqn:Hbi; [|done].
    apply findIndex_Some in Hbi as (rb & Hrb & Hkrb).
    apply findIndex_Some in Hei as (re & Hre & Hkre).
    rewrite (list_lookup_total_correct _ _ _ Hrb), (list_lookup_total_correct _ _ _ Hre).
    split_and!.
    - by rewrite !length_alter.
    - intros r. by rewrite !content_alter.
    - intros r Hr. rewrite !list_lookup_total_alter_ne; [done|congruence..]. }
  destruct HS1 as (HlS1 & HcS1 & HoS1).
  assert (HkS1 : forall r, key (S1 !!! r) = key (store h !!! r)).
  { intros r. apply content_key, HcS1. }
  assert (HlS2 : length S2 = length (store h)).
  { unfold S2. destruct (length b' <=? 1); by rewrite ?length_markAll. }
  assert (HcS2 : forall r, content (S2 !!! r) = content (store h !!! r)).
  { intros r. unfold S2. destruct (length b' <=? 1); by rewrite ?content_markAll. }
  assert (HkS2 : forall r, key (S2 !!! r) = key (store h !!! r)).
  { intros r. apply content_key, HcS2. }
  assert (Hb' : b' = filter (fun r => key (store h !!! r) <> k) b).
  { unfold b', dropKey. apply filter_ext_in. intros r _. by rewrite HkS1. }
  assert (Hb'in : forall r, r ∈ b' -> key (store h !!! r) <> k /\ r ∈ b).
  { intros r. rewrite Hb'. by rewrite list_elem_of_filter. }
  assert (Hread' : readBucket (store h) b'
                   = filter (fun e => key e <> k) (readBucket (store h) b)).
  { unfold readBucket. by rewrite filter_fmap_comm, Hb'. }
  assert (Hread1 : readBucket S1 b' = readBucket (store h) b').
  { apply readBucket_ext. intros r [Hr _]%Hb'in. by apply HoS1. }
  split_and!; cbn [hashType selectedEntry isAnimating]; [| | |done..].
  - split_and!; [done|done|]. cbn [entries store]. rewrite HlS2.
    intros r [_ Hr]%elem_of_dropKey. by apply Halloc.
  - unfold bucketView, removeView. cbn [store buckets]. rewrite list_fmap_insert.
    apply (insert_as_alter _ (readBucket (store h)) _ _ _ b); [done| |].
    + cbv zeta. rewrite <-Hread', readBucket_length. unfold S2.
      destruct (length b' <=? 1); [|done].
      rewrite readBucket_markAll_self, Hread1; [done|].
      intros r [_ Hr]%Hb'in. rewrite HlS1. by destruct (Hpl _ _ _ Hb Hr).
    + intros j bj Hne Hbj. apply readBucket_ext. intros r Hr.
      destruct (Hpl _ _ _ Hbj Hr) as [_ Hhj].
      assert (key (store h !!! r) <> k) by congruence.
      rewrite <-HoS1 by done. unfold S2. destruct (length b' <=? 1); [|done].
      apply lookup_markAll_notin. intros [_ Hrb]%Hb'in.
      destruct (Hpl _ _ _ Hb Hrb) as [_ Hhi]. congruence.
  - unfold entryView. cbn [store entries]. unfold readBucket, dropKey.
    rewrite <-!list_fmap_compose, filter_fmap_comm.
    rewrite (filter_ext_in (fun r => key (S2 !!! r) <> k)
               (fun r => ((content ∘ (fun r => store h !!! r)) r).1 <> k)).
    + apply list_fmap_ext. intros idx r _. simpl. apply HcS2.
    + intros r _. simpl. by rewrite HkS2.
Qed.

Lemma content_markBuckets bs st r :
  content (foldl (fun st b => markAll (occupancy (length b)) b st) st bs !!! r)
  = content (st !!! r).
Proof.
  revert st. induction bs as [|b bs IH]; intros st; simpl; [done|].
  by rewrite IH, content_markAll.
Qed.

Lemma markBuckets_frame bs st c :
  (forall bj r, bj ∈ bs -> r ∈ bj -> r ∉ c) ->
  readBucket (foldl (fun st b => markAll (occupancy (length b)) b st) st bs) c
  = readBucket st c.
Proof.
  revert st. induction bs as [|b bs IH]; intros st Hdis; simpl; [done|].
  rewrite IH by (intros bj r Hbj; apply Hdis; by right).
  apply readBucket_markAll_other. intros r Hr Hrb.
  by apply (Hdis b r); [left| |].
Qed.

Lemma markBuckets_read bs st j bj :
  (forall i i' bi bi' r, bs !! i = Some bi -> bs !! i' = Some bi' ->
     r ∈ bi -> r ∈ bi' -> i = i') ->
  (forall i bi r, bs !! i = Some bi -> r ∈ bi -> r < length st) ->
  bs !! j = Some bj ->
  readBucket (foldl (fun st b => markAll (occupancy (length b)) b st) st bs) bj
  = normalise (readBucket st bj).
Proof.
  revert j bj. induction bs as [|b bs IH] using rev_ind; intros j bj Hdis Halloc Hj.
  { done. }
  rewrite foldl_app. simpl.
  assert (Hdis' : forall i i' bi bi' r, bs !! i = Some bi -> bs !! i' = Some bi' ->
            r ∈ bi -> r ∈ bi' -> i = i').
  { intros i i' bi bi' r Hi Hi'. apply (Hdis i i' bi bi' r); by apply lookup_app_l_Some. }
  assert (Halloc' : forall i bi r, bs !! i = Some bi -> r ∈ bi -> r < length st).
  { intros i bi r Hi. apply (Halloc i bi r). by apply lookup_app_l_Some. }
  assert (Hlast : (bs ++ [b]) !! length bs = Some b).
  { by rewrite lookup_app_r, Nat.sub_diag by lia. }
  destruct (decide (j < length bs)) as [Hlt|Hge].
  - rewrite lookup_app_l in Hj by done.
    rewrite readBucket_markAll_other; [by eapply IH|].
    intros r Hr Hrb.
    assert (j = length bs); [|lia].
    apply (Hdis j (length bs) bj b r); [by apply lookup_app_l_Some|done..].
  - assert (j = length bs) as ->.
    { apply lookup_lt_Some in Hj. rewrite length_app in Hj. simpl in Hj. lia. }
    rewrite Hlast in Hj. injection Hj as ->.
    rewrite readBucket_markAll_self.
    + unfold normalise. rewrite readBucket_length. f_equal.
      apply markBuckets_frame. intros bi r [i Hi]%list_elem_of_lookup Hr Hrb.
      assert (i = length bs); [|apply lookup_lt_Some in Hi; lia].
      apply (Hdis i (length bs) bi bj r); [by apply lookup_app_l_Some|done..].
    + intros r Hr. rewrite length_markBuckets. by apply (Halloc (length bs) bj).
Qed.

Lemma imap_highlight j s (l : list HashTableEntry) :
  imap (fun idx e => with_status (if idx =? j then HActive else s) e) (with_status s <$> l)
  = alter (with_status HActive) j (with_status s <$> l).
Proof.
  apply list_eq; intros p.
  rewrite list_lookup_imap, list_lookup_alter, !list_lookup_fmap.
  destruct (Nat.eqb_spec p j) as [->|Hne].
  - rewrite decide_True by done. by destruct (l !! j).
  - rewrite decide_False by done. by destruct (l !! p).
Qed.

(** A completed search, on the rendered table. *)
Lemma search_view bucketSize k h :
  sound bucketSize h -> k <> EmptyString -> isAnimating h = false ->
  exists h',
    handleSearch bucketSize k h
      = Ok (h', [searchNotice k (hashFunction bucketSize k) (bucketView h)]) /\
    sound bucketSize h' /\
    bucketView h' = searchView k (hashFunction bucketSize k) (bucketView h) /\
    content <$> entryView h' = content <$> entryView h /\
    hashType h' = hashType h /\ isAnimating h' = false /\
    selectedEntry h'
      = match searchNotice k (hashFunction bucketSize k) (bucketView h) with
        | FoundIn _ _ => Some k
        | _ => selectedEntry h
        end.
Proof.
  intros (Hpos & Hok & Halloc) Hk Hanim.
  pose proof Hok as [Hlen Hpl].
  destruct (bucket_exists bucketSize k h Hpos Hlen) as [b Hb].
  assert (Hview : default [] (bucketView h !! hashFunction bucketSize k)
                  = readBucket (store h) b).
  { unfold bucketView. by rewrite list_lookup_fmap, Hb. }
  unfold searchNotice. rewrite Hview.
  destruct (handleSearch bucketSize k h) as [[h' ns]|] eqn:E.
  2:{ unfold handleSearch in E.
      rewrite (proj2 (String.eqb_neq k "")), Hanim, Hb in E by done.
      simpl in E. by destruct (findIndex _ _ _). }
  destruct (search_preserves _ _ _ _ _ Hok E) as (Hok' & Hents & Hle & _).
  unfold handleSearch in E.
  rewrite (proj2 (String.eqb_neq k "")), Hanim, Hb in E by done.
  simpl orb in E. cbv iota in E.
  pose proof (readBucket_copyAll (fun _ => HActive) b
    (foldl (fun st b => markAll (occupancy (length b)) b st) (store h) (buckets h)))
    as Hc2.
  unfold copyAll in E, Hc2. cbv beta iota zeta in E. cbn [fst snd] in Hc2.
  set (S1 := foldl _ (store h) (buckets h)) in *.
  set (act := seq (length S1) (length b)) in *.
  set (S2 := S1 ++ imap (fun idx r => with_status HActive (S1 !!! r)) b) in *.
  assert (HlS1 : length S1 = length (store h)) by apply length_markBuckets.
  assert (Hread1 : forall j bj, buckets h !! j = Some bj ->
            readBucket S1 bj = normalise (readBucket (store h) bj)).
  { intros j bj Hbj. apply (markBuckets_read _ _ j); [|by intros; eapply Hpl|done].
    intros i i' bi bi' r Hi Hi' Hr Hr'.
    destruct (Hpl _ _ _ Hi Hr) as [_ <-]. by destruct (Hpl _ _ _ Hi' Hr') as [_ <-]. }
  assert (Hread2 : readBucket S2 act
                   = with_status HActive <$> normalise (readBucket (store h) b)).
  { by rewrite Hc2, imap_plain, (Hread1 _ _ Hb). }
  assert (Hfound : findIndex S2 k act = keyIndex k (readBucket (store h) b)).
  { rewrite keyIndex_findIndex, Hread2. apply keyIndex_content.
    unfold normalise. rewrite <-!list_fmap_compose. by apply list_fmap_ext. }
  assert (Hlact : length act = length b) by apply length_seq.
  assert (Hshape : forall f sel,
    let S3 := S2 ++ imap (fun idx r => with_status (f idx) (S2 !!! r)) act in
    let hf := mkHash (hashType h) S3 (entries h)
                (<[hashFunction bucketSize k := seq (length S2) (length act)]> (buckets h))
                sel false in
    (forall e, e ∈ entries hf -> e < length (store hf)) /\
    bucketView hf
      = <[hashFunction bucketSize k :=
            imap (fun idx e => with_status (f idx) e)
                 (normalise (readBucket (store h) b))]>
          ((fun bj => normalise (readBucket (store h) bj)) <$> buckets h) /\
    content <$> entryView hf = content <$> entryView h).
  { intros f sel S3 hf. unfold hf. clear hf.
    assert (HlS2 : length S2 = length S1 + length b).
    { unfold S2. by rewrite length_app, length_imap. }
    split_and!.
    - intros e He. cbn [entries store] in *. unfold S3.
      rewrite length_app, HlS2. apply Halloc in He. lia.
    - unfold bucketView. cbn [store buckets]. rewrite list_fmap_insert. f_equal.
      + pose proof (readBucket_copyAll f act S2) as Hc3.
        unfold copyAll in Hc3. cbn [fst snd] in Hc3. unfold S3.
        rewrite Hc3, Hread2.
        unfold normalise. rewrite imap_fmap.
        apply imap_ext. intros idx e _. done.
      + apply list_fmap_ext. intros j bj Hbj.
        rewrite <-(Hread1 j bj Hbj). unfold S3, S2. rewrite <-app_assoc.
        apply readBucket_app. intros r Hr. rewrite HlS1. by eapply Hpl.
    - unfold entryView. cbn [store entries]. unfold readBucket.
      rewrite <-!list_fmap_compose. apply list_fmap_ext. intros idx r Hr. simpl.
      assert (r < length (store h)) by (apply Halloc; by eapply list_elem_of_lookup_2).
      unfold S3, S2. rewrite <-app_assoc, lookup_total_app_l by lia.
      apply content_markBuckets. }
  assert (Hnorm : normalise <$> bucketView h
                  = (fun bj => normalise (readBucket (store h) bj)) <$> buckets h).
  { unfold bucketView. by rewrite <-list_fmap_compose. }
  assert (Hb2 : ((fun bj => normalise (readBucket (store h) bj)) <$> buckets h)
                  !! hashFunction bucketSize k
                = Some (normalise (readBucket (store h) b))).
  { by rewrite list_lookup_fmap, Hb. }
  assert (Hkn : keyIndex k (normalise (readBucket (store h) b))
                = keyIndex k (readBucket (store h) b)).
  { apply keyIndex_content. unfold normalise. rewrite <-list_fmap_compose.
    by apply list_fmap_ext. }
  rewrite Hfound in E. unfold searchView. rewrite Hnorm.
  destruct (keyIndex k (readBucket (store h) b)) as [j|] eqn:Hj;
    injection E as <- <-.
  - destruct (Hshape (fun idx => if idx =? j then HActive else occupancy (length act))
                (Some k)) as (Ha & Hbv & Hev).
    eexists. split; [reflexivity|].
    split_and!; [by split_and!| |exact Hev|done..].
    rewrite Hbv. apply list_eq; intros p.
    destruct (decide (p = hashFunction bucketSize k)) as [->|Hne].
    + rewrite list_lookup_insert_eq
        by (rewrite length_fmap; by eapply lookup_lt_Some).
      rewrite list_lookup_alter_eq, Hb2. simpl. rewrite Hkn. f_equal.
      unfold normalise. rewrite Hlact, readBucket_length.
      apply imap_highlight.
    + by rewrite list_lookup_insert_ne, list_lookup_alter_ne by done.
  - destruct (Hshape (fun _ => occupancy (length act)) (selectedEntry h))
      as (Ha & Hbv & Hev).
    eexists. split; [reflexivity|].
    split_and!; [by split_and!| |exact Hev|done..].
    rewrite Hbv. apply list_eq; intros p.
    destruct (decide (p = hashFunction bucketSize k)) as [->|Hne].
    + rewrite list_lookup_insert_eq
        by (rewrite length_fmap; by eapply lookup_lt_Some).
      rewrite list_lookup_alter_eq, Hb2. simpl. rewrite Hkn. f_equal.
      rewrite imap_plain. unfold normalise. rewrite Hlact, readBucket_length.
      apply fmap_with_status_twice.
    + by rewrite list_lookup_insert_ne, list_lookup_alter_ne by done.
Qed.

(** One entry pushed by [resetHashTable], on the rendered table. *)
Lemma resetPush_view bucketSize ty st ents bs kv :
  0 < bucketSize ->
  table_ok bucketSize (mkHash ty st ents bs None false) ->
  collision_ok (mkHash ty st ents bs None false) ->
  (forall e, e ∈ ents -> e < length st) ->
  exists st' ents' bs',
    resetPush bucketSize (Ok (st, ents, bs)) kv = Ok (st', ents', bs') /\
    table_ok bucketSize (mkHash ty st' ents' bs' None false) /\
    collision_ok (mkHash ty st' ents' bs' None false) /\
    (forall e, e ∈ ents' -> e < length st') /\
    readBucket st' <$> bs'
      = insertView (mkEntry kv.1 kv.2 HDefault) (hashFunction bucketSize kv.1)
                   (readBucket st <$> bs) /\
    content <$> readBucket st' ents' = (content <$> readBucket st ents) ++ [kv].
Proof.
  intros Hpos Hok Hcol Halloc. pose proof Hok as [Hlen Hpl]. simpl in Hlen, Hpl.
  destruct (bucket_exists bucketSize kv.1 (mkHash ty st ents bs None false) Hpos Hlen)
    as [b Hb]. simpl in Hb.
  destruct (resetPush bucketSize (Ok (st, ents, bs)) kv) as [[[st' ents'] bs']|] eqn:E.
  2:{ unfold resetPush in E. by rewrite Hb in E. }
  destruct (resetPush_preserves _ _ _ _ _ _ _ _ _ Hok Hcol E) as [Hok' Hcol'].
  exists st', ents', bs'. split; [done|]. split; [done|]. split; [done|].
  unfold resetPush in E. rewrite Hb in E.
  set (new := length st) in *.
  set (e := mkEntry kv.1 kv.2 HDefault) in *.
  set (S1 := st ++ [e]) in *.
  set (b' := b ++ [new]) in *.
  set (S2 := if 1 <? length b' then markAll HCollision b' S1 else S1) in *.
  injection E as <- <- <-.
  assert (HlS2 : length S2 = S (length st)).
  { unfold S2. destruct (1 <? length b'); rewrite ?length_markAll; unfold S1;
      rewrite length_app; simpl; lia. }
  assert (Hcontent : forall r, content (S2 !!! r) = content (S1 !!! r)).
  { intros r. unfold S2. destruct (1 <? length b'); [apply content_markAll|done]. }
  assert (Hnew : S1 !!! new = e).
  { unfold S1, new. by rewrite lookup_total_app_r, Nat.sub_diag by lia. }
  assert (Hballoc : forall r, r ∈ b -> r < length st).
  { intros r Hr. by destruct (Hpl _ _ _ Hb Hr). }
  assert (Hread1 : readBucket S1 b' = readBucket st b ++ [e]).
  { unfold b', readBucket at 1. rewrite fmap_app. simpl. rewrite Hnew. f_equal.
    by apply readBucket_app. }
  split_and!.
  - intros r [Hr| ->%list_elem_of_singleton]%elem_of_app;
      rewrite HlS2; [|unfold new; lia].
    apply Halloc in Hr. lia.
  - unfold insertView. rewrite list_fmap_insert.
    apply (insert_as_alter _ (readBucket st) _ _ _ b); [done| |].
    + unfold normalise. rewrite length_app, readBucket_length. simpl.
      replace (length b + 1) with (length b') by (unfold b'; rewrite length_app; done).
      rewrite <-Hread1. unfold S2, occupancy.
      destruct (Nat.ltb_spec 1 (length b')) as [Hgt|Hle].
      * rewrite readBucket_markAll_self; [done|].
        intros r [Hr| ->%list_elem_of_singleton]%elem_of_app;
          unfold S1; rewrite length_app; simpl; [|unfold new; lia].
        apply Hballoc in Hr. lia.
      * unfold b' in Hle. rewrite length_app in Hle. simpl in Hle.
        destruct b; [|simpl in Hle; lia]. rewrite Hread1. done.
    + intros j bj Hne Hbj.
      assert (Hbjalloc : forall r, r ∈ bj -> r < length st).
      { intros r Hr. by destruct (Hpl _ _ _ Hbj Hr). }
      assert (readBucket S2 bj = readBucket S1 bj) as ->.
      { unfold S2. destruct (1 <? length b'); [|done].
        apply readBucket_markAll_other.
        intros r Hr [Hrb| ->%list_elem_of_singleton]%elem_of_app.
        - destruct (Hpl _ _ _ Hbj Hr) as [_ H1]. destruct (Hpl _ _ _ Hb Hrb) as [_ H2].
          congruence.
        - apply Hbjalloc in Hr. unfold new in Hr. lia. }
      by apply readBucket_app.
  - unfold readBucket. rewrite !fmap_app, <-!list_fmap_compose. f_equal.
    + apply list_fmap_ext. intros idx r Hr. simpl.
      assert (r < length st) by (apply Halloc; by eapply list_elem_of_lookup_2).
      rewrite Hcontent. unfold S1. by rewrite lookup_total_app_l.
    + simpl. rewrite Hcontent, Hnew. by destruct kv.
Qed.

(** [resetHashTable], on the rendered table: the five initial entries are
    inserted one by one into empty buckets. *)
Lemma reset_view bucketSize ty :
  0 < bucketSize ->
  exists h,
    resetHashTable bucketSize ty = Ok h /\
    sound bucketSize h /\ collision_ok h /\
    bucketView h
      = foldl (fun view kv => insertView (mkEntry kv.1 kv.2 HDefault)
                                (hashFunction bucketSize kv.1) view)
              (replicate bucketSize []) initialData /\
    content <$> entryView h = initialData /\
    hashType h = ty /\ selectedEntry h = None /\ isAnimating h = false.
Proof.
  intros Hpos. unfold resetHashTable.
  assert (Hgen : forall data st ents bs,
    table_ok bucketSize (mkHash ty st ents bs None false) ->
    collision_ok (mkHash ty st ents bs None false) ->
    (forall e, e ∈ ents -> e < length st) ->
    exists st' ents' bs',
      foldl (resetPush bucketSize) (Ok (st, ents, bs)) data = Ok (st', ents', bs') /\
      table_ok bucketSize (mkHash ty st' ents' bs' None false) /\
      collision_ok (mkHash ty st' ents' bs' None false) /\
      (forall e, e ∈ ents' -> e < length st') /\
      readBucket st' <$> bs'
        = foldl (fun view kv => insertView (mkEntry kv.1 kv.2 HDefault)
                                  (hashFunction bucketSize kv.1) view)
                (readBucket st <$> bs) data /\
      content <$> readBucket st' ents' = (content <$> readBucket st ents) ++ data).
  { induction data as [|kv data IH]; intros st ents bs Hok Hcol Halloc; cbn [foldl].
    - exists st, ents, bs. by rewrite app_nil_r.
    - destruct (resetPush_view bucketSize ty st ents bs kv Hpos Hok Hcol Halloc)
        as (st1 & ents1 & bs1 & -> & Hok1 & Hcol1 & Halloc1 & Hv1 & Hc1).
      destruct (IH st1 ents1 bs1 Hok1 Hcol1 Halloc1)
        as (st' & ents' & bs' & -> & Hok' & Hcol' & Halloc' & Hv' & Hc').
      exists st', ents', bs'. split_and!; [done..| |].
      + by rewrite Hv', Hv1.
      + by rewrite Hc', Hc1, <-app_assoc. }
  destruct (Hgen initialData [] [] (replicate bucketSize []))
    as (st & ents & bs & -> & Hok & Hcol & Halloc & Hv & Hc).
  - split; simpl; [by rewrite length_replicate|].
    intros i b r [-> _]%lookup_replicate Hr. by apply elem_of_nil in Hr.
  - intros i b r [-> _]%lookup_replicate Hr. by apply elem_of_nil in Hr.
  - intros e He. by apply elem_of_nil in He.
  - eexists. split; [reflexivity|].
    split_and!; [by split_and!|done| | |done..].
    + unfold bucketView. cbn [store buckets]. rewrite Hv. f_equal.
      rewrite fmap_replicate. done.
    + exact Hc.
Qed.

End hash_views.

Section hash_keys.
Import HashViz HashSpec.

Lemma concat_alter_split {A} (P : A -> Prop) (g : list A -> list A)
    (V : list (list A)) (i : nat) (B : list A) :
  V !! i = Some B ->
  (forall j Bj, j <> i -> V !! j = Some Bj -> Forall P Bj) ->
  exists rest,
    concat V ≡ₚ B ++ rest /\ concat (alter g i V) ≡ₚ g B ++ rest /\ Forall P rest.
Proof.
  revert i. induction V as [|x V IH]; intros [|i]; simpl; try done.
  - intros [= ->] Hother. exists (concat V). split_and!; [done|done|].
    apply Forall_concat, Forall_lookup. intros j Bj Hj.
    apply (Hother (S j)); [lia|done].
  - intros Hi Hother.
    destruct (IH i Hi) as (rest & H1 & H2 & H3).
    { intros j Bj Hne Hj. apply (Hother (S j)); [lia|done]. }
    exists (x ++ rest). split_and!.
    + rewrite H1, !app_assoc. by rewrite (Permutation_app_comm x B).
    + rewrite H2, !app_assoc. by rewrite (Permutation_app_comm x (g B)).
    + apply Forall_app. split; [|done]. by apply (Hother 0); [lia|].
Qed.

Lemma concat_keys_alter (g : list HashTableEntry -> list HashTableEntry)
    (V : list (list HashTableEntry)) i :
  (forall B, key <$> g B = key <$> B) ->
  key <$> concat (alter g i V) = key <$> concat V.
Proof.
  intros Hg. revert i. induction V as [|B V IH]; intros [|i]; try done.
  - simpl. by rewrite !fmap_app, Hg.
  - change (alter g (S i) (B :: V)) with (B :: alter g i V).
    cbn [concat]. by rewrite !fmap_app, IH.
Qed.

Lemma concat_keys_fmap (f : list HashTableEntry -> list HashTableEntry)
    (V : list (list HashTableEntry)) :
  (forall B, key <$> f B = key <$> B) ->
  key <$> concat (f <$> V) = key <$> concat V.
Proof.
  intros Hf. induction V as [|B V IH]; [done|].
  rewrite fmap_cons. cbn [concat]. by rewrite !fmap_app, Hf, IH.
Qed.

Lemma present_keys k h : present k h <-> k ∈ key <$> entryView h.
Proof.
  unfold present, entryView, readBucket. rewrite <-list_fmap_compose.
  rewrite list_elem_of_fmap. split.
  - intros (r & Hr & <-). by exists r.
  - intros (r & -> & Hr). by exists r.
Qed.

Lemma keys_of_content (l : list HashTableEntry) : key <$> l = fst <$> (content <$> l).
Proof. rewrite <-list_fmap_compose. by apply list_fmap_ext. Qed.

Lemma view_lookup h i b :
  buckets h !! i = Some b -> bucketView h !! i = Some (readBucket (store h) b).
Proof. intros Hb. unfold bucketView. by rewrite list_lookup_fmap, Hb. Qed.

Lemma view_lookup_inv h i B :
  bucketView h !! i = Some B ->
  exists b, buckets h !! i = Some b /\ B = readBucket (store h) b.
Proof.
  unfold bucketView. rewrite list_lookup_fmap.
  destruct (buckets h !! i) as [b|]; [|done]. intros [= <-]. eauto.
Qed.

(** In a sound table a bucket other than [hashFunction k] holds no entry
    with key [k]. *)
Lemma other_buckets_lack bucketSize k h j Bj :
  sound bucketSize h -> j <> hashFunction bucketSize k ->
  bucketView h !! j = Some Bj -> Forall (fun e => key e <> k) Bj.
Proof.
  intros (_ & [_ Hpl] & _) Hne (bj & Hbj & ->)%view_lookup_inv.
  apply Forall_fmap, Forall_forall. intros r Hr. simpl.
  destruct (Hpl _ _ _ Hbj Hr) as [_ Hh]. congruence.
Qed.

Lemma keys_normalise B : key <$> normalise B = key <$> B.
Proof. unfold normalise. rewrite <-list_fmap_compose. by apply list_fmap_ext. Qed.

Lemma keys_with_status s (B : list HashTableEntry) :
  key <$> (with_status s <$> B) = key <$> B.
Proof. rewrite <-list_fmap_compose. by apply list_fmap_ext. Qed.

Lemma keys_alter_status s j (B : list HashTableEntry) :
  key <$> alter (with_status s) j B = key <$> B.
Proof.
  revert j. induction B as [|e B IH]; intros [|j]; try done.
  change (alter (with_status s) (S j) (e :: B)) with (e :: alter (with_status s) j B).
  by rewrite !fmap_cons, IH.
Qed.

Lemma insert_keys_agree bucketSize k v h h' :
  sound bucketSize h -> keys_agree h -> ~ present k h ->
  bucketView h' = insertView (mkEntry k v HActive) (hashFunction bucketSize k) (bucketView h) ->
  key <$> entryView h' = (key <$> entryView h) ++ [k] ->
  keys_agree h'.
Proof.
  intros Hs [Hperm Hnd] Hnot Hv He.
  pose proof Hs as (Hpos & [Hlen _] & _).
  destruct (bucket_exists bucketSize k h Hpos Hlen) as [b Hb].
  destruct (concat_alter_split (fun _ => True)
              (fun B => normalise (B ++ [mkEntry k v HActive]))
              (bucketView h) _ _ (view_lookup _ _ _ Hb)) as (rest & H1 & H2 & _).
  { intros. by apply Forall_true. }
  split.
  - rewrite He, Hv. unfold insertView. rewrite H2, Hperm, H1.
    rewrite !fmap_app, keys_normalise, fmap_app. simpl.
    rewrite <-!app_assoc. f_equiv. apply Permutation_app_comm.
  - rewrite He. apply NoDup_app. split_and!; [done| |apply NoDup_singleton].
    intros x Hx ->%list_elem_of_singleton. by apply Hnot, present_keys.
Qed.

Lemma remove_keys_agree bucketSize k h h' :
  sound bucketSize h -> keys_agree h ->
  bucketView h' = removeView k (hashFunction bucketSize k) (bucketView h) ->
  key <$> entryView h' = filter (fun x => x <> k) (key <$> entryView h) ->
  keys_agree h'.
Proof.
  intros Hs [Hperm Hnd] Hv He.
  pose proof Hs as (Hpos & [Hlen _] & _).
  destruct (bucket_exists bucketSize k h Hpos Hlen) as [b Hb].
  destruct (concat_alter_split (fun e => key e <> k)
              (fun B => let B' := filter (fun e => key e <> k) B in
                        if length B' <=? 1 then with_status HDefault <$> B' else B')
              (bucketView h) _ _ (view_lookup _ _ _ Hb)) as (rest & H1 & H2 & H3).
  { intros j Bj Hne Hj. by eapply other_buckets_lack. }
  split.
  - rewrite He, Hv. unfold removeView. rewrite H2, Hperm, H1.
    rewrite !fmap_app, filter_app. f_equiv.
    + cbv zeta. rewrite filter_fmap_comm.
      destruct (length _ <=? 1); by rewrite ?keys_with_status.
    + rewrite filter_all; [done|]. by apply Forall_fmap.
  - rewrite He. by apply NoDup_filter.
Qed.

Lemma search_keys_agree bucketSize k h h' :
  keys_agree h ->
  bucketView h' = searchView k (hashFunction bucketSize k) (bucketView h) ->
  key <$> entryView h' = key <$> entryView h ->
  keys_agree h'.
Proof.
  intros [Hperm Hnd] Hv He. split; rewrite He; [|done].
  rewrite Hv, Hperm. unfold searchView.
  rewrite concat_keys_alter, concat_keys_fmap; [done|apply keys_normalise|].
  intros B. destruct (keyIndex k B); [apply keys_alter_status|done].
Qed.

End hash_keys.

Section hash_presence.
Import HashViz HashSpec.

Lemma length_insertView e i V : length (insertView e i V) = length V.
Proof. unfold insertView. by rewrite length_alter. Qed.

Lemma insertView_keys bucketSize e V :
  0 < bucketSize -> length V = bucketSize ->
  key <$> concat (insertView e (hashFunction bucketSize (key e)) V)
    ≡ₚ (key <$> concat V) ++ [key e].
Proof.
  intros Hpos Hlen.
  destruct (lookup_lt_is_Some_2 V (hashFunction bucketSize (key e))) as [B HB].
  { rewrite Hlen. by apply hashFunction_lt. }
  destruct (concat_alter_split (fun _ => True) (fun B => normalise (B ++ [e]))
              V _ _ HB) as (rest & H1 & H2 & _).
  { intros. by apply Forall_true. }
  unfold insertView. rewrite H2, H1, !fmap_app, keys_normalise, fmap_app. simpl.
  rewrite <-!app_assoc. f_equiv. apply Permutation_app_comm.
Qed.

Lemma concat_replicate_nil {A} n : concat (replicate n (@nil A)) = [].
Proof. induction n as [|n IH]; [done|]. simpl. exact IH. Qed.

(** [resetHashTable] establishes soundness, key agreement and the collision
    bookkeeping. *)
Lemma reset_keys_agree bucketSize ty h :
  0 < bucketSize -> resetHashTable bucketSize ty = Ok h ->
  sound bucketSize h /\ keys_agree h /\ collision_ok h.
Proof.
  intros Hpos Hr.
  destruct (reset_view bucketSize ty Hpos) as (h0 & Hr0 & Hs & Hc & Hv & He & _).
  rewrite Hr in Hr0. injection Hr0 as <-. split_and!; [done| |done].
  assert (Hk : key <$> entryView h = fst <$> initialData).
  { by rewrite keys_of_content, He. }
  split.
  - rewrite Hk, Hv.
    assert (Hgen : forall data V, length V = bucketSize ->
      key <$> concat (foldl (fun view kv =>
                 insertView (mkEntry kv.1 kv.2 HDefault)
                            (hashFunction bucketSize kv.1) view) V data)
        ≡ₚ (key <$> concat V) ++ (fst <$> data)).
    { induction data as [|kv data IH]; intros V HV.
      - simpl. by rewrite app_nil_r.
      - cbn [foldl]. rewrite IH by (by rewrite length_insertView).
        pose proof (insertView_keys bucketSize (mkEntry kv.1 kv.2 HDefault) V Hpos HV) as Hi.
        cbn [key] in Hi. rewrite Hi. by rewrite <-app_assoc. }
    rewrite Hgen by apply length_replicate.
    by rewrite concat_replicate_nil.
  - rewrite Hk. apply (bool_decide_unpack _). vm_compute. exact I.
Qed.

(** With key agreement, a key of the entry list sits in the bucket of its
    hash, and a key of that bucket is in the entry list. *)
Lemma present_bucket bucketSize k h B :
  sound bucketSize h -> keys_agree h ->
  bucketView h !! hashFunction bucketSize k = Some B ->
  (present k h <-> k ∈ key <$> B).
Proof.
  intros Hs [Hperm _] HB.
  destruct (concat_alter_split (fun e => key e <> k) id (bucketView h) _ _ HB)
    as (rest & H1 & _ & H3).
  { intros j Bj Hne Hj. by eapply other_buckets_lack. }
  rewrite present_keys, Hperm, H1, fmap_app, elem_of_app.
  split; [|by left]. intros [Hin|Hin]; [done|].
  apply list_elem_of_fmap in Hin as (e & -> & He).
  rewrite Forall_forall in H3. by destruct (H3 e He).
Qed.

Lemma keyIndex_absent k B : k ∉ key <$> B <-> keyIndex k B = None.
Proof.
  rewrite keyIndex_None, Forall_forall. split.
  - intros Hn e He Hk. apply Hn. rewrite <-Hk. by apply list_elem_of_fmap_2.
  - intros Hall (e & -> & He)%list_elem_of_fmap. by apply (Hall e He).
Qed.

Lemma keyIndex_last k B e rest :
  k ∉ key <$> B -> key e = k -> keyIndex k (B ++ e :: rest) = Some (length B).
Proof.
  intros Hn He. induction B as [|x B IH]; simpl.
  - by rewrite (proj2 (String.eqb_eq _ _) He).
  - rewrite fmap_cons, not_elem_of_cons in Hn. destruct Hn as [Hx Hn].
    rewrite (proj2 (String.eqb_neq _ _)) by done.
    by rewrite IH.
Qed.

Lemma normalise_idemp B : normalise (normalise B) = normalise B.
Proof.
  unfold normalise. by rewrite length_fmap, fmap_with_status_twice.
Qed.

Lemma alter_fix {A} (f : A -> A) (l : list A) i x :
  l !! i = Some x -> f x = x -> alter f i l = l.
Proof.
  intros Hi Hf. apply list_eq. intros j.
  destruct (decide (i = j)) as [<-|Hne].
  - by rewrite list_lookup_alter_eq, Hi; simpl; rewrite Hf.
  - by rewrite list_lookup_alter_ne.
Qed.

(** With the collision bookkeeping in place a bucket is rendered with the
    status of its size. *)
Lemma collision_ok_normalised h i B :
  collision_ok h -> bucketView h !! i = Some B ->
  forall s, s = occupancy (length B) -> with_status s <$> B = B.
Proof.
  intros Hc (b & Hb & ->)%view_lookup_inv s ->.
  unfold readBucket. rewrite length_fmap, <-list_fmap_compose.
  apply list_fmap_ext. intros j r Hr. simpl.
  pose proof (Hc i b r Hb (list_elem_of_lookup_2 _ _ _ Hr)) as Hst.
  destruct (store h !!! r) as [ek ev es]. simpl in *. by subst.
Qed.

End hash_presence.

Section hash_results.
Import HashViz HashSpec.

Lemma defaultTable_sound :
  sound 8 defaultTable /\ keys_agree defaultTable /\ collision_ok defaultTable.
Proof. apply (reset_keys_agree 8 HMap); [lia|exact defaultTable_reset]. Qed.

(** X15: an accepted insert followed by a search for the same key.  The
    search reports the key as found in the bucket of its hash and selects it;
    that bucket then shows its former entries, marked after the new bucket
    size, followed by the new entry, which is [active]. *)
Theorem insert_then_search bucketSize k v h :
  sound bucketSize h -> keys_agree h ->
  k <> EmptyString -> (hashType h = HMap -> v <> EmptyString) ->
  isAnimating h = false -> ~ present k h ->
  exists h1 h2 B,
    handleAddEntry bucketSize k v h = Ok (h1, []) /\
    handleSearch bucketSize k h1 = Ok (h2, [FoundIn k (hashFunction bucketSize k)]) /\
    bucketView h !! hashFunction bucketSize k = Some B /\
    bucketView h2 !! hashFunction bucketSize k
      = Some ((with_status (occupancy (S (length B))) <$> B) ++
              [mkEntry k (match hashType h with
                          | HMap => VString v | HSet => VBool true end) HActive]) /\
    selectedEntry h2 = Some k /\ present k h2.
Proof.
  intros Hs Hka Hk Hv Han Hnot.
  destruct (insert_view bucketSize k v h Hs Hk Hv Han Hnot)
    as (h1 & Ha & Hs1 & Hv1 & Hc1 & _ & _ & Han1).
  destruct (search_view bucketSize k h1 Hs1 Hk Han1)
    as (h2 & Hb & Hs2 & Hv2 & Hc2 & _ & _ & Hsel2).
  pose proof Hs as (Hpos & [Hlen _] & _).
  destruct (bucket_exists bucketSize k h Hpos Hlen) as [b Hb0].
  pose proof (view_lookup _ _ _ Hb0) as HB.
  set (B := readBucket (store h) b) in *.
  set (val := match hashType h with HMap => VString v | HSet => VBool true end) in *.
  set (i := hashFunction bucketSize k) in *.
  assert (HnB : k ∉ key <$> B).
  { intros Hin. by apply Hnot, (present_bucket bucketSize k h B). }
  assert (H1 : bucketView h1 !! i = Some (normalise (B ++ [mkEntry k val HActive]))).
  { rewrite Hv1. unfold insertView. by rewrite list_lookup_alter_eq, HB. }
  assert (Hidx : keyIndex k (normalise (B ++ [mkEntry k val HActive])) = Some (length B)).
  { rewrite (keyIndex_content k _ (B ++ [mkEntry k val HActive])) by apply keys_normalise.
    by apply keyIndex_last. }
  assert (Hn : searchNotice k i (bucketView h1) = FoundIn k i).
  { unfold searchNotice. rewrite H1. simpl. by rewrite Hidx. }
  rewrite Hn in Hb, Hsel2.
  exists h1, h2, B. split_and!; [done|done|done| |done|].
  - rewrite Hv2. unfold searchView.
    rewrite list_lookup_alter_eq, list_lookup_fmap, H1. simpl.
    rewrite normalise_idemp, Hidx. f_equal.
    unfold normalise. rewrite length_app, fmap_app. simpl.
    rewrite Nat.add_1_r.
    pose proof (alter_app_r (with_status HActive)
                  (with_status (occupancy (S (length B))) <$> B)
                  [with_status (occupancy (S (length B))) (mkEntry k val HActive)] 0) as Hl.
    rewrite length_fmap, Nat.add_0_r in Hl. exact Hl.
  - apply present_keys. rewrite keys_of_content, Hc2, Hc1, fmap_app.
    apply elem_of_app. right. simpl. apply list_elem_of_here.
Qed.

Lemma insert_then_search_witness :
  exists h1 h2,
    handleAddEntry 8 "tag" "new" defaultTable = Ok (h1, []) /\
    handleSearch 8 "tag" h1 = Ok (h2, [FoundIn "tag" 3]) /\
    bucketStatuses h2 3 = [("name", HCollision); ("tag", HActive)]%string.
Proof.
  destruct defaultTable_sound as (Hs & Hka & _).
  destruct (insert_then_search 8 "tag" "new" defaultTable Hs Hka)
    as (h1 & h2 & B & Ha & Hb & HB & HB2 & _); [done|done|reflexivity| |].
  { intros (r & Hr & Hk). vm_compute in Hr.
    repeat (apply elem_of_cons in Hr as [->|Hr]; [by vm_compute in Hk|]).
    by apply elem_of_nil in Hr. }
  assert (Hh : hashFunction 8 "tag" = 3) by (vm_compute; reflexivity).
  rewrite Hh in Hb, HB, HB2.
  exists h1, h2. split; [exact Ha|]. split; [exact Hb|].
  unfold bucketStatuses. rewrite HB2. vm_compute in HB. injection HB as <-. reflexivity.
Defined.

(** X16: the removal of a present key followed by a search for it.  The key
    is no longer in the entry list, the search reports it as not found, and
    nothing is selected. *)
Theorem remove_then_search bucketSize k h :
  sound bucketSize h -> k <> EmptyString -> present k h -> isAnimating h = false ->
  exists h1 h2,
    handleRemoveEntry bucketSize k h = Ok (h1, []) /\
    ~ present k h1 /\
    handleSearch bucketSize k h1 = Ok (h2, [NotFound k]) /\
    content <$> entryView h2 = filter (fun c => c.1 <> k) (content <$> entryView h) /\
    selectedEntry h2 = None.
Proof.
  intros Hs Hk Hp Han.
  destruct (remove_view bucketSize k h Hs Hp Han)
    as (h1 & Hr & Hs1 & Hv1 & Hc1 & _ & Hsel1 & Han1).
  destruct (search_view bucketSize k h1 Hs1 Hk Han1)
    as (h2 & Hb & Hs2 & Hv2 & Hc2 & _ & _ & Hsel2).
  pose proof Hs as (Hpos & [Hlen _] & _).
  destruct (bucket_exists bucketSize k h Hpos Hlen) as [b Hb0].
  pose proof (view_lookup _ _ _ Hb0) as HB.
  assert (Hn : searchNotice k (hashFunction bucketSize k) (bucketView h1) = NotFound k).
  { unfold searchNotice. rewrite Hv1. unfold removeView.
    rewrite list_lookup_alter_eq, HB. simpl.
    set (B' := filter _ _).
    assert (HB' : Forall (fun e => key e <> k) B').
    { apply Forall_forall. intros e He. by apply list_elem_of_filter in He as [? _]. }
    replace (keyIndex k _) with (@None nat); [done|]. symmetry.
    apply keyIndex_None. destruct (length B' <=? 1); [|done].
    by apply Forall_fmap. }
  rewrite Hn in Hb, Hsel2.
  exists h1, h2. split_and!; [done| |done|by rewrite Hc2|by rewrite Hsel2].
  rewrite present_keys, keys_of_content, Hc1.
  intros (c & -> & Hc)%list_elem_of_fmap.
  by apply list_elem_of_filter in Hc as [? _].
Qed.

Lemma job_present : present "job" defaultTable.
Proof. exists 4. split; [|reflexivity]. apply list_elem_of_In. simpl. auto 10. Qed.

Lemma remove_then_search_witness :
  exists h1 h2,
    handleRemoveEntry 8 "job" defaultTable = Ok (h1, []) /\
    handleSearch 8 "job" h1 = Ok (h2, [NotFound "job"]) /\
    content <$> entryView h2
      = [("name", VString "John"); ("age", VNumber 25); ("city", VString "New York");
         ("country", VString "USA")]%string.
Proof.
  destruct defaultTable_sound as (Hs & _ & _).
  destruct (remove_then_search 8 "job" defaultTable Hs)
    as (h1 & h2 & Hr & _ & Hb & Hc & _); [done|exact job_present|reflexivity|].
  exists h1, h2. split; [exact Hr|]. split; [exact Hb|].
  rewrite Hc. vm_compute. reflexivity.
Defined.

End hash_results.

Section hash_laws.
Import HashViz HashSpec.

(** X17: a search reports a key as found exactly when the key is in the
    entry list.  A found key becomes the selected entry, a missing key leaves
    the selection alone, and the entry list keeps its content either way. *)
Theorem search_reports_presence bucketSize k h :
  sound bucketSize h -> keys_agree h -> k <> EmptyString -> isAnimating h = false ->
  exists h' n,
    handleSearch bucketSize k h = Ok (h', [n]) /\
    (present k h ->
       n = FoundIn k (hashFunction bucketSize k) /\ selectedEntry h' = Some k) /\
    (~ present k h -> n = NotFound k /\ selectedEntry h' = selectedEntry h) /\
    content <$> entryView h' = content <$> entryView h.
Proof.
  intros Hs Hka Hk Han.
  destruct (search_view bucketSize k h Hs Hk Han)
    as (h' & Hb & _ & _ & Hc & _ & _ & Hsel).
  pose proof Hs as (Hpos & [Hlen _] & _).
  destruct (bucket_exists bucketSize k h Hpos Hlen) as [b Hb0].
  pose proof (view_lookup _ _ _ Hb0) as HB.
  pose proof (present_bucket bucketSize k h _ Hs Hka HB) as Hpb.
  exists h', (searchNotice k (hashFunction bucketSize k) (bucketView h)).
  split; [done|]. split_and!; [| |done].
  - intros Hp. apply Hpb in Hp. revert Hsel. unfold searchNotice. rewrite HB. simpl.
    destruct (keyIndex k (readBucket (store h) b)) eqn:Hi; [done|].
    by apply keyIndex_absent in Hi.
  - intros Hnp. revert Hsel. unfold searchNotice. rewrite HB. simpl.
    destruct (keyIndex k (readBucket (store h) b)) eqn:Hi; [|done].
    destruct Hnp. apply Hpb. apply keyIndex_Some in Hi as (e & He & <-).
    apply list_elem_of_fmap_2. by eapply list_elem_of_lookup_2.
Qed.

Lemma search_reports_presence_witness :
  exists h' n,
    handleSearch 8 "job" defaultTable = Ok (h', [n]) /\
    n = FoundIn "job" (hashFunction 8 "job") /\ selectedEntry h' = Some "job"%string.
Proof.
  destruct defaultTable_sound as (Hs & Hka & _).
  destruct (search_reports_presence 8 "job" defaultTable Hs Hka)
    as (h' & n & Hb & Hfound & _); [done|reflexivity|].
  exists h', n. split; [exact Hb|]. exact (Hfound job_present).
Defined.

(** X18: inserting a new key and removing it again.  When the collision
    bookkeeping holds beforehand, the rendered buckets and the content of the
    entry list are the same as before the two operations. *)
Theorem insert_remove_roundtrip bucketSize k v h :
  sound bucketSize h -> keys_agree h -> collision_ok h ->
  k <> EmptyString -> (hashType h = HMap -> v <> EmptyString) ->
  isAnimating h = false -> ~ present k h ->
  exists h1 h2,
    handleAddEntry bucketSize k v h = Ok (h1, []) /\
    handleRemoveEntry bucketSize k h1 = Ok (h2, []) /\
    bucketView h2 = bucketView h /\
    content <$> entryView h2 = content <$> entryView h /\
    hashType h2 = hashType h.
Proof.
  intros Hs Hka Hcol Hk Hv Han Hnot.
  destruct (insert_view bucketSize k v h Hs Hk Hv Han Hnot)
    as (h1 & Ha & Hs1 & Hv1 & Hc1 & Hty1 & _ & Han1).
  assert (Hp1 : present k h1).
  { apply present_keys. rewrite keys_of_content, Hc1, fmap_app.
    apply elem_of_app. right. simpl. apply list_elem_of_here. }
  destruct (remove_view bucketSize k h1 Hs1 Hp1 Han1)
    as (h2 & Hr & _ & Hv2 & Hc2 & Hty2 & _).
  pose proof Hs as (Hpos & [Hlen _] & _).
  destruct (bucket_exists bucketSize k h Hpos Hlen) as [b Hb0].
  pose proof (view_lookup _ _ _ Hb0) as HB.
  set (B := readBucket (store h) b) in *.
  set (val := match hashType h with HMap => VString v | HSet => VBool true end) in *.
  assert (HnB : Forall (fun e => key e <> k) B).
  { apply keyIndex_None, keyIndex_absent. intros Hin.
    by apply Hnot, (present_bucket bucketSize k h B). }
  exists h1, h2. split_and!; [done|done| | |congruence].
  - rewrite Hv2, Hv1. unfold removeView, insertView.
    rewrite list_alter_alter_eq. apply (alter_fix _ _ _ B); [done|].
    simpl. unfold normalise. rewrite length_app, fmap_app, filter_app. simpl.
    rewrite filter_cons_False, filter_nil, app_nil_r by (simpl; tauto).
    rewrite filter_fmap_comm. simpl. rewrite filter_all by done.
    rewrite length_fmap.
    destruct (length B <=? 1) eqn:Hle.
    + rewrite fmap_with_status_twice.
      apply (collision_ok_normalised h _ B Hcol HB).
      unfold occupancy. apply Nat.leb_le in Hle.
      by rewrite (proj2 (Nat.ltb_ge _ _)) by lia.
    + apply (collision_ok_normalised h _ B Hcol HB).
      unfold occupancy. apply Nat.leb_gt in Hle.
      by rewrite !(proj2 (Nat.ltb_lt _ _)) by lia.
  - rewrite Hc2, Hc1, filter_app. simpl.
    rewrite filter_cons_False, filter_nil, app_nil_r by (simpl; tauto).
    apply filter_all, Forall_forall. intros c Hc Heq. apply Hnot, present_keys.
    rewrite keys_of_content, <-Heq. by apply list_elem_of_fmap_2.
Qed.

Lemma tag_absent : ~ present "tag" defaultTable.
Proof.
  intros (r & Hr & Hk). vm_compute in Hr.
  repeat (apply elem_of_cons in Hr as [->|Hr]; [by vm_compute in Hk|]).
  by apply elem_of_nil in Hr.
Qed.

Lemma insert_remove_roundtrip_witness :
  exists h1 h2,
    handleAddEntry 8 "tag" "new" defaultTable = Ok (h1, []) /\
    handleRemoveEntry 8 "tag" h1 = Ok (h2, []) /\
    bucketView h2 = bucketView defaultTable.
Proof.
  destruct defaultTable_sound as (Hs & Hka & Hcol).
  destruct (insert_remove_roundtrip 8 "tag" "new" defaultTable Hs Hka Hcol)
    as (h1 & h2 & Ha & Hr & Hv & _); [done|done|reflexivity|exact tag_absent|].
  exists h1, h2. split; [exact Ha|]. split; [exact Hr|]. exact Hv.
Defined.

End hash_laws.

Section hash_agreement.
Import HashViz HashSpec.

Lemma someCollides_spec bucketSize st bs ents :
  0 < bucketSize -> length bs = bucketSize ->
  exists c, someCollides bucketSize st bs ents = Ok c /\
    (c = true <->
     exists e b, e ∈ ents /\ bs !! hashFunction bucketSize (key (st !!! e)) = Some b /\
                 1 < length b).
Proof.
  intros Hpos Hlen. induction ents as [|e ents (c & IH & Hc)]; simpl.
  - exists false. split; [done|]. split; [done|].
    intros (e & b & He & _). by apply elem_of_nil in He.
  - destruct (lookup_lt_is_Some_2 bs (hashFunction bucketSize (key (st !!! e)))) as [b Hb].
    { rewrite Hlen. by apply hashFunction_lt. }
    rewrite Hb. destruct (Nat.ltb_spec 1 (length b)) as [Hlt|Hge].
    + exists true. split; [done|]. split; [|done]. intros _.
      exists e, b. split; [apply list_elem_of_here|done].
    + exists c. split; [done|]. rewrite Hc. split.
      * intros (e' & b' & He' & Hb' & Hl'). exists e', b'.
        split; [by apply list_elem_of_further|done].
      * intros (e' & b' & He' & Hb' & Hl').
        apply elem_of_cons in He' as [->|He']; [|by exists e', b'].
        rewrite Hb in Hb'. injection Hb' as <-. lia.
Qed.

Lemma elem_of_concat {A} (x : A) (l : list A) (ls : list (list A)) :
  x ∈ l -> l ∈ ls -> x ∈ concat ls.
Proof.
  intros Hx. induction 1 as [|l' ls Hl IH]; simpl; apply elem_of_app; auto.
Qed.

(** X19: the entry list and the buckets never disagree.  A reset table is
    sound and holds the same keys, each once, in its entry list and in its
    buckets; every insert, removal and search on such a table returns without
    an exception, whether it is accepted or turned down, and the table it
    leaves is again sound with agreeing keys. *)
Theorem keys_always_agree bucketSize :
  0 < bucketSize ->
  (forall ty, exists h,
     resetHashTable bucketSize ty = Ok h /\ sound bucketSize h /\ keys_agree h) /\
  (forall h, sound bucketSize h -> keys_agree h ->
     (forall k v, exists h' ns,
        handleAddEntry bucketSize k v h = Ok (h', ns) /\
        sound bucketSize h' /\ keys_agree h') /\
     (forall k, exists h' ns,
        handleRemoveEntry bucketSize k h = Ok (h', ns) /\
        sound bucketSize h' /\ keys_agree h') /\
     (forall k, exists h' ns,
        handleSearch bucketSize k h = Ok (h', ns) /\
        sound bucketSize h' /\ keys_agree h')).
Proof.
  intros Hpos. split.
  { intros ty. destruct (reset_view bucketSize ty Hpos) as (h & Hr & _).
    exists h. split; [done|].
    destruct (reset_keys_agree bucketSize ty h Hpos Hr) as (? & ? & _). done. }
  intros h Hs Hka. split_and!.
  - intros k v.
    destruct (String.eqb k "" ||
              (match hashType h with HMap => String.eqb v "" | HSet => false end) ||
              isAnimating h) eqn:Hrej.
    { exists h, []. unfold handleAddEntry. by rewrite Hrej. }
    destruct (existsb (fun r => String.eqb (key (store h !!! r)) k) (entries h)) eqn:Hdup.
    { exists h, [DuplicateKey k]. unfold handleAddEntry. by rewrite Hrej, Hdup. }
    apply orb_false_elim in Hrej as [Hrej Han].
    apply orb_false_elim in Hrej as [Hk Hv].
    apply String.eqb_neq in Hk.
    assert (Hnot : ~ present k h).
    { intros Hp. apply present_existsb in Hp. congruence. }
    assert (Hv' : hashType h = HMap -> v <> EmptyString).
    { intros Hty. rewrite Hty in Hv. by apply String.eqb_neq. }
    destruct (insert_view bucketSize k v h Hs Hk Hv' Han Hnot)
      as (h' & Ha & Hs' & Hview & Hc & _).
    exists h', []. split_and!; [done|done|].
    eapply (insert_keys_agree bucketSize k _ h h'); [done..|].
    rewrite !keys_of_content, Hc, fmap_app. done.
  - intros k. destruct (isAnimating h) eqn:Han.
    { exists h, []. unfold handleRemoveEntry. by rewrite Han. }
    destruct (findIndex (store h) k (entries h)) as [j|] eqn:Hfind.
    2:{ exists h, []. unfold handleRemoveEntry. by rewrite Han, Hfind. }
    assert (Hp : present k h).
    { apply findIndex_Some in Hfind as (r & Hr & Hkey).
      exists r. split; [by eapply list_elem_of_lookup_2|done]. }
    destruct (remove_view bucketSize k h Hs Hp Han) as (h' & Hr & Hs' & Hview & Hc & _).
    exists h', []. split_and!; [done|done|].
    eapply (remove_keys_agree bucketSize k h h'); [done..|].
    rewrite !keys_of_content, Hc.
    rewrite (filter_fmap_comm fst (fun x => x <> k)). done.
  - intros k. destruct (String.eqb k "" || isAnimating h) eqn:Hrej.
    { exists h, []. unfold handleSearch. by rewrite Hrej. }
    apply orb_false_elim in Hrej as [Hk Han]. apply String.eqb_neq in Hk.
    destruct (search_view bucketSize k h Hs Hk Han) as (h' & Hb & Hs' & Hview & Hc & _).
    eexists h', _. split_and!; [done|done|].
    eapply (search_keys_agree bucketSize k h h'); [done..|].
    by rewrite !keys_of_content, Hc.
Qed.

Lemma keys_always_agree_witness :
  exists h, resetHashTable 8 HSet = Ok h /\ sound 8 h /\ keys_agree h.
Proof.
  destruct (keys_always_agree 8 ltac:(lia)) as [Hreset _]. exact (Hreset HSet).
Defined.

(** X20: the "Collisions detected" banner.  On a sound table with agreeing
    keys the condition of the banner is evaluated without an exception, and
    it holds exactly when some bucket has more than one entry. *)
Theorem collision_banner bucketSize h :
  sound bucketSize h -> keys_agree h ->
  exists c, collisionsDetected bucketSize h = Ok c /\
    (c = true <-> exists i b, buckets h !! i = Some b /\ 1 < length b).
Proof.
  intros Hs [Hperm _]. pose proof Hs as (Hpos & [Hlen Hpl] & _).
  destruct (someCollides_spec bucketSize (store h) (buckets h) (entries h) Hpos Hlen)
    as (c & Hc & Hiff).
  exists c. split; [done|]. rewrite Hiff. split.
  - intros (e & b & _ & Hb & Hl). eauto.
  - intros (i & b & Hb & Hl).
    destruct b as [|r b']; [simpl in Hl; lia|].
    destruct (Hpl i (r :: b') r Hb (list_elem_of_here _ _)) as [_ Hh].
    assert (Hin : key (store h !!! r) ∈ key <$> concat (bucketView h)).
    { apply list_elem_of_fmap_2.
      apply (elem_of_concat _ (readBucket (store h) (r :: b'))); [apply list_elem_of_here|].
      eapply list_elem_of_lookup_2. by apply view_lookup. }
    rewrite <-Hperm in Hin. apply present_keys in Hin as (e & He & Hk).
    exists e, (r :: b'). split; [done|]. split; [|done]. by rewrite Hk, Hh.
Qed.

Lemma collision_banner_witness :
  exists c, collisionsDetected 8 defaultTable = Ok c /\
    (c = true <-> exists i b, buckets defaultTable !! i = Some b /\ 1 < length b).
Proof.
  destruct defaultTable_sound as (Hs & Hka & _).
  exact (collision_banner 8 defaultTable Hs Hka).
Defined.

End hash_agreement.

Section list_sequences.
Import ListViz ListSpec.

Lemma update_lt f i l : i < length l -> update f i l = Ok (alter f i l).
Proof.
  intros Hi. unfold update.
  by destruct (lookup_lt_is_Some_2 l i Hi) as [x ->].
Qed.

Lemma update_ge f i l : length l <= i -> update f i l = Throw TypeError.
Proof. intros Hi. unfold update. by rewrite lookup_ge_None_2. Qed.

Lemma length_chain ty vs : length (chain ty vs) = length vs.
Proof. unfold chain. by rewrite length_imap. Qed.

Lemma chain_lookup ty vs i :
  chain ty vs !! i = chainNode ty (length vs) i <$> vs !! i.
Proof. unfold chain. by rewrite list_lookup_imap. Qed.

Lemma chain_values ty vs : value <$> chain ty vs = vs.
Proof.
  apply list_eq. intros i. rewrite list_lookup_fmap, chain_lookup.
  by destruct (vs !! i).
Qed.

Lemma resetList_listOf ty : resetList ty = listOf ty [10; 20; 30; 40]%Z.
Proof. by destruct ty. Qed.

End list_sequences.

Section list_ops.
Import ListViz ListSpec.

Local Ltac link_cases :=
  repeat match goal with
  | |- context [?a <? ?b] => destruct (Nat.ltb_spec a b)
  | |- context [match ?i with 0 => _ | S _ => _ end] => destruct i eqn:?
  | |- context [match ?t with Singly => _ | Doubly => _ | Circular => _ end] =>
      is_var t; destruct t
  end;
  simpl in *; try done; try lia; try (repeat f_equal; lia).

Lemma listOf_nonempty ty vs :
  0 < length vs ->
  listOf ty vs = mkList ty (chain ty vs) (Some 0) (Some (length vs - 1)) false.
Proof. by destruct vs; [simpl; lia|]. Qed.

Lemma addToTail_chain ty vs v :
  (ty = Circular -> vs <> []) ->
  handleAddToTail (Some v) (listOf ty vs) = Ok (listOf ty (vs ++ [v])).
Proof.
  intros Hne. destruct vs as [|x vs'].
  { destruct ty; [reflexivity|reflexivity|by destruct Hne]. }
  clear Hne. remember (x :: vs') as vs eqn:Hvs.
  assert (Hn : 0 < length vs) by (subst vs; simpl; lia). clear Hvs.
  rewrite !listOf_nonempty by (rewrite ?length_app; lia).
  unfold handleAddToTail. cbn [isAnimating tail head nodes listType].
  rewrite update_lt by (rewrite length_chain; lia).
  cbn match.
  rewrite update_lt by (rewrite length_app, length_alter, length_chain; simpl; lia).
  rewrite length_app, length_alter, !length_chain.
  cbn [length]. replace (length vs + 1 - 1) with (length vs) by lia.
  f_equal. f_equal; [|f_equal; rewrite length_app; simpl; lia].
  apply list_eq. intros i.
  rewrite chain_lookup, length_app. cbn [length].
  destruct (lt_eq_lt_dec i (length vs)) as [[Hlt| ->]|Hgt].
  - rewrite list_lookup_alter_ne by lia.
    rewrite lookup_app_l by (rewrite length_alter, length_chain; lia).
    rewrite (lookup_app_l vs) by lia.
    rewrite list_lookup_alter, !chain_lookup.
    destruct (vs !! i) as [y|] eqn:Hy; [|apply lookup_ge_None in Hy; lia].
    destruct (decide (length vs - 1 = i)) as [Hi|Hi].
    + rewrite Hi, Hy. simpl. f_equal. unfold chainNode, set_next. simpl.
      f_equal; link_cases.
    + simpl. f_equal. unfold chainNode. f_equal; link_cases.
  - rewrite list_lookup_alter_eq.
    rewrite lookup_app_r by (rewrite length_alter, length_chain; lia).
    rewrite (lookup_app_r vs) by lia.
    rewrite length_alter, length_chain, Nat.sub_diag. simpl.
    f_equal. unfold chainNode, set_status. destruct ty; simpl; f_equal; link_cases.
  - rewrite list_lookup_alter_ne by lia.
    rewrite !lookup_ge_None_2; [done|rewrite length_app; simpl; lia|].
    rewrite length_app, length_alter, length_chain. simpl. lia.
Qed.

Lemma findNewTail_first t l : forall i0 k y,
  (forall j x, j < k -> l !! j = Some x -> next x <> Some t) ->
  l !! k = Some y -> next y = Some t -> i0 + k <> t ->
  findNewTail t i0 l = Some (i0 + k).
Proof.
  induction l as [|n l IH]; intros i0 k y Hbefore Hk Hy Hne; [done|].
  destruct k as [|k]; simpl.
  - injection Hk as ->. rewrite Nat.add_0_r in *.
    rewrite (proj2 (Nat.eqb_neq _ _)) by done.
    by rewrite bool_decide_eq_true_2.
  - rewrite (bool_decide_eq_false_2 (next n = Some t)), andb_false_r.
    2:{ apply (Hbefore 0 n); [lia|done]. }
    rewrite (IH (S i0) k y); [f_equal; lia| |done|done|lia].
    intros j x Hj Hx. apply (Hbefore (S j) x); [lia|done].
Qed.

Lemma removeFromTail_chain ty vs v :
  handleRemoveFromTail (listOf ty (vs ++ [v])) = Ok (listOf ty vs).
Proof.
  destruct vs as [|x vs'].
  { by destruct ty. }
  remember (x :: vs') as vs eqn:Hvs.
  assert (Hn : 0 < length vs) by (subst vs; simpl; lia). clear Hvs.
  rewrite !listOf_nonempty by (rewrite ?length_app; simpl; lia).
  unfold handleRemoveFromTail. cbn [isAnimating tail head nodes listType].
  rewrite length_app. cbn [length]. replace (length vs + 1 - 1) with (length vs) by lia.
  rewrite update_lt by (rewrite length_chain, length_app; simpl; lia).
  rewrite bool_decide_eq_false_2 by (intros [= ?]; lia).
  destruct (lookup_lt_is_Some_2 vs (length vs - 1) ltac:(lia)) as [y Hy].
  rewrite (findNewTail_first _ _ 0 (length vs - 1)
             (chainNode ty (length vs + 1) (length vs - 1) y)).
  2:{ intros j n Hj. rewrite list_lookup_alter_ne, chain_lookup by lia.
      rewrite lookup_app_l by lia.
      destruct (vs !! j) as [z|] eqn:Hz; [|done]. intros [= <-].
      rewrite length_app. unfold chainNode. simpl. link_cases.
      intros [= ?]. lia. }
  2:{ rewrite list_lookup_alter_ne, chain_lookup by lia.
      rewrite lookup_app_l by lia. rewrite Hy. simpl. by rewrite length_app. }
  2:{ unfold chainNode. simpl. link_cases. }
  2:{ lia. }
  cbn [Nat.add]. unfold removeAt.
  assert (Hfinal : forall X,
    X = (if S (length vs - 1) <? length vs then Some (length vs)
         else match ty with Circular => Some 0 | _ => None end) ->
    update (set_next X) (length vs - 1)
      (delete (length vs) (alter (set_status NDeleted) (length vs) (chain ty (vs ++ [v]))))
    = Ok (chain ty vs)).
  { intros X ->. rewrite update_lt.
    2:{ rewrite length_delete, length_alter, length_chain, length_app; [simpl; lia|].
        apply lookup_lt_is_Some_2.
        rewrite length_alter, length_chain, length_app. simpl. lia. }
    f_equal. apply list_eq. intros i.
    rewrite list_lookup_alter, !chain_lookup.
    destruct (decide (i < length vs)) as [Hlt|Hge].
    - rewrite !list_lookup_delete_lt, !list_lookup_alter_ne, !chain_lookup by lia.
      rewrite !lookup_app_l by lia. rewrite Hy, length_app.
      destruct (vs !! i) as [z|] eqn:Hz; [|apply lookup_ge_None in Hz; lia].
      destruct (decide (length vs - 1 = i)) as [Hi|Hi].
      + rewrite Hi in Hy. rewrite Hz in Hy. injection Hy as ->.
        simpl. f_equal. unfold chainNode, set_next. simpl. rewrite Hi.
        f_equal; link_cases.
      + simpl. f_equal. unfold chainNode. f_equal; link_cases.
    - rewrite (lookup_ge_None_2 vs i) by lia.
      rewrite decide_False by lia.
      rewrite list_lookup_delete_ge by lia.
      rewrite lookup_ge_None_2; [done|].
      rewrite length_alter, length_chain, length_app. simpl. lia. }
  destruct ty; rewrite Hfinal; try done; link_cases.
Qed.

Lemma chain_cons ty v vs :
  chain ty (v :: vs)
  = chainNode ty (S (length vs)) 0 v :: imap (fun i => chainNode ty (S (length vs)) (S i)) vs.
Proof. done. Qed.

Lemma removeFromHead_chain ty v vs :
  (ty = Circular -> vs <> []) ->
  handleRemoveFromHead (listOf ty (v :: vs)) = Ok (listOf ty vs).
Proof.
  intros Hne. destruct vs as [|x vs'].
  { destruct ty; [reflexivity|reflexivity|by destruct Hne]. }
  clear Hne. remember (x :: vs') as vs eqn:Hvs.
  assert (Hn : 0 < length vs) by (subst vs; simpl; lia). clear Hvs.
  rewrite (listOf_nonempty ty vs) by done.
  unfold handleRemoveFromHead, listOf. cbn [isAnimating tail head nodes listType].
  rewrite chain_cons. unfold update at 1. cbn [lookup list_lookup alter list_alter].
  cbn [lookup_total list_lookup_total set_status chainNode next].
  rewrite (proj2 (Nat.ltb_lt 1 (S (length vs)))) by lia.
  cbn [length]. replace (S (length vs) - 1) with (length vs) by lia.
  rewrite (proj2 (Nat.ltb_lt 0 (length vs))) by done.
  destruct ty.
  - unfold removeAt. cbn [delete list_delete]. f_equal. f_equal.
    apply list_eq. intros i.
    rewrite list_lookup_fmap, list_lookup_imap, chain_lookup.
    destruct (vs !! i) as [y|]; [|done]. simpl. f_equal.
    unfold chainNode, shiftDown; simpl. f_equal; link_cases.
  - rewrite update_lt by (simpl; rewrite length_imap; lia).
    unfold removeAt. cbn [alter list_alter delete list_delete]. f_equal. f_equal.
    apply list_eq. intros i.
    rewrite list_lookup_fmap, list_lookup_alter, !list_lookup_imap, chain_lookup.
    destruct (decide (0 = i)) as [<-|Hi].
    + destruct (vs !! 0) as [y|]; [|done]. simpl. f_equal.
      unfold chainNode, shiftDown; simpl. f_equal; link_cases.
    + destruct (vs !! i) as [y|]; [|done]. simpl. f_equal.
      unfold chainNode, shiftDown; simpl. f_equal; link_cases.
  - unfold removeAt. cbn [delete list_delete].
    rewrite update_lt by (rewrite length_fmap, length_imap; lia).
    f_equal. f_equal. apply list_eq. intros i.
    rewrite list_lookup_alter, !list_lookup_fmap, !list_lookup_imap, chain_lookup.
    destruct (decide (length vs - 1 = i)) as [<-|Hi].
    + destruct (vs !! (length vs - 1)) as [y|]; [|done]. simpl. f_equal.
      unfold chainNode, shiftDown, set_next; simpl. f_equal; link_cases.
    + destruct (vs !! i) as [y|] eqn:Hy; [|done]. simpl. f_equal.
      apply lookup_lt_Some in Hy.
      unfold chainNode, shiftDown; simpl. f_equal; link_cases.
Qed.

(** A circular list of one node: [next] of the head is the head itself, so
    the removal takes the branch for a non-empty remainder and writes to
    [adjustedNodes[0]], which does not exist. *)
Lemma removeFromHead_single_ring v :
  handleRemoveFromHead (listOf Circular [v]) = Throw TypeError.
Proof. reflexivity. Qed.

Lemma addToHead_chain ty vs v :
  (ty = Doubly -> vs = []) -> (ty = Circular -> vs <> []) ->
  handleAddToHead (Some v) (listOf ty vs) = Ok (listOf ty (v :: vs)).
Proof.
  intros Hd Hc. destruct vs as [|x vs'].
  { destruct ty; [reflexivity|reflexivity|by destruct Hc]. }
  clear Hc. remember (x :: vs') as vs eqn:Hvs.
  assert (Hn : 0 < length vs) by (subst vs; simpl; lia).
  assert (Hty : ty <> Doubly) by (intros ->; specialize (Hd eq_refl); by subst).
  clear Hvs Hd.
  rewrite (listOf_nonempty ty vs) by done.
  unfold handleAddToHead, listOf. cbn [isAnimating tail head nodes listType].
  rewrite chain_cons. cbn [length].
  destruct ty; [|done|].
  - rewrite fmap_cons. unfold update. cbn [lookup list_lookup alter list_alter].
    f_equal. f_equal; [|f_equal; lia].
    f_equal; [unfold chainNode, shiftUp, set_status; simpl; f_equal; link_cases|].
    apply list_eq. intros i.
    rewrite list_lookup_fmap, list_lookup_imap, chain_lookup.
    destruct (vs !! i) as [y|]; [|done]. simpl. f_equal.
    unfold chainNode, shiftUp; simpl. f_equal; link_cases.
  - rewrite update_lt by (rewrite length_fmap; simpl; rewrite length_chain; lia).
    rewrite fmap_cons. rewrite Nat.add_1_r. cbn [alter list_alter].
    unfold update. cbn [lookup list_lookup alter list_alter].
    f_equal. f_equal; [|f_equal; lia].
    f_equal; [unfold chainNode, shiftUp, set_status; simpl; f_equal; link_cases|].
    apply list_eq. intros i.
    rewrite list_lookup_alter, !list_lookup_fmap, list_lookup_imap, !chain_lookup.
    destruct (decide (length vs - 1 = i)) as [<-|Hi].
    + destruct (vs !! (length vs - 1)) as [y|]; [|done]. simpl. f_equal.
      unfold chainNode, shiftUp, set_next; simpl. f_equal; link_cases.
    + destruct (vs !! i) as [y|] eqn:Hy; [|done]. simpl. f_equal.
      apply lookup_lt_Some in Hy.
      unfold chainNode, shiftUp; simpl. f_equal; link_cases.
Qed.

(** Head insertion into a non-empty doubly linked list: the old head's
    [prev] is set to [0] before every index is moved up by one, and ends as
    its own index [1]. *)
Lemma addToHead_doubly v x vs :
  handleAddToHead (Some v) (listOf Doubly (x :: vs))
  = Ok (mkList Doubly
          (alter (set_prev (Prev (Some 1))) 1 (chain Doubly (v :: x :: vs)))
          (Some 0) (Some (S (length vs))) false).
Proof.
  remember (x :: vs) as ws eqn:Hws.
  assert (Hn : 0 < length ws) by (subst ws; simpl; lia).
  replace (S (length vs)) with (length ws) by (subst ws; simpl; lia).
  clear Hws.
  rewrite (listOf_nonempty Doubly ws) by done.
  unfold handleAddToHead. cbn [isAnimating tail head nodes listType].
  rewrite update_lt by (rewrite length_chain; lia).
  rewrite chain_cons, fmap_cons. unfold update.
  cbn [lookup list_lookup alter list_alter].
  f_equal. f_equal; [|f_equal; lia].
  f_equal; [unfold chainNode, shiftUp, set_status; simpl; f_equal; link_cases|].
  apply list_eq. intros i.
  rewrite list_lookup_fmap, !list_lookup_alter, !list_lookup_imap, !chain_lookup.
  destruct (decide (0 = i)) as [<-|Hi].
  - destruct (ws !! 0) as [y|]; [|done]. simpl. f_equal.
    unfold chainNode, shiftUp, set_prev; simpl. f_equal; link_cases.
  - destruct (ws !! i) as [y|]; [|done]. simpl. f_equal.
    unfold chainNode, shiftUp; simpl. f_equal; link_cases.
Qed.

End list_ops.

Section list_results.
Import ListViz ListSpec.

(** X21: insertion at the tail appends.  On the well-linked list of the
    values [vs] (of any type; a circular list must not be empty) the handler
    returns the well-linked list of [vs ++ [v]], with the new node's status
    back to [default]. *)
Theorem addToTail_appends ty vs v :
  (ty = Circular -> vs <> []) ->
  handleAddToTail (Some v) (listOf ty vs) = Ok (listOf ty (vs ++ [v])).
Proof. apply addToTail_chain. Qed.

Lemma addToTail_appends_witness :
  handleAddToTail (Some 50%Z) (resetList Circular)
  = Ok (listOf Circular [10; 20; 30; 40; 50]%Z).
Proof.
  rewrite resetList_listOf.
  apply (addToTail_appends Circular [10; 20; 30; 40]%Z 50%Z). intros _. discriminate.
Defined.

(** X22: removal at the tail drops the last value, for every list type: on
    the well-linked list of [vs ++ [v]] the handler returns the well-linked
    list of [vs] (the empty list when [vs] is empty). *)
Theorem removeFromTail_drops_last ty vs v :
  handleRemoveFromTail (listOf ty (vs ++ [v])) = Ok (listOf ty vs).
Proof. apply removeFromTail_chain. Qed.

(** X23: removal at the head drops the first value.  On the well-linked list
    of [v :: vs] the handler returns the well-linked list of [vs]; in a
    circular list this needs a second node. *)
Theorem removeFromHead_drops_first ty v vs :
  (ty = Circular -> vs <> []) ->
  handleRemoveFromHead (listOf ty (v :: vs)) = Ok (listOf ty vs).
Proof. apply removeFromHead_chain. Qed.

Lemma removeFromHead_drops_first_witness :
  handleRemoveFromHead (resetList Doubly) = Ok (listOf Doubly [20; 30; 40]%Z).
Proof.
  rewrite resetList_listOf.
  apply (removeFromHead_drops_first Doubly 10%Z [20; 30; 40]%Z). discriminate.
Defined.

(** X24: emptying a list.  Pressing "remove from tail" once per node empties
    a list of any type.  Pressing "remove from head" once per node empties a
    singly or doubly linked list, but on a non-empty circular list the press
    that removes the last node throws a [TypeError]. *)
Theorem drain_list ty vs :
  presses (replicate (length vs) RemoveTail) (listOf ty vs) = Ok (listOf ty []) /\
  presses (replicate (length vs) RemoveHead) (listOf ty vs)
    = match ty, vs with
      | Circular, _ :: _ => Throw TypeError
      | _, _ => Ok (listOf ty [])
      end.
Proof.
  split.
  - induction vs as [|v vs IH] using rev_ind; [done|].
    rewrite length_app, Nat.add_1_r. cbn [replicate presses press].
    by rewrite removeFromTail_chain.
  - induction vs as [|v vs IH]; [by destruct ty|].
    cbn [length replicate presses press].
    destruct vs as [|x vs']; [by destruct ty|].
    rewrite removeFromHead_chain by done.
    rewrite IH. by destruct ty.
Qed.

(** X25: insertion at the head prepends, on a singly linked list, on a
    non-empty circular list and on the empty doubly linked list: the handler
    returns the well-linked list of [v :: vs]. *)
Theorem addToHead_prepends ty vs v :
  (ty = Doubly -> vs = []) -> (ty = Circular -> vs <> []) ->
  handleAddToHead (Some v) (listOf ty vs) = Ok (listOf ty (v :: vs)).
Proof. apply addToHead_chain. Qed.

Lemma addToHead_prepends_witness :
  handleAddToHead (Some 5%Z) (resetList Circular)
  = Ok (listOf Circular [5; 10; 20; 30; 40]%Z).
Proof.
  rewrite resetList_listOf.
  apply (addToHead_prepends Circular [10; 20; 30; 40]%Z 5%Z); discriminate.
Defined.

(** X26: insertion at the head of a non-empty doubly linked list.  The
    result holds the values [v :: x :: vs] with every link of the well-linked
    list but one: the old head, now at index 1, has [prev = 1], its own
    index, so the index links are no longer consistent. *)
Theorem addToHead_doubly_self_prev v x vs :
  exists st,
    handleAddToHead (Some v) (listOf Doubly (x :: vs)) = Ok st /\
    nodes st = alter (set_prev (Prev (Some 1))) 1 (chain Doubly (v :: x :: vs)) /\
    value <$> nodes st = v :: x :: vs /\
    head st = Some 0 /\ tail st = Some (S (length vs)) /\
    ~ links_consistent (nodes st).
Proof.
  eexists. split; [apply addToHead_doubly|]. cbn [nodes head tail].
  split_and!; [done| |done|done|].
  - rewrite <-(chain_values Doubly (v :: x :: vs)) at 2.
    apply list_eq. intros i.
    rewrite !list_lookup_fmap, list_lookup_alter.
    destruct (decide (1 = i)) as [<-|Hi]; [|done].
    by destruct (chain Doubly (v :: x :: vs) !! 1).
  - intros Hcons.
    destruct (Hcons 0 (chainNode Doubly (S (S (length vs))) 0 v) 1)
      as (m & Hm & Hprev); [done|done|].
    rewrite chain_cons in Hm. cbn in Hm. injection Hm as <-. done.
Qed.

(** X27: the first node of a circular list.  Inserting into the empty
    circular list, at either end, leaves one node whose [next] is [null], not
    the node itself; the next insertion at either end closes the ring. *)
Theorem circular_first_insert v w :
  let single := mkList Circular [mkNode v NDefault None NoPrev] (Some 0) (Some 0) false in
  handleAddToHead (Some v) (listOf Circular []) = Ok single /\
  handleAddToTail (Some v) (listOf Circular []) = Ok single /\
  single <> listOf Circular [v] /\
  handleAddToTail (Some w) single = Ok (listOf Circular [v; w]) /\
  handleAddToHead (Some w) single = Ok (listOf Circular [w; v]).
Proof. by split_and!. Qed.

(** X28: the singly linked list is a double-ended queue.  Any sequence of
    presses of the four buttons on the well-linked list of [vs] returns
    without an exception, and leaves the well-linked list of the values that
    a double-ended queue holds after the same operations (a removal on the
    empty list does nothing). *)
Theorem singly_list_is_deque bs : forall vs,
  presses bs (listOf Singly vs) = Ok (listOf Singly (foldl dequeStep vs bs)).
Proof.
  induction bs as [|b bs IH]; intros vs; [done|].
  cbn [presses foldl].
  assert (Hstep : press b (listOf Singly vs) = Ok (listOf Singly (dequeStep vs b))).
  { destruct b as [v|v| |]; cbn [press dequeStep].
    - by apply addToHead_chain.
    - by apply addToTail_chain.
    - destruct vs as [|x vs']; [done|]. by apply removeFromHead_chain.
    - destruct vs as [|x vs' _] using rev_ind; [done|].
      rewrite removelast_last. apply removeFromTail_chain. }
  rewrite Hstep. apply IH.
Qed.

End list_results.

Section tree_deletes.
Import TreeViz TreeSpec.




End tree_deletes.
